(** * Accessible canvas descriptions: [describe] and [describeElement]

    A shallow embedding of [src/accessibility/describe.js].

    - JavaScript strings are modelled as [string]; a character is one code
      unit, restricted to the 8-bit range.
    - A call either completes normally or throws; [completion] keeps the
      two apart, and a stateful operation returns the state it leaves
      behind in both cases.
    - The DOM is a list of elements in document order, each carrying its
      nesting depth and a handle that stands for the identity of the node.
    - The markup written into a leaf ([<p>] or [<tr>]) through [innerHTML]
      is kept as the string that was written; it is not parsed into
      further nodes. *)

From Stdlib Require Import Ascii String.
From stdpp Require Import base option list strings gmap.

(** ** JavaScript values and completions *)

Inductive jsval :=
  | VUndefined
  | VNull
  | VBool (b : bool)
  | VNumber (z : Z)
  | VString (s : string).

Inductive exn :=
  | Error (msg : string)      (* [throw new Error(msg)] *)
  | TypeError                 (* property access on [null] or [undefined] *)
  | DOMException (name : string).

Inductive completion (A : Type) :=
  | Normal (a : A)
  | Throw (e : exn).
Arguments Normal {A} a.
Arguments Throw {A} e.

#[global] Instance jsval_eq_dec : EqDecision jsval.
Proof. solve_decision. Defined.
#[global] Instance exn_eq_dec : EqDecision exn.
Proof. solve_decision. Defined.

(** [a === b] on the values modelled here. *)
Definition strict_eq (a b : jsval) : bool := bool_decide (a = b).

(** ** String primitives *)

(** [s.endsWith(c)] for a one-character [c]. *)
Fixpoint endsWith (s : string) (c : ascii) : bool :=
  match s with
  | EmptyString => false
  | String a t =>
      match t with
      | EmptyString => Ascii.eqb a c
      | String _ _ => endsWith t c
      end
  end.

(** The line terminators that the regular expression [.] does not match. *)
Definition is_line_terminator (a : ascii) : bool :=
  Ascii.eqb a "010" || Ascii.eqb a "013".

(** [s.replace(/.$/, r)]: the only place where [.$] can match is the last
    character, and it matches there unless that is a line terminator. *)
Fixpoint replace_last (s r : string) : string :=
  match s with
  | EmptyString => EmptyString
  | String a t =>
      match t with
      | EmptyString => if is_line_terminator a then s else r
      | String _ _ => String a (replace_last t r)
      end
  end.

Definition is_upper (a : ascii) : bool :=
  (65 <=? nat_of_ascii a)%nat && (nat_of_ascii a <=? 90)%nat.
Definition is_lower (a : ascii) : bool :=
  (97 <=? nat_of_ascii a)%nat && (nat_of_ascii a <=? 122)%nat.
Definition is_digit (a : ascii) : bool :=
  (48 <=? nat_of_ascii a)%nat && (nat_of_ascii a <=? 57)%nat.
Definition is_alnum (a : ascii) : bool := is_lower a || is_upper a || is_digit a.

(** The character class [[a-zA-Z0-9 ]]. *)
Definition key_char (a : ascii) : bool := is_alnum a || Ascii.eqb a " ".

Fixpoint filter_chars (f : ascii -> bool) (s : string) : string :=
  match s with
  | EmptyString => EmptyString
  | String a t => if f a then String a (filter_chars f t) else filter_chars f t
  end.

(** [name.replace(/[^a-zA-Z0-9 ]/g, '')]. *)
Definition sanitize (name : string) : string := filter_chars key_char name.

(** ** Text normalisation *)

Definition reserved (s : string) : bool :=
  String.eqb s "label" || String.eqb s "fallback".

Definition _descriptionText (text : string) : completion string :=
  if reserved text then
    Throw (Error "description should not be LABEL or FALLBACK")
  else if negb (endsWith text ".") &&
          negb (endsWith text ";") &&
          negb (endsWith text ",") &&
          negb (endsWith text "?") &&
          negb (endsWith text "!")
  then Normal (text +:+ ".")
  else Normal text.

Definition _elementName (name : string) : completion string :=
  if reserved name then
    Throw (Error "element name should not be LABEL or FALLBACK")
  else if endsWith name "." || endsWith name ";" || endsWith name ","
  then Normal (replace_last name ":")
  else if negb (endsWith name ":")
  then Normal (name +:+ ":")
  else Normal name.

(** ** The DOM

    The document is the list of its elements in document order (pre-order);
    [depth] is the nesting depth, so the subtree of an element is the run of
    deeper elements that follows it. [node] is the identity of the element:
    a reference held by the sketch is a [handle].

    The elements listed are the ones that the page has before the first
    call and the ones of the fixed markup of this module. The content of a
    paragraph or of a row is kept in [html] as the string that was assigned
    to [innerHTML]: it is not parsed, so the cells of a row and whatever
    elements a name or a text with markup would create are not elements of
    the list, and the string is read back as it was written. *)

Definition handle := nat.

Record elem := Elem {
  node : handle;
  depth : nat;
  tag : string;                      (* lower case *)
  eid : string;                      (* the [id] attribute, empty when absent *)
  attrs : list (string * string);    (* the other attributes *)
  html : string                      (* [innerHTML] of a leaf, as written *)
}.

#[global] Instance elem_eq_dec : EqDecision elem.
Proof. solve_decision. Defined.

Definition with_html (s : string) (e : elem) : elem :=
  Elem (node e) (depth e) (tag e) (eid e) (attrs e) s.
Definition with_id (x : string) (e : elem) : elem :=
  Elem (node e) (depth e) (tag e) x (attrs e) (html e).
Definition with_depth (k : nat) (e : elem) : elem :=
  Elem (node e) k (tag e) (eid e) (attrs e) (html e).

(** [split_at h d]: the elements before the node [h], the node, and the
    elements after it. *)
Fixpoint split_at (h : handle) (d : list elem) : option (list elem * elem * list elem) :=
  match d with
  | [] => None
  | e :: d' =>
      if Nat.eqb (node e) h then Some ([], e, d')
      else match split_at h d' with
           | Some (a, x, b) => Some (e :: a, x, b)
           | None => None
           end
  end.

(** [subtree_split k l]: the leading run of [l] deeper than [k] (the
    descendants of an element of depth [k] that [l] follows), and the rest. *)
Fixpoint subtree_split (k : nat) (l : list elem) : list elem * list elem :=
  match l with
  | [] => ([], [])
  | e :: l' =>
      if (k <? depth e)%nat
      then let '(s, r) := subtree_split k l' in (e :: s, r)
      else ([], l)
  end.

(** The open ancestors while scanning: drop the entries that are not above
    depth [k]. *)
Fixpoint pop_to (k : nat) (stack : list elem) : list elem :=
  match stack with
  | [] => []
  | a :: stack' => if (depth a <? k)%nat then stack else pop_to k stack'
  end.

(** [document.getElementById(x)]. *)
Definition getElementById (d : list elem) (x : string) : option elem :=
  if String.eqb x "" then None
  else List.find (fun e => String.eqb (eid e) x) d.

(** [h.parentNode]: [None] stands for [null]. *)
Fixpoint parent_scan (h : handle) (stack : list elem) (d : list elem) : option handle :=
  match d with
  | [] => None
  | e :: d' =>
      let stack' := pop_to (depth e) stack in
      if Nat.eqb (node e) h then option_map node (head stack')
      else parent_scan h (e :: stack') d'
  end.
Definition parentNode (d : list elem) (h : handle) : option handle :=
  parent_scan h [] d.

Definition get_html (d : list elem) (h : handle) : option string :=
  option_map html (List.find (fun e => Nat.eqb (node e) h) d).

(** Writing the content of a leaf, kept as the string written; a node
    that is not in the document is not tracked. *)
Fixpoint set_html (h : handle) (s : string) (d : list elem) : list elem :=
  match d with
  | [] => []
  | e :: d' => if Nat.eqb (node e) h then with_html s e :: d' else e :: set_html h s d'
  end.

(** ** Selectors

    Every selector of this module is [#] followed by an id built from the
    canvas id, a fixed suffix and possibly a sanitized name. The fragment of
    CSS modelled is the one such a string can fall into when its characters
    are letters, digits, [_], [-] and spaces: an id selector followed by
    type selectors, joined by the descendant combinator. A string outside
    this fragment is reported as a syntax error: for a canvas id that is
    an identifier this is the answer of the browser, whatever the name;
    a canvas id with other characters can make the string a selector of
    another kind, which is not modelled. An id selector matches the id
    as it is written, letter case included, as in a document that is not
    in quirks mode. *)

Inductive simple :=
  | SId (x : string)
  | SType (t : string).

Definition cons_nonempty (w : string) (ws : list string) : list string :=
  if String.eqb w "" then ws else w :: ws.

Fixpoint words (s : string) : string * list string :=
  match s with
  | EmptyString => (EmptyString, [])
  | String a t =>
      let '(w, ws) := words t in
      if Ascii.eqb a " " then (EmptyString, cons_nonempty w ws)
      else (String a w, ws)
  end.

(** The space-separated tokens of [s]. *)
Definition tokens (s : string) : list string :=
  let '(w, ws) := words s in cons_nonempty w ws.

Definition is_name_start (a : ascii) : bool :=
  is_lower a || is_upper a || Ascii.eqb a "_".
Definition is_name_char (a : ascii) : bool :=
  is_alnum a || Ascii.eqb a "_" || Ascii.eqb a "-".

Fixpoint all_chars (f : ascii -> bool) (s : string) : bool :=
  match s with
  | EmptyString => true
  | String a t => f a && all_chars f t
  end.

(** A CSS identifier over the modelled alphabet. *)
Definition is_ident (s : string) : bool :=
  match s with
  | EmptyString => false
  | String a t =>
      if is_name_start a then all_chars is_name_char t
      else if Ascii.eqb a "-" then
        match t with
        | EmptyString => false
        | String b t' => (is_name_start b || Ascii.eqb b "-") && all_chars is_name_char t'
        end
      else false
  end.

Definition parse_selector (s : string) : completion (list simple) :=
  match tokens s with
  | [] => Throw (DOMException "SyntaxError")
  | t0 :: ts =>
      match t0 with
      | String "#" x =>
          if is_ident x && forallb is_ident ts
          then Normal (SId x :: List.map SType ts)
          else Throw (DOMException "SyntaxError")
      | _ => Throw (DOMException "SyntaxError")
      end
  end.

Definition lower_char (a : ascii) : ascii :=
  if is_upper a then ascii_of_nat (nat_of_ascii a + 32) else a.
Fixpoint to_lower (s : string) : string :=
  match s with
  | EmptyString => EmptyString
  | String a t => String (lower_char a) (to_lower t)
  end.

Definition matches_simple (s : simple) (e : elem) : bool :=
  match s with
  | SId x => String.eqb (eid e) x
  | SType t => String.eqb (tag e) (to_lower t)
  end.

(** The remaining compounds, innermost first, against the ancestors, nearest
    first: each compound takes the nearest ancestor that matches it. *)
Fixpoint matches_ancestors (anc : list elem) (sels_rev : list simple) : bool :=
  match sels_rev with
  | [] => true
  | s :: ss =>
      match anc with
      | [] => false
      | a :: anc' =>
          if matches_simple s a then matches_ancestors anc' ss
          else matches_ancestors anc' sels_rev
      end
  end.

Definition matches_complex (sels_rev : list simple) (e : elem) (anc : list elem) : bool :=
  match sels_rev with
  | [] => false
  | s :: ss => matches_simple s e && matches_ancestors anc ss
  end.

(** The first element in document order that is a descendant of [ctx] and
    matches the selector; [stack] holds the ancestors of the element under
    the scan. The scan is over the elements of the list: the cells inside
    a row are not among them. *)
Fixpoint qs_scan (sels_rev : list simple) (ctx : handle) (stack : list elem)
    (d : list elem) : option elem :=
  match d with
  | [] => None
  | e :: d' =>
      let stack' := pop_to (depth e) stack in
      if existsb (fun a => Nat.eqb (node a) ctx) stack' && matches_complex sels_rev e stack'
      then Some e
      else qs_scan sels_rev ctx (e :: stack') d'
  end.

(** [ctx.querySelector(sel)] *)
Definition querySelector (d : list elem) (ctx : handle) (sel : string)
    : completion (option elem) :=
  match parse_selector sel with
  | Throw e => Throw e
  | Normal sels => Normal (qs_scan (rev sels) ctx [] d)
  end.

(** ** The sketch instance

    [descriptions] is [this.descriptions]: the cached node references. An
    entry of an element table is a node or [null] ([None]); a name that is
    not an own property is looked up on [Object.prototype]. *)

Record descriptions := Descriptions {
  fallback : option handle;
  label : option handle;
  fallbackElements : option (gmap string (option handle));
  labelElements : option (gmap string (option handle))
}.

Record sketch := Sketch {
  dom : list elem;
  next : handle;                     (* the next unused node identity *)
  dummyDOM : option handle;          (* [this.dummyDOM] *)
  descs : option descriptions        (* [this.descriptions] *)
}.

Definition object_prototype_keys : list string :=
  [ "constructor"; "hasOwnProperty"; "isPrototypeOf"; "propertyIsEnumerable";
    "toLocaleString"; "toString"; "valueOf"; "__proto__";
    "__defineGetter__"; "__defineSetter__"; "__lookupGetter__"; "__lookupSetter__" ].

Definition is_prototype_key (k : string) : bool :=
  existsb (String.eqb k) object_prototype_keys.

Inductive propval :=
  | PNode (h : handle)
  | PNull
  | PInherited          (* a member of [Object.prototype]: truthy, not a node *)
  | PUndefined.

(** [obj[k]] for a plain object [obj] *)
Definition obj_get (obj : gmap string (option handle)) (k : string) : propval :=
  match obj !! k with
  | Some (Some h) => PNode h
  | Some None => PNull
  | None => if is_prototype_key k then PInherited else PUndefined
  end.

(** ** State and exceptions *)

Definition M (A : Type) : Type := sketch -> completion A * sketch.

Definition ret {A} (a : A) : M A := fun st => (Normal a, st).
Definition throw {A} (e : exn) : M A := fun st => (Throw e, st).
Definition bind {A B} (m : M A) (k : A -> M B) : M B :=
  fun st =>
    match m st with
    | (Normal a, st') => k a st'
    | (Throw e, st') => (Throw e, st')
    end.

Notation "x <- m ;; k" := (bind m (fun x => k))
  (at level 100, m at next level, right associativity).
Notation "m ;;; k" := (bind m (fun _ => k))
  (at level 100, right associativity).

Definition lift {A} (c : completion A) : M A := fun st => (c, st).
Definition gets {A} (f : sketch -> A) : M A := fun st => (Normal (f st), st).
Definition modify (f : sketch -> sketch) : M unit := fun st => (Normal tt, f st).

Definition set_dom (d : list elem) (st : sketch) : sketch :=
  Sketch d (next st) (dummyDOM st) (descs st).
Definition set_next (n : handle) (st : sketch) : sketch :=
  Sketch (dom st) n (dummyDOM st) (descs st).
Definition set_dummyDOM (r : option handle) (st : sketch) : sketch :=
  Sketch (dom st) (next st) r (descs st).
Definition set_descs (ds : option descriptions) (st : sketch) : sketch :=
  Sketch (dom st) (next st) (dummyDOM st) ds.

Definition no_descriptions : descriptions := Descriptions None None None None.

(** The store as a record that is always there: an absent
    [this.descriptions] has no entry. *)
Definition the_descs (st : sketch) : descriptions :=
  default no_descriptions (descs st).

Definition set_fallback (r : option handle) (ds : descriptions) : descriptions :=
  Descriptions r (label ds) (fallbackElements ds) (labelElements ds).
Definition set_label (r : option handle) (ds : descriptions) : descriptions :=
  Descriptions (fallback ds) r (fallbackElements ds) (labelElements ds).
Definition set_fallbackElements (m : option (gmap string (option handle)))
    (ds : descriptions) : descriptions :=
  Descriptions (fallback ds) (label ds) m (labelElements ds).
Definition set_labelElements (m : option (gmap string (option handle)))
    (ds : descriptions) : descriptions :=
  Descriptions (fallback ds) (label ds) (fallbackElements ds) m.

(** An update of a field of [this.descriptions]; the object exists at every
    place where the source writes one. *)
Definition update_descs (f : descriptions -> descriptions) : M unit :=
  fun st =>
    match descs st with
    | Some ds => (Normal tt, set_descs (Some (f ds)) st)
    | None => (Throw TypeError, st)
    end.

(** ** DOM mutation *)

(** Markup is written with depths and node identities relative to the place
    where it is parsed. *)
Definition place (k : nat) (n : handle) (frag : list elem) : list elem :=
  List.map (fun e => Elem (n + node e) (k + depth e) (tag e) (eid e) (attrs e) (html e)) frag.

Inductive position := beforebegin | afterend.

Definition insert_adjacent (h : handle) (pos : position) (n : handle)
    (frag : list elem) (d : list elem) : option (list elem) :=
  match split_at h d with
  | None => None
  | Some (a, e, b) =>
      match pos with
      | beforebegin => Some (a ++ place (depth e) n frag ++ e :: b)
      | afterend =>
          let '(sub, rest) := subtree_split (depth e) b in
          Some (a ++ e :: sub ++ place (depth e) n frag ++ rest)
      end
  end.

(** [h.insertAdjacentHTML(pos, frag)]; a target outside the document has no
    parent to insert into. *)
Definition insertAdjacentHTML (h : handle) (pos : position) (frag : list elem) : M unit :=
  fun st =>
    match insert_adjacent h pos (next st) frag (dom st) with
    | Some d' => (Normal tt, set_next (next st + length frag) (set_dom d' st))
    | None => (Throw (DOMException "NoModificationAllowedError"), st)
    end.

Definition replace_children (h : handle) (n : handle) (frag : list elem)
    (d : list elem) : list elem :=
  match split_at h d with
  | None => d
  | Some (a, e, b) =>
      let '(_, rest) := subtree_split (depth e) b in
      a ++ e :: place (S (depth e)) n frag ++ rest
  end.

(** [h.innerHTML = frag] for markup that holds elements. *)
Definition set_innerHTML_markup (h : handle) (frag : list elem) : M unit :=
  fun st =>
    (Normal tt,
     set_next (next st + length frag) (set_dom (replace_children h (next st) frag (dom st)) st)).

(** [document.createElement(t)] *)
Definition createElement (t : string) : M elem :=
  fun st => (Normal (Elem (next st) 0 t "" [] ""), set_next (S (next st)) st).

Definition append_child (h : handle) (c : elem) (d : list elem) : list elem :=
  match split_at h d with
  | None => d
  | Some (a, e, b) =>
      let '(sub, rest) := subtree_split (depth e) b in
      a ++ e :: sub ++ with_depth (S (depth e)) c :: rest
  end.

(** [h.appendChild(c)] for a new node [c]. *)
Definition appendChild (h : handle) (c : elem) : M unit :=
  modify (fun st => set_dom (append_child h c (dom st)) st).

(** [ctx.querySelector(sel)] where [ctx] may be [null]. *)
Definition qs (ctx : option handle) (sel : string) : M (option elem) :=
  match ctx with
  | None => throw TypeError
  | Some c => fun st => (querySelector (dom st) c sel, st)
  end.

(** A member access on the result of a query: [null] has no members. *)
Definition on_node {A} (r : option elem) (k : handle -> M A) : M A :=
  match r with
  | None => throw TypeError
  | Some e => k (node e)
  end.

(** [if (h.innerHTML !== s) { h.innerHTML = s; }], on the content as it
    was written. *)
Definition refresh (h : handle) (s : string) : M unit :=
  fun st =>
    if bool_decide (get_html (dom st) h = Some s) then (Normal tt, st)
    else (Normal tt, set_dom (set_html h s (dom st)) st).

(** [h.innerHTML = s] for the content of a leaf, kept as the string [s]. *)
Definition write_html (h : handle) (s : string) : M unit :=
  modify (fun st => set_dom (set_html h s (dom st)) st).

(** ** The module

    [p5._validateParameters] only reports to the console and is not part of
    the model. *)

Definition descContainer : string := "_Description".
Definition fallbackDescId : string := "_fallbackDesc".
Definition fallbackTableId : string := "_fallbackTable".
Definition fallbackTableElId : string := "_fte_".
Definition labelContainer : string := "_Label".
Definition labelDescId : string := "_labelDesc".
Definition labelTableId : string := "_labelTable".
Definition labelTableElId : string := "_lte_".

Definition region_attrs : list (string * string) :=
  [("role", "region"); ("aria-label", "Canvas Description")].
Definition caption_text : string := "Canvas elements and their descriptions".

(** [<div id=.. role="region" aria-label=..><p id=..></p></div>] *)
Definition fallback_desc_markup (cnvId : string) : list elem :=
  [ Elem 0 0 "div" (cnvId +:+ descContainer) region_attrs "";
    Elem 1 1 "p" (cnvId +:+ fallbackDescId) [] "" ].
(** [<p id=..></p>] *)
Definition fallback_p_markup (cnvId : string) : list elem :=
  [ Elem 0 0 "p" (cnvId +:+ fallbackDescId) [] "" ].
(** [<table id=..><caption>..</caption></table>] *)
Definition fallback_table_markup (cnvId : string) : list elem :=
  [ Elem 0 0 "table" (cnvId +:+ fallbackTableId) [] "";
    Elem 1 1 "caption" "" [] caption_text ].
(** [<div id=.. role="region" aria-label=..><table id=..><caption>..</caption></table></div>] *)
Definition fallback_elements_markup (cnvId : string) : list elem :=
  [ Elem 0 0 "div" (cnvId +:+ descContainer) region_attrs "";
    Elem 1 1 "table" (cnvId +:+ fallbackTableId) [] "";
    Elem 2 2 "caption" "" [] caption_text ].
(** [<div id=.. class="p5Label"><p id=..></p></div>] *)
Definition label_desc_markup (cnvId : string) : list elem :=
  [ Elem 0 0 "div" (cnvId +:+ labelContainer) [("class", "p5Label")] "";
    Elem 1 1 "p" (cnvId +:+ labelDescId) [] "" ].
Definition label_p_markup (cnvId : string) : list elem :=
  [ Elem 0 0 "p" (cnvId +:+ labelDescId) [] "" ].
Definition label_table_markup (cnvId : string) : list elem :=
  [ Elem 0 0 "table" (cnvId +:+ labelTableId) [] "" ].
(** [<div id=.. class="p5Label"><table id=..></table></div>] *)
Definition label_elements_markup (cnvId : string) : list elem :=
  [ Elem 0 0 "div" (cnvId +:+ labelContainer) [("class", "p5Label")] "";
    Elem 1 1 "table" (cnvId +:+ labelTableId) [] "" ].

(** The result of a scaffold helper: [None] is [undefined], otherwise the
    pair [[node, dummyDOM]], whose first component may be [null]. *)
Definition results := option (option handle * option handle).

Definition _describeFallbackHTML (dummyDOM : option handle) (cnvId : string) : M results :=
  c <- qs dummyDOM ("#" +:+ (cnvId +:+ descContainer)) ;;
  match c with
  | None =>
      a <- qs dummyDOM ("#" +:+ (cnvId +:+ "accessibleOutput")) ;;
      match a with
      | None =>
          cv <- qs dummyDOM ("#" +:+ cnvId) ;;
          on_node cv (fun h => set_innerHTML_markup h (fallback_desc_markup cnvId))
      | Some _ =>
          a' <- qs dummyDOM ("#" +:+ (cnvId +:+ "accessibleOutput")) ;;
          on_node a' (fun h => insertAdjacentHTML h beforebegin (fallback_desc_markup cnvId))
      end
  | Some _ =>
      t <- qs dummyDOM ("#" +:+ (cnvId +:+ fallbackTableId)) ;;
      on_node t (fun h => insertAdjacentHTML h beforebegin (fallback_p_markup cnvId))
  end ;;;
  p <- qs dummyDOM ("#" +:+ (cnvId +:+ fallbackDescId)) ;;
  match p with
  | Some _ =>
      p' <- qs dummyDOM ("#" +:+ (cnvId +:+ fallbackDescId)) ;;
      ret (Some (option_map node p', dummyDOM))
  | None => ret None
  end.

Definition _describeLabelHTML (dummyDOM : option handle) (cnvId : string) : M results :=
  c <- qs dummyDOM ("#" +:+ (cnvId +:+ labelContainer)) ;;
  match c with
  | None =>
      a <- qs dummyDOM ("#" +:+ (cnvId +:+ "accessibleOutputLabel")) ;;
      match a with
      | None =>
          cv <- qs dummyDOM ("#" +:+ cnvId) ;;
          on_node cv (fun h => insertAdjacentHTML h afterend (label_desc_markup cnvId))
      | Some _ =>
          a' <- qs dummyDOM ("#" +:+ (cnvId +:+ "accessibleOutputLabel")) ;;
          on_node a' (fun h => insertAdjacentHTML h beforebegin (label_desc_markup cnvId))
      end
  | Some _ =>
      t <- qs dummyDOM ("#" +:+ (cnvId +:+ labelTableId)) ;;
      match t with
      | Some _ =>
          t' <- qs dummyDOM ("#" +:+ (cnvId +:+ labelTableId)) ;;
          on_node t' (fun h => insertAdjacentHTML h beforebegin (label_p_markup cnvId))
      | None => ret tt
      end
  end ;;;
  p <- qs dummyDOM ("#" +:+ (cnvId +:+ labelDescId)) ;;
  match p with
  | Some _ =>
      p' <- qs dummyDOM ("#" +:+ (cnvId +:+ labelDescId)) ;;
      ret (Some (option_map node p', dummyDOM))
  | None => ret None
  end.

Definition _descElementFallbackHTML (dummyDOM : option handle) (cnvId name : string)
    : M results :=
  c <- qs dummyDOM ("#" +:+ (cnvId +:+ descContainer)) ;;
  match c with
  | None =>
      a <- qs dummyDOM ("#" +:+ (cnvId +:+ "accessibleOutput")) ;;
      match a with
      | None =>
          cv <- qs dummyDOM ("#" +:+ cnvId) ;;
          on_node cv (fun h => set_innerHTML_markup h (fallback_elements_markup cnvId))
      | Some _ =>
          a' <- qs dummyDOM ("#" +:+ (cnvId +:+ "accessibleOutput")) ;;
          on_node a' (fun h => insertAdjacentHTML h beforebegin (fallback_elements_markup cnvId))
      end
  | Some _ =>
      t <- qs dummyDOM ("#" +:+ (cnvId +:+ fallbackTableId)) ;;
      match t with
      | None =>
          p <- qs dummyDOM ("#" +:+ (cnvId +:+ fallbackDescId)) ;;
          on_node p (fun h => insertAdjacentHTML h afterend (fallback_table_markup cnvId))
      | Some _ => ret tt
      end
  end ;;;
  tableRow <- createElement "tr" ;;
  let tableRow := with_id (cnvId +:+ fallbackTableElId +:+ name) tableRow in
  t <- qs dummyDOM ("#" +:+ (cnvId +:+ fallbackTableId)) ;;
  on_node t (fun h => appendChild h tableRow) ;;;
  r <- qs dummyDOM ("#" +:+ (cnvId +:+ fallbackTableElId +:+ name)) ;;
  ret (Some (option_map node r, dummyDOM)).

Definition _descElementLabelHTML (dummyDOM : option handle) (cnvId name : string)
    : M results :=
  c <- qs dummyDOM ("#" +:+ (cnvId +:+ labelContainer)) ;;
  match c with
  | None =>
      a <- qs dummyDOM ("#" +:+ (cnvId +:+ "accessibleOutputLabel")) ;;
      match a with
      | None =>
          cv <- qs dummyDOM ("#" +:+ cnvId) ;;
          on_node cv (fun h => insertAdjacentHTML h afterend (label_elements_markup cnvId))
      | Some _ =>
          a' <- qs dummyDOM ("#" +:+ (cnvId +:+ "accessibleOutputLabel")) ;;
          on_node a' (fun h => insertAdjacentHTML h beforebegin (label_elements_markup cnvId))
      end
  | Some _ =>
      t <- qs dummyDOM ("#" +:+ (cnvId +:+ labelTableId)) ;;
      match t with
      | None =>
          p <- qs dummyDOM ("#" +:+ (cnvId +:+ labelDescId)) ;;
          on_node p (fun h => insertAdjacentHTML h afterend (label_table_markup cnvId))
      | Some _ => ret tt
      end
  end ;;;
  tableRow <- createElement "tr" ;;
  let tableRow := with_id (cnvId +:+ labelTableElId +:+ name) tableRow in
  t <- qs dummyDOM ("#" +:+ (cnvId +:+ labelTableId)) ;;
  on_node t (fun h => appendChild h tableRow) ;;;
  r <- qs dummyDOM ("#" +:+ (cnvId +:+ labelTableElId +:+ name)) ;;
  ret (Some (option_map node r, dummyDOM)).

Definition dquote : string := String (ascii_of_nat 34) EmptyString.

(** The row content [<th scope="row">name</th><td>text</td>]. *)
Definition row_inner (elementName text : string) : string :=
  "<th scope=" +:+ dquote +:+ "row" +:+ dquote +:+ ">" +:+ elementName +:+
  "</th><td>" +:+ text +:+ "</td>".

(** [if (!this.dummyDOM) { this.dummyDOM = document.getElementById(cnvId).parentNode; }] *)
Definition locate_dummyDOM (cnvId : string) : M unit :=
  fun st =>
    match dummyDOM st with
    | Some _ => (Normal tt, st)
    | None =>
        match getElementById (dom st) cnvId with
        | None => (Throw TypeError, st)
        | Some c => (Normal tt, set_dummyDOM (parentNode (dom st) (node c)) st)
        end
    end.

(** The two components of a scaffold result; [undefined] has none. *)
Definition result_node (r : results) : M (option handle) :=
  match r with
  | None => throw TypeError
  | Some (n, _) => ret n
  end.
Definition result_dummyDOM (r : results) : M (option handle) :=
  match r with
  | None => throw TypeError
  | Some (_, dd) => ret dd
  end.

(** [ref.innerHTML = s] where [ref] may be [null]. *)
Definition write_ref (ref : option handle) (s : string) : M unit :=
  match ref with
  | None => throw TypeError
  | Some h => write_html h s
  end.

Section Instance_.

(** [this.canvas.id] and [this.LABEL] *)
Variable cnvId : string.
Variable LABEL : jsval.

Definition describe (text display : jsval) : M unit :=
  match text with
  | VString text =>
      text <- lift (_descriptionText text) ;;
      locate_dummyDOM cnvId ;;;
      modify (fun st => match descs st with
                        | None => set_descs (Some no_descriptions) st
                        | Some _ => st
                        end) ;;;
      ds <- gets the_descs ;;
      match fallback ds with
      | Some h => refresh h text
      | None =>
          dd <- gets dummyDOM ;;
          results <- _describeFallbackHTML dd cnvId ;;
          n <- result_node results ;;
          update_descs (set_fallback n) ;;;
          dd' <- result_dummyDOM results ;;
          modify (set_dummyDOM dd') ;;;
          write_ref n text
      end ;;;
      if strict_eq display LABEL then
        ds <- gets the_descs ;;
        match label ds with
        | Some h => refresh h text
        | None =>
            dd <- gets dummyDOM ;;
            results <- _describeLabelHTML dd cnvId ;;
            n <- result_node results ;;
            update_descs (set_label n) ;;;
            dd' <- result_dummyDOM results ;;
            modify (set_dummyDOM dd') ;;;
            write_ref n text
        end
      else ret tt
  | _ => ret tt
  end.

Definition describeElement (name text display : jsval) : M unit :=
  match text, name with
  | VString text, VString name =>
      text <- lift (_descriptionText text) ;;
      elementName <- lift (_elementName name) ;;
      let name := sanitize name in
      let inner := row_inner elementName text in
      locate_dummyDOM cnvId ;;;
      modify (fun st => match descs st with
                        | None => set_descs (Some (set_fallbackElements (Some ∅) no_descriptions)) st
                        | Some ds =>
                            match fallbackElements ds with
                            | None => set_descs (Some (set_fallbackElements (Some ∅) ds)) st
                            | Some _ => st
                            end
                        end) ;;;
      ds <- gets the_descs ;;
      let rows := default ∅ (fallbackElements ds) in
      match obj_get rows name with
      | PNode h => refresh h inner
      | PInherited => ret tt
      | PNull | PUndefined =>
          dd <- gets dummyDOM ;;
          results <- _descElementFallbackHTML dd cnvId name ;;
          n <- result_node results ;;
          update_descs (set_fallbackElements (Some (<[name := n]> rows))) ;;;
          dd' <- result_dummyDOM results ;;
          modify (set_dummyDOM dd') ;;;
          write_ref n inner
      end ;;;
      if strict_eq display LABEL then
        modify (fun st => match labelElements (the_descs st) with
                          | None => set_descs (Some (set_labelElements (Some ∅) (the_descs st))) st
                          | Some _ => st
                          end) ;;;
        ds <- gets the_descs ;;
        let rows := default ∅ (labelElements ds) in
        match obj_get rows name with
        | PNode h => refresh h inner
        | PInherited => ret tt
        | PNull | PUndefined =>
            dd <- gets dummyDOM ;;
            results <- _descElementLabelHTML dd cnvId name ;;
            n <- result_node results ;;
            update_descs (set_labelElements (Some (<[name := n]> rows))) ;;;
            dd' <- result_dummyDOM results ;;
            modify (set_dummyDOM dd') ;;;
            write_ref n inner
        end
      else ret tt
  | _, _ => ret tt
  end.

End Instance_.

(** * Specification vocabulary and example pages *)

(** [s] ends with the character [c]. *)
Definition ends_with (s : string) (c : ascii) : Prop :=
  exists p, s = p +:+ String c EmptyString.

(** The characters after which a description is left as it is, and those
    that an element name has replaced by a colon. *)
Definition description_stops : list ascii := [".";  ";"; ","; "?"; "!"]%char.

Definition name_stops : list ascii := ["."; ";"; ","]%char.

Definition quiet {A} (m : M A) : Prop :=
  forall st msg, fst (m st) <> Throw (Error msg).

(** The argument is one of the two mode keywords. *)
Definition reserved_arg (v : jsval) : Prop :=
  v = VString "label" \/ v = VString "fallback".

Definition is_string (v : jsval) : Prop := exists s, v = VString s.

(** A page whose [<main>] holds the canvas [c], before any call. *)
Definition page0 : list elem :=
  [ Elem 0 0 "body" "" [] ""; Elem 1 1 "main" "" [] ""; Elem 2 2 "canvas" "c" [] "" ].

Definition sketch0 : sketch := Sketch page0 3 None None.

(** A page from which the host has removed the canvas. *)
Definition detached_sketch : sketch :=
  Sketch [ Elem 0 0 "body" "" [] ""; Elem 1 1 "main" "" [] "" ] 3 None None.

(** [this.LABEL] in the examples. *)
Definition label_const : jsval := VString "label".

(** The own or inherited value of an entry of the two element tables. *)
Definition fallback_slot (st : sketch) (k : string) : propval :=
  obj_get (default ∅ (fallbackElements (the_descs st))) k.
Definition label_slot (st : sketch) (k : string) : propval :=
  obj_get (default ∅ (labelElements (the_descs st))) k.

Definition eidb (x : string) (e : elem) : bool := String.eqb (eid e) x.

(** The first element of [l] whose id is [x], and how many have it. *)
Definition find_id (x : string) (l : list elem) : option elem := List.find (eidb x) l.

Fixpoint cnt (x : string) (l : list elem) : nat :=
  match l with
  | [] => 0
  | e :: l' => (if eidb x e then 1 else 0) + cnt x l'
  end.

(** Some element of [l] is the node [h] and satisfies [p]. *)
Definition hasP (p : elem -> bool) (h : handle) (l : list elem) : bool :=
  existsb (fun e => Nat.eqb (node e) h && p e) l.

(** No element with id [x] comes after an element with id [y]. *)
Fixpoint ordered (x y : string) (l : list elem) : Prop :=
  match l with
  | [] => True
  | e :: l' => (eidb y e = true -> cnt x l' = 0) /\ ordered x y l'
  end.

(** Every element with id [x] precedes every element with id [y] in
    document order. *)
Definition precedes (x y : string) (l : list elem) : Prop :=
  forall i j ex ey,
    l !! i = Some ex -> l !! j = Some ey -> eid ex = x -> eid ey = y -> i < j.

(** The ids that this module gives to the nodes it creates for the canvas
    [cnvId], and the ids of the accessible-output regions it looks for. *)
Definition is_frow (cnvId : string) (e : elem) : bool :=
  String.prefix (cnvId +:+ fallbackTableElId) (eid e).
Definition is_lrow (cnvId : string) (e : elem) : bool :=
  String.prefix (cnvId +:+ labelTableElId) (eid e).
Definition is_fallback_elem (cnvId : string) (e : elem) : bool :=
  eidb (cnvId +:+ descContainer) e || eidb (cnvId +:+ fallbackDescId) e ||
  eidb (cnvId +:+ fallbackTableId) e || is_frow cnvId e.
Definition is_label_elem (cnvId : string) (e : elem) : bool :=
  eidb (cnvId +:+ labelContainer) e || eidb (cnvId +:+ labelDescId) e ||
  eidb (cnvId +:+ labelTableId) e || is_lrow cnvId e.
Definition is_output_elem (cnvId : string) (e : elem) : bool :=
  eidb (cnvId +:+ "accessibleOutput") e || eidb (cnvId +:+ "accessibleOutputLabel") e.
Definition is_module_elem (cnvId : string) (e : elem) : bool :=
  is_fallback_elem cnvId e || is_label_elem cnvId e || is_output_elem cnvId e.

(** The open ancestors are listed innermost first, each deeper than the
    ones after it. *)
Fixpoint nested (stack : list elem) : Prop :=
  match stack with
  | [] => True
  | a :: stack' => Forall (fun b => depth b < depth a) stack' /\ nested stack'
  end.

(** A property of an element that does not look at its content. *)
Definition structural {A} (f : elem -> A) : Prop :=
  forall e s, f (with_html s e) = f e.

(** The frame of a canvas: the elements [pre] before the parent [r] of the
    canvas, and the elements [post] behind the subtree of [r]. *)
Definition framed (pre : list elem) (r : elem) (tl post : list elem) : Prop :=
  NoDup (List.map node (pre ++ r :: tl ++ post)) /\
  Forall (fun e => depth r < depth e) tl /\
  match post with [] => True | p :: _ => depth p <= depth r end.

(** ** Sketches reached from a fresh page *)

Abbreviation idD c := (c +:+ descContainer) (only parsing).
Abbreviation idP c := (c +:+ fallbackDescId) (only parsing).
Abbreviation idT c := (c +:+ fallbackTableId) (only parsing).
Abbreviation idR c k := (c +:+ fallbackTableElId +:+ k) (only parsing).
Abbreviation idLC c := (c +:+ labelContainer) (only parsing).
Abbreviation idLP c := (c +:+ labelDescId) (only parsing).
Abbreviation idLT c := (c +:+ labelTableId) (only parsing).
Abbreviation idLR c k := (c +:+ labelTableElId +:+ k) (only parsing).
Abbreviation idAO c := (c +:+ "accessibleOutput") (only parsing).
Abbreviation idAOL c := (c +:+ "accessibleOutputLabel") (only parsing).

(** A key that an id selector can carry and that [Object.prototype] does
    not define. *)
Definition safe_key (k : string) : bool :=
  all_chars is_alnum k && negb (is_prototype_key k).

Definition fmap (ds : descriptions) : gmap string (option handle) :=
  default ∅ (fallbackElements ds).
Definition lmap (ds : descriptions) : gmap string (option handle) :=
  default ∅ (labelElements ds).

(** No entry of the store refers to a node. *)
Definition store_empty (ds : descriptions) : Prop :=
  fallback ds = None /\ label ds = None /\
  (forall k h, fmap ds !! k <> Some (Some h)) /\
  (forall k h, lmap ds !! k <> Some (Some h)).

(** The depth, below the parent of the canvas, of the canvas and of each
    node of the two regions. *)
Definition depth_ok (cnvId : string) (k0 : nat) (e : elem) : bool :=
  implb (eidb cnvId e) (depth e =? k0 + 1) &&
  implb (eidb (idD cnvId) e) (depth e =? k0 + 2) &&
  implb (eidb (idP cnvId) e) (depth e =? k0 + 3) &&
  implb (eidb (idT cnvId) e) (depth e =? k0 + 3) &&
  implb (is_frow cnvId e) (depth e =? k0 + 4) &&
  implb (eidb (idLC cnvId) e) (depth e =? k0 + 1) &&
  implb (eidb (idLP cnvId) e) (depth e =? k0 + 2) &&
  implb (eidb (idLT cnvId) e) (depth e =? k0 + 2) &&
  implb (is_lrow cnvId e) (depth e =? k0 + 3).

(** The elements of the host page: none carries an id of this module, and
    none but the canvas carries the canvas id. *)
Definition host_elem (cnvId : string) (e : elem) : bool :=
  negb (is_module_elem cnvId e) && negb (eidb cnvId e).

(** The shape of the page below the parent [r] of the canvas: [tl] is the
    subtree of [r], [n] the next unused node identity. *)
Record structure_ok (cnvId : string) (pre : list elem) (r : elem) (post : list elem)
    (n : handle) (tl : list elem) : Prop := {
  so_framed : framed pre r tl post;
  so_next : Forall (fun e => node e < n) (pre ++ r :: tl ++ post);
  so_canvas : cnt cnvId tl = 1;
  so_depth : Forall (fun e => depth_ok cnvId (depth r) e = true) tl;
  so_output : cnt (idAO cnvId) tl = 0 /\ cnt (idAOL cnvId) tl = 0;
  (* the fallback region *)
  so_f_once : cnt (idD cnvId) tl <= 1 /\ cnt (idP cnvId) tl <= 1 /\ cnt (idT cnvId) tl <= 1;
  so_f_none : cnt (idD cnvId) tl = 0 ->
    Forall (fun e => is_fallback_elem cnvId e = false /\ is_label_elem cnvId e = false) tl;
  so_f_order : ordered (idP cnvId) (idT cnvId) tl;
  so_f_some : cnt (idD cnvId) tl = 1 -> 1 <= cnt (idP cnvId) tl + cnt (idT cnvId) tl;
  so_f_rows : forall k, safe_key k = true -> cnt (idR cnvId k) tl <= 1;
  (* the label region *)
  so_l_once : cnt (idLC cnvId) tl <= 1 /\ cnt (idLP cnvId) tl <= 1 /\ cnt (idLT cnvId) tl <= 1;
  so_l_none : cnt (idLC cnvId) tl = 0 -> Forall (fun e => is_label_elem cnvId e = false) tl;
  so_l_order : ordered (idLP cnvId) (idLT cnvId) tl;
  so_l_some : cnt (idLC cnvId) tl = 1 -> 1 <= cnt (idLP cnvId) tl + cnt (idLT cnvId) tl;
  so_l_rows : forall k, safe_key k = true -> cnt (idLR cnvId k) tl <= 1
}.

(** The store agrees with the page: a cached reference is a node of the
    page with the id it was created with, and a node of the page that this
    module created is cached. *)
Record store_ok (cnvId : string) (tl : list elem) (ds : descriptions) : Prop := {
  st_f_none : cnt (idD cnvId) tl = 0 -> store_empty ds;
  st_l_none : cnt (idLC cnvId) tl = 0 ->
    label ds = None /\ (forall k h, lmap ds !! k <> Some (Some h));
  st_fallback : forall h, fallback ds = Some h -> hasP (eidb (idP cnvId)) h tl = true;
  st_fallback' : 1 <= cnt (idP cnvId) tl -> fallback ds <> None;
  st_label : forall h, label ds = Some h -> hasP (eidb (idLP cnvId)) h tl = true;
  st_label' : 1 <= cnt (idLP cnvId) tl -> label ds <> None;
  st_frow : forall k h, safe_key k = true ->
    fmap ds !! k = Some (Some h) -> hasP (eidb (idR cnvId k)) h tl = true;
  st_frow' : forall k, safe_key k = true -> 1 <= cnt (idR cnvId k) tl ->
    exists h, fmap ds !! k = Some (Some h);
  st_lrow : forall k h, safe_key k = true ->
    lmap ds !! k = Some (Some h) -> hasP (eidb (idLR cnvId k)) h tl = true;
  st_lrow' : forall k, safe_key k = true -> 1 <= cnt (idLR cnvId k) tl ->
    exists h, lmap ds !! k = Some (Some h);
  st_proto : forall k, is_prototype_key k = true ->
    fmap ds !! k = None /\ lmap ds !! k = None;
  st_f_nodes : forall k h, fmap ds !! k = Some (Some h) ->
    hasP (fun e => negb (is_label_elem cnvId e)) h tl = true;
  st_l_nodes : forall k h, lmap ds !! k = Some (Some h) ->
    hasP (fun _ => true) h tl = true
}.

(** The invariant of a sketch on a page whose frame is [pre], [r], [post]. *)
Record inv (cnvId : string) (pre : list elem) (r : elem) (post : list elem)
    (st : sketch) (tl : list elem) : Prop := {
  inv_dom : dom st = pre ++ r :: tl ++ post;
  inv_structure : structure_ok cnvId pre r post (next st) tl;
  inv_store : store_ok cnvId tl (the_descs st);
  inv_dummyDOM : dummyDOM st = None \/ dummyDOM st = Some (node r)
}.

(** The frame itself is host content, and the canvas id is an identifier. *)
Record frame_ok (cnvId : string) (pre : list elem) (r : elem) (post : list elem) : Prop := {
  frame_ident : is_ident cnvId = true;
  frame_host : Forall (fun e => host_elem cnvId e = true) (pre ++ r :: post)
}.

(** A page before the first call: the canvas is a child of [r], the rest
    of the page is host content, and the sketch holds no reference yet. *)
Record fresh (cnvId : string) (pre : list elem) (r : elem) (post : list elem)
    (tl : list elem) (st : sketch) : Prop := {
  fresh_frame : frame_ok cnvId pre r post;
  fresh_dom : dom st = pre ++ r :: tl ++ post;
  fresh_framed : framed pre r tl post;
  fresh_next : Forall (fun e => node e < next st) (dom st);
  fresh_canvas : cnt cnvId tl = 1;
  fresh_canvas_depth : Forall (fun e => eidb cnvId e = true -> depth e = S (depth r)) tl;
  fresh_host : Forall (fun e => is_module_elem cnvId e = false) tl;
  fresh_dummyDOM : dummyDOM st = None;
  fresh_descs : descs st = None
}.

(** The calls of a sketch, and the state after a sequence of them; a call
    that throws leaves the state it had reached. *)
Inductive call :=
  | Describe (text display : jsval)
  | DescribeElement (name text display : jsval).

Definition exec (cnvId : string) (LABEL : jsval) (c : call) : M unit :=
  match c with
  | Describe text display => describe cnvId LABEL text display
  | DescribeElement name text display => describeElement cnvId LABEL name text display
  end.

Definition run (cnvId : string) (LABEL : jsval) (cs : list call) (st : sketch) : sketch :=
  fold_left (fun st c => snd (exec cnvId LABEL c st)) cs st.

(** The nodes of [tl] are still there in [tl'], unless the store refers to
    none. *)
Definition keeps (ds : descriptions) (tl tl' : list elem) : Prop :=
  store_empty ds \/
  forall (q : elem -> bool) h, structural q -> hasP q h tl = true -> hasP q h tl' = true.

(** How many nodes with each of the fixed ids a list holds: the canvas, the
    fallback container, paragraph and table, the label container, paragraph
    and table, and the two output regions. *)
Definition census (c : string) (l : list elem) : list nat :=
  [ cnt c l; cnt (idD c) l; cnt (idP c) l; cnt (idT c) l;
    cnt (idLC c) l; cnt (idLP c) l; cnt (idLT c) l;
    cnt (idAO c) l; cnt (idAOL c) l ].

(** The label region of a list of elements. *)
Definition labels (c : string) (l : list elem) : list elem :=
  List.filter (is_label_elem c) l.

(** The first blocks of the four scaffold helpers: they make sure that the
    container, and the paragraph or the table, exist. *)
Definition fallback_desc_block (dummyDOM : option handle) (cnvId : string) : M unit :=
  c <- qs dummyDOM ("#" +:+ (cnvId +:+ descContainer)) ;;
  match c with
  | None =>
      a <- qs dummyDOM ("#" +:+ (cnvId +:+ "accessibleOutput")) ;;
      match a with
      | None =>
          cv <- qs dummyDOM ("#" +:+ cnvId) ;;
          on_node cv (fun h => set_innerHTML_markup h (fallback_desc_markup cnvId))
      | Some _ =>
          a' <- qs dummyDOM ("#" +:+ (cnvId +:+ "accessibleOutput")) ;;
          on_node a' (fun h => insertAdjacentHTML h beforebegin (fallback_desc_markup cnvId))
      end
  | Some _ =>
      t <- qs dummyDOM ("#" +:+ (cnvId +:+ fallbackTableId)) ;;
      on_node t (fun h => insertAdjacentHTML h beforebegin (fallback_p_markup cnvId))
  end.

Definition fallback_table_block (dummyDOM : option handle) (cnvId : string) : M unit :=
  c <- qs dummyDOM ("#" +:+ (cnvId +:+ descContainer)) ;;
  match c with
  | None =>
      a <- qs dummyDOM ("#" +:+ (cnvId +:+ "accessibleOutput")) ;;
      match a with
      | None =>
          cv <- qs dummyDOM ("#" +:+ cnvId) ;;
          on_node cv (fun h => set_innerHTML_markup h (fallback_elements_markup cnvId))
      | Some _ =>
          a' <- qs dummyDOM ("#" +:+ (cnvId +:+ "accessibleOutput")) ;;
          on_node a' (fun h => insertAdjacentHTML h beforebegin (fallback_elements_markup cnvId))
      end
  | Some _ =>
      t <- qs dummyDOM ("#" +:+ (cnvId +:+ fallbackTableId)) ;;
      match t with
      | None =>
          p <- qs dummyDOM ("#" +:+ (cnvId +:+ fallbackDescId)) ;;
          on_node p (fun h => insertAdjacentHTML h afterend (fallback_table_markup cnvId))
      | Some _ => ret tt
      end
  end.

Definition label_desc_block (dummyDOM : option handle) (cnvId : string) : M unit :=
  c <- qs dummyDOM ("#" +:+ (cnvId +:+ labelContainer)) ;;
  match c with
  | None =>
      a <- qs dummyDOM ("#" +:+ (cnvId +:+ "accessibleOutputLabel")) ;;
      match a with
      | None =>
          cv <- qs dummyDOM ("#" +:+ cnvId) ;;
          on_node cv (fun h => insertAdjacentHTML h afterend (label_desc_markup cnvId))
      | Some _ =>
          a' <- qs dummyDOM ("#" +:+ (cnvId +:+ "accessibleOutputLabel")) ;;
          on_node a' (fun h => insertAdjacentHTML h beforebegin (label_desc_markup cnvId))
      end
  | Some _ =>
      t <- qs dummyDOM ("#" +:+ (cnvId +:+ labelTableId)) ;;
      match t with
      | Some _ =>
          t' <- qs dummyDOM ("#" +:+ (cnvId +:+ labelTableId)) ;;
          on_node t' (fun h => insertAdjacentHTML h beforebegin (label_p_markup cnvId))
      | None => ret tt
      end
  end.

Definition label_table_block (dummyDOM : option handle) (cnvId : string) : M unit :=
  c <- qs dummyDOM ("#" +:+ (cnvId +:+ labelContainer)) ;;
  match c with
  | None =>
      a <- qs dummyDOM ("#" +:+ (cnvId +:+ "accessibleOutputLabel")) ;;
      match a with
      | None =>
          cv <- qs dummyDOM ("#" +:+ cnvId) ;;
          on_node cv (fun h => insertAdjacentHTML h afterend (label_elements_markup cnvId))
      | Some _ =>
          a' <- qs dummyDOM ("#" +:+ (cnvId +:+ "accessibleOutputLabel")) ;;
          on_node a' (fun h => insertAdjacentHTML h beforebegin (label_elements_markup cnvId))
      end
  | Some _ =>
      t <- qs dummyDOM ("#" +:+ (cnvId +:+ labelTableId)) ;;
      match t with
      | None =>
          p <- qs dummyDOM ("#" +:+ (cnvId +:+ labelDescId)) ;;
          on_node p (fun h => insertAdjacentHTML h afterend (label_table_markup cnvId))
      | Some _ => ret tt
      end
  end.

(** What is known of a run [new] of new nodes placed below an element of
    depth [k0]: the fixed ids it holds, no row, unused node identities from
    [n] on, and the right depths. *)
Record fragment (c : string) (k0 : nat) (n m : nat) (new : list elem) (cs : list nat) : Prop := {
  fr_census : census c new = cs;
  fr_norows : Forall (fun e => is_frow c e = false /\ is_lrow c e = false) new;
  fr_handles : Forall (fun e => n <= node e < n + m) new;
  fr_nodup : NoDup (List.map node new);
  fr_below : Forall (fun e => k0 < depth e) new;
  fr_depth : Forall (fun e => depth_ok c k0 e = true) new
}.

(** A step of the page from [tl] to [tl']: the nodes that the store refers
    to stay, the numbers of nodes with the ids of the two containers,
    paragraphs and tables grow by the given amounts, and the rows stay as
    they are. *)
Record grows (c : string) (ds : descriptions) (tl tl' : list elem)
    (dD dP dT dLC dLP dLT : nat) : Prop := {
  gr_keeps : keeps ds tl tl';
  gr_D : cnt (idD c) tl' = cnt (idD c) tl + dD;
  gr_P : cnt (idP c) tl' = cnt (idP c) tl + dP;
  gr_T : cnt (idT c) tl' = cnt (idT c) tl + dT;
  gr_LC : cnt (idLC c) tl' = cnt (idLC c) tl + dLC;
  gr_LP : cnt (idLP c) tl' = cnt (idLP c) tl + dLP;
  gr_LT : cnt (idLT c) tl' = cnt (idLT c) tl + dLT;
  gr_frows : forall k, cnt (idR c k) tl' = cnt (idR c k) tl;
  gr_lrows : forall k, cnt (idLR c k) tl' = cnt (idLR c k) tl
}.

(** The parts of the two operations: what each does for the fallback
    region and for the label region, once the arguments are normalised and
    the parent of the canvas is located. *)
Definition init_descriptions : M unit :=
  modify (fun st => match descs st with
                    | None => set_descs (Some no_descriptions) st
                    | Some _ => st
                    end).

Definition init_fallbackElements : M unit :=
  modify (fun st => match descs st with
                    | None => set_descs (Some (set_fallbackElements (Some ∅) no_descriptions)) st
                    | Some ds =>
                        match fallbackElements ds with
                        | None => set_descs (Some (set_fallbackElements (Some ∅) ds)) st
                        | Some _ => st
                        end
                    end).

Definition init_labelElements : M unit :=
  modify (fun st => match labelElements (the_descs st) with
                    | None => set_descs (Some (set_labelElements (Some ∅) (the_descs st))) st
                    | Some _ => st
                    end).

Definition describe_fallback (cnvId text : string) (ds : descriptions) : M unit :=
  match fallback ds with
  | Some h => refresh h text
  | None =>
      dd <- gets dummyDOM ;;
      results <- _describeFallbackHTML dd cnvId ;;
      n <- result_node results ;;
      update_descs (set_fallback n) ;;;
      dd' <- result_dummyDOM results ;;
      modify (set_dummyDOM dd') ;;;
      write_ref n text
  end.

Definition describe_label (cnvId text : string) (ds : descriptions) : M unit :=
  match label ds with
  | Some h => refresh h text
  | None =>
      dd <- gets dummyDOM ;;
      results <- _describeLabelHTML dd cnvId ;;
      n <- result_node results ;;
      update_descs (set_label n) ;;;
      dd' <- result_dummyDOM results ;;
      modify (set_dummyDOM dd') ;;;
      write_ref n text
  end.

Definition describeElement_fallback (cnvId name inner : string) (ds : descriptions) : M unit :=
  let rows := default ∅ (fallbackElements ds) in
  match obj_get rows name with
  | PNode h => refresh h inner
  | PInherited => ret tt
  | PNull | PUndefined =>
      dd <- gets dummyDOM ;;
      results <- _descElementFallbackHTML dd cnvId name ;;
      n <- result_node results ;;
      update_descs (set_fallbackElements (Some (<[name := n]> rows))) ;;;
      dd' <- result_dummyDOM results ;;
      modify (set_dummyDOM dd') ;;;
      write_ref n inner
  end.

Definition describeElement_label (cnvId name inner : string) (ds : descriptions) : M unit :=
  let rows := default ∅ (labelElements ds) in
  match obj_get rows name with
  | PNode h => refresh h inner
  | PInherited => ret tt
  | PNull | PUndefined =>
      dd <- gets dummyDOM ;;
      results <- _descElementLabelHTML dd cnvId name ;;
      n <- result_node results ;;
      update_descs (set_labelElements (Some (<[name := n]> rows))) ;;;
      dd' <- result_dummyDOM results ;;
      modify (set_dummyDOM dd') ;;;
      write_ref n inner
  end.

(** Every node of [tl], other than [h], is in [tl'] as it was, content
    included. *)
Definition extends_but (h : handle) (tl tl' : list elem) : Prop :=
  forall (q : elem -> bool) h0, h0 <> h -> hasP q h0 tl = true -> hasP q h0 tl' = true.

(** Every node of [tl] is in [tl'] as it was. *)
Definition extends (tl tl' : list elem) : Prop :=
  forall (q : elem -> bool) h0, hasP q h0 tl = true -> hasP q h0 tl' = true.

(** The node [h] of [tl] shows the content [s]. *)
Definition shows (tl : list elem) (h : handle) (s : string) : Prop :=
  hasP (fun e => String.eqb (html e) s) h tl = true.

(** ** Further vocabulary *)

(** The display argument of a call. *)
Definition call_display (cl : call) : jsval :=
  match cl with
  | Describe _ display => display
  | DescribeElement _ _ display => display
  end.

(** A computation that leaves [this.descriptions] and [this.dummyDOM] as
    they are, whatever its outcome. *)
Definition dom_only {A} (m : M A) : Prop :=
  forall st, descs (snd (m st)) = descs st /\ dummyDOM (snd (m st)) = dummyDOM st.

(** A scaffold helper that, when it returns a pair, returns the root [dd]
    as its second component. *)
Definition gives_root (dd : option handle) (m : M results) : Prop :=
  forall st res, fst (m st) = Normal res -> res = None \/ exists n, res = Some (n, dd).

(** Every reference to a node that the store [ds] holds is held by [ds']
    under the same name. *)
Definition refs_kept (ds ds' : descriptions) : Prop :=
  (forall h, fallback ds = Some h -> fallback ds' = Some h) /\
  (forall h, label ds = Some h -> label ds' = Some h) /\
  (forall k h, fmap ds !! k = Some (Some h) -> fmap ds' !! k = Some (Some h)) /\
  (forall k h, lmap ds !! k = Some (Some h) -> lmap ds' !! k = Some (Some h)).

(** A computation under which the store keeps its references. *)
Definition keeps_refs {A} (m : M A) : Prop :=
  forall st, refs_kept (the_descs st) (the_descs (snd (m st))).

(** A computation that leaves the component [g] of the store as it is. *)
Definition keeps_field {A X} (g : descriptions -> X) (m : M A) : Prop :=
  forall st, g (the_descs (snd (m st))) = g (the_descs st).

(** A computation that leaves [this.dummyDOM] as it is once it is set. *)
Definition keeps_root {A} (m : M A) : Prop :=
  forall st x, dummyDOM st = Some x -> dummyDOM (snd (m st)) = Some x.

(** ** The calls covered by the page model

    [html] keeps what is assigned to [innerHTML] as the string that was
    written, and a query looks at the elements of the list only. This is
    the page that the browser builds when the strings written hold no
    markup: a string of printable ASCII characters other than [<], [>] and
    [&] is parsed into text only, and is read back from [innerHTML] as it
    was written (no tag, no character reference, no escaped character, no
    normalised line break). The cells [th] and [td] that the content of a
    row is parsed into carry no id; they answer a query only when the
    selector built from a key ends in the type selector [td] or [th].
    The theorems about pages are therefore stated for calls whose strings
    are plain and whose keys have no such word. *)
Definition plain_char (a : ascii) : bool :=
  (32 <=? nat_of_ascii a)%nat && (nat_of_ascii a <=? 126)%nat &&
  negb (Ascii.eqb a "<") && negb (Ascii.eqb a ">") && negb (Ascii.eqb a "&").

Definition plain_text (s : string) : bool := all_chars plain_char s.

Definition is_cell_tag (w : string) : bool :=
  String.eqb (to_lower w) "td" || String.eqb (to_lower w) "th".

(** No word of the key is the name of a cell. *)
Definition cell_free (k : string) : bool :=
  forallb (fun w => negb (is_cell_tag w)) (tokens k).

Definition plain_arg (v : jsval) : bool :=
  match v with
  | VString s => plain_text s
  | _ => true
  end.

Definition plain_call (cl : call) : bool :=
  match cl with
  | Describe text _ => plain_arg text
  | DescribeElement name text _ =>
      plain_arg name && plain_arg text &&
      match name with
      | VString n => cell_free (sanitize n)
      | _ => true
      end
  end.

Definition plain_calls (cs : list call) : Prop :=
  Forall (fun cl => plain_call cl = true) cs.

(** * Properties *)

(** ** Text normalisation *)

Lemma endsWith_app_last (p : string) (c c' : ascii) :
  endsWith (p +:+ String c EmptyString) c' = Ascii.eqb c c'.
Proof.
  induction p as [|a p IH]; simpl; [reflexivity|].
  rewrite <- IH. destruct p; reflexivity.
Qed.

Lemma endsWith_true (s : string) (c : ascii) :
  endsWith s c = true <-> ends_with s c.
Proof.
  split.
  - induction s as [|a s IH]; simpl; [discriminate|].
    destruct s as [|b s].
    + intros H. apply Ascii.eqb_eq in H. subst. exists EmptyString. reflexivity.
    + intros H. destruct (IH H) as [p Hp]. exists (String a p). simpl. now rewrite Hp.
  - intros [p ->]. rewrite endsWith_app_last. apply Ascii.eqb_refl.
Qed.

Lemma endsWith_false (s : string) (c : ascii) :
  endsWith s c = false <-> ~ ends_with s c.
Proof.
  rewrite <- endsWith_true. destruct (endsWith s c); split; congruence.
Qed.

Lemma replace_last_app (p r : string) (c : ascii) :
  is_line_terminator c = false ->
  replace_last (p +:+ String c EmptyString) r = p +:+ r.
Proof.
  intros Hc. induction p as [|a p IH]; simpl.
  - now rewrite Hc.
  - rewrite IH. destruct p; reflexivity.
Qed.

Lemma reserved_true (s : string) :
  reserved s = true <-> s = "label" \/ s = "fallback".
Proof.
  unfold reserved. rewrite orb_true_iff, !String.eqb_eq. reflexivity.
Qed.

Lemma reserved_endsWith (s : string) (c : ascii) :
  reserved s = true -> endsWith s c = true -> c = "l"%char \/ c = "k"%char.
Proof.
  intros H. apply reserved_true in H as [-> | ->]; intros E.
  - change (Ascii.eqb "l" c = true) in E. apply Ascii.eqb_eq in E; auto.
  - change (Ascii.eqb "k" c = true) in E. apply Ascii.eqb_eq in E; auto.
Qed.

Lemma not_reserved_ending (s : string) (c : ascii) :
  endsWith s c = true -> c <> "l"%char -> c <> "k"%char -> reserved s = false.
Proof.
  intros E Hl Hk. destruct (reserved s) eqn:R; [|reflexivity].
  destruct (reserved_endsWith s c R E); contradiction.
Qed.

Example descriptionText_plain : _descriptionText "Blue square" = Normal "Blue square.".
Proof. reflexivity. Qed.
Example elementName_comma : _elementName "Circle," = Normal "Circle:".
Proof. reflexivity. Qed.
Example sanitize_sun : sanitize "Sun!" = "Sun" /\ sanitize "Sun?" = "Sun".
Proof. split; reflexivity. Qed.

Lemma descriptionText_cases (text : string) :
  reserved text = false ->
  _descriptionText text =
    Normal (if existsb (endsWith text) description_stops then text else text +:+ ".").
Proof.
  intros R. unfold _descriptionText. rewrite R. simpl.
  destruct (endsWith text "."), (endsWith text ";"), (endsWith text ","),
    (endsWith text "?"), (endsWith text "!"); reflexivity.
Qed.

Lemma existsb_endsWith (s : string) (l : list ascii) :
  existsb (endsWith s) l = true <-> exists c, In c l /\ ends_with s c.
Proof.
  rewrite existsb_exists. split; intros (c & Hc & H); exists c; split; auto;
    now apply endsWith_true.
Qed.

(** C8: a description that is not reserved is returned unchanged when it
    ends with one of [. ; , ? !], and with a full stop appended otherwise. *)
Theorem normalizeDescription_spec (text : string) :
  reserved text = false ->
  ((exists c, In c description_stops /\ ends_with text c) ->
     _descriptionText text = Normal text) /\
  ((forall c, In c description_stops -> ~ ends_with text c) ->
     _descriptionText text = Normal (text +:+ ".")) /\
  _descriptionText "Blue square" = Normal "Blue square." /\
  _descriptionText "Blue square!" = Normal "Blue square!".
Proof.
  intros R. rewrite (descriptionText_cases text R). repeat split.
  - intros H. apply existsb_endsWith in H. now rewrite H.
  - intros H. destruct (existsb (endsWith text) description_stops) eqn:E; [|reflexivity].
    apply existsb_endsWith in E as (c & Hc & Hs). destruct (H c Hc Hs).
Qed.

Lemma normalizeDescription_spec_witness :
  reserved "Blue square" = false /\
  _descriptionText "Blue square" = Normal "Blue square.".
Proof.
  split; [reflexivity|].
  exact (proj1 (proj2 (proj2 (normalizeDescription_spec "Blue square" eq_refl)))).
Defined.

Lemma name_stop_not_terminator (c : ascii) :
  In c name_stops -> is_line_terminator c = false.
Proof. simpl. intros [<- | [<- | [<- | []]]]; reflexivity. Qed.

Lemma name_stops_none (name : string) :
  (forall c, In c name_stops -> ~ ends_with name c) ->
  endsWith name "." || endsWith name ";" || endsWith name "," = false.
Proof.
  intros H.
  assert (E : existsb (endsWith name) name_stops = false).
  { destruct (existsb (endsWith name) name_stops) eqn:E; [|reflexivity].
    apply existsb_endsWith in E as (c & Hin & Hs). destruct (H c Hin Hs). }
  simpl in E. now rewrite orb_false_r, orb_assoc in E.
Qed.

(** C9: an element name that is not reserved has its last character
    replaced by a colon when that character is one of [. ; ,]; otherwise a
    colon is appended unless the name already ends with one. *)
Theorem normalizeElementName_spec (name : string) :
  reserved name = false ->
  (forall p c, name = p +:+ String c EmptyString -> In c name_stops ->
     _elementName name = Normal (p +:+ ":")) /\
  ((forall c, In c name_stops -> ~ ends_with name c) ->
     (ends_with name ":" -> _elementName name = Normal name) /\
     (~ ends_with name ":" -> _elementName name = Normal (name +:+ ":"))) /\
  _elementName "Circle" = Normal "Circle:" /\
  _elementName "Circle," = Normal "Circle:".
Proof.
  intros R. unfold _elementName. rewrite R. split; [|split; [|split; reflexivity]].
  - intros p c -> Hc.
    assert (E : existsb (endsWith (p +:+ String c EmptyString)) name_stops = true).
    { apply existsb_endsWith. exists c. split; [assumption|]. now exists p. }
    simpl in E. rewrite orb_false_r, orb_assoc in E. rewrite E.
    now rewrite replace_last_app by now apply name_stop_not_terminator.
  - intros H. rewrite (name_stops_none name H). split; intros Hc.
    + apply endsWith_true in Hc. now rewrite Hc.
    + apply endsWith_false in Hc. now rewrite Hc.
Qed.

Lemma normalizeElementName_spec_witness :
  reserved "Circle," = false /\ _elementName "Circle," = Normal "Circle:".
Proof.
  split; [reflexivity|].
  apply (proj1 (normalizeElementName_spec "Circle," eq_refl) "Circle" ","%char).
  - reflexivity.
  - simpl. auto.
Defined.

Lemma descriptionText_idempotent (s s' : string) :
  _descriptionText s = Normal s' -> _descriptionText s' = Normal s'.
Proof.
  unfold _descriptionText at 1. destruct (reserved s) eqn:R; [discriminate|].
  destruct (negb (endsWith s ".") && negb (endsWith s ";") && negb (endsWith s ",") &&
            negb (endsWith s "?") && negb (endsWith s "!")) eqn:E;
    intros [= <-].
  - unfold _descriptionText.
    rewrite (not_reserved_ending (s +:+ ".") "."%char) by
      (try apply (endsWith_app_last s "." "."); discriminate).
    change (s +:+ ".") with (s +:+ String "."%char EmptyString).
    now rewrite (endsWith_app_last s "." ".").
  - unfold _descriptionText. now rewrite R, E.
Qed.

Lemma elementName_ends_colon (s s' : string) :
  _elementName s = Normal s' -> exists p, s' = p +:+ ":".
Proof.
  unfold _elementName. destruct (reserved s); [discriminate|].
  destruct (endsWith s "." || endsWith s ";" || endsWith s ",") eqn:E.
  - intros [= <-].
    assert (Hex : existsb (endsWith s) name_stops = true).
    { simpl. now rewrite orb_false_r, orb_assoc. }
    apply existsb_endsWith in Hex as (c & Hc & p & ->).
    exists p. now apply replace_last_app, name_stop_not_terminator.
  - destruct (endsWith s ":") eqn:C; intros [= <-].
    + now apply endsWith_true in C.
    + now exists s.
Qed.

Lemma elementName_idempotent (s s' : string) :
  _elementName s = Normal s' -> _elementName s' = Normal s'.
Proof.
  intros H. destruct (elementName_ends_colon s s' H) as [p ->].
  unfold _elementName.
  rewrite (not_reserved_ending (p +:+ ":") ":"%char) by
    (try apply (endsWith_app_last p ":" ":"); discriminate).
  change (p +:+ ":") with (p +:+ String ":"%char EmptyString).
  now rewrite !endsWith_app_last.
Qed.

(** C10: both normalisers are idempotent: when one succeeds on a string, it
    succeeds on its own output and returns that output unchanged. *)
Theorem normalizers_idempotent :
  (forall s s', _descriptionText s = Normal s' -> _descriptionText s' = Normal s') /\
  (forall s s', _elementName s = Normal s' -> _elementName s' = Normal s').
Proof.
  split; [exact descriptionText_idempotent | exact elementName_idempotent].
Qed.

Lemma normalizers_idempotent_witness :
  _descriptionText "Blue square." = Normal "Blue square." /\
  _elementName "Circle:" = Normal "Circle:".
Proof.
  split.
  - apply (proj1 normalizers_idempotent "Blue square"). reflexivity.
  - apply (proj2 normalizers_idempotent "Circle,"). reflexivity.
Defined.

(** ** Which calls raise [Error]

    [quiet m]: the computation [m] never throws an [Error] object, whatever
    else it does. Only the two normalisers throw one. *)

Lemma quiet_ret {A} (a : A) : quiet (ret a).
Proof. intros st msg. discriminate. Qed.

Lemma quiet_throw_type {A} : quiet (@throw A TypeError).
Proof. intros st msg. discriminate. Qed.

Lemma quiet_bind {A B} (m : M A) (k : A -> M B) :
  quiet m -> (forall a, quiet (k a)) -> quiet (bind m k).
Proof.
  intros Hm Hk st msg. unfold bind. specialize (Hm st msg).
  destruct (m st) as [[a | e] st']; simpl in *.
  - apply Hk.
  - intros [= ->]. now apply Hm.
Qed.

Lemma quiet_gets {A} (f : sketch -> A) : quiet (gets f).
Proof. intros st msg. discriminate. Qed.

Lemma quiet_modify (f : sketch -> sketch) : quiet (modify f).
Proof. intros st msg. discriminate. Qed.

Lemma parse_selector_quiet (s : string) (msg : string) :
  parse_selector s <> Throw (Error msg).
Proof.
  unfold parse_selector. destruct (tokens s) as [|t0 ts]; [discriminate|].
  destruct t0 as [|a x]; [discriminate|].
  repeat match goal with
         | |- context [match ?b with _ => _ end] => destruct b; try discriminate
         end.
Qed.

Lemma quiet_qs (ctx : option handle) (sel : string) : quiet (qs ctx sel).
Proof.
  intros st msg. destruct ctx as [c|]; simpl; [|discriminate].
  unfold querySelector. pose proof (parse_selector_quiet sel msg) as H.
  destruct (parse_selector sel); [discriminate|]. congruence.
Qed.

Lemma quiet_insertAdjacentHTML h pos frag : quiet (insertAdjacentHTML h pos frag).
Proof.
  intros st msg. unfold insertAdjacentHTML.
  destruct (insert_adjacent _ _ _ _ _); discriminate.
Qed.

Lemma quiet_set_innerHTML_markup h frag : quiet (set_innerHTML_markup h frag).
Proof. intros st msg. discriminate. Qed.

Lemma quiet_createElement t : quiet (createElement t).
Proof. intros st msg. discriminate. Qed.

Lemma quiet_appendChild h c : quiet (appendChild h c).
Proof. intros st msg. discriminate. Qed.

Lemma quiet_on_node {A} (r : option elem) (k : handle -> M A) :
  (forall h, quiet (k h)) -> quiet (on_node r k).
Proof. intros H. destruct r; simpl; [apply H | apply quiet_throw_type]. Qed.

Lemma quiet_refresh h s : quiet (refresh h s).
Proof. intros st msg. unfold refresh. destruct (bool_decide _); discriminate. Qed.

Lemma quiet_write_ref r s : quiet (write_ref r s).
Proof. destruct r; simpl; [apply quiet_modify | apply quiet_throw_type]. Qed.

Lemma quiet_update_descs f : quiet (update_descs f).
Proof. intros st msg. unfold update_descs. destruct (descs st); discriminate. Qed.

Lemma quiet_locate_dummyDOM cnvId : quiet (locate_dummyDOM cnvId).
Proof.
  intros st msg. unfold locate_dummyDOM.
  destruct (dummyDOM st); [discriminate|].
  destruct (getElementById _ _); discriminate.
Qed.

Lemma quiet_result_node r : quiet (result_node r).
Proof. destruct r as [[n dd]|]; simpl; [apply quiet_ret | apply quiet_throw_type]. Qed.

Lemma quiet_result_dummyDOM r : quiet (result_dummyDOM r).
Proof. destruct r as [[n dd]|]; simpl; [apply quiet_ret | apply quiet_throw_type]. Qed.

Create HintDb quiet.
#[export] Hint Resolve quiet_ret quiet_throw_type quiet_gets quiet_modify quiet_qs
  quiet_insertAdjacentHTML quiet_set_innerHTML_markup quiet_createElement
  quiet_appendChild quiet_refresh quiet_write_ref quiet_update_descs
  quiet_locate_dummyDOM quiet_result_node quiet_result_dummyDOM : quiet.

Ltac quiet_step :=
  match goal with
  | |- quiet (bind _ _) => apply quiet_bind; [|intros ?]
  | |- quiet (on_node _ _) => apply quiet_on_node; intros ?
  | |- quiet (match ?x with _ => _ end) => destruct x
  | |- quiet _ => solve [auto with quiet]
  end.

Lemma quiet_describeFallbackHTML dd cnvId : quiet (_describeFallbackHTML dd cnvId).
Proof. unfold _describeFallbackHTML. repeat quiet_step. Qed.

Lemma quiet_describeLabelHTML dd cnvId : quiet (_describeLabelHTML dd cnvId).
Proof. unfold _describeLabelHTML. repeat quiet_step. Qed.

Lemma quiet_descElementFallbackHTML dd cnvId name :
  quiet (_descElementFallbackHTML dd cnvId name).
Proof. unfold _descElementFallbackHTML. repeat quiet_step. Qed.

Lemma quiet_descElementLabelHTML dd cnvId name :
  quiet (_descElementLabelHTML dd cnvId name).
Proof. unfold _descElementLabelHTML. repeat quiet_step. Qed.

#[export] Hint Resolve quiet_describeFallbackHTML quiet_describeLabelHTML
  quiet_descElementFallbackHTML quiet_descElementLabelHTML : quiet.

Lemma descriptionText_error (t : string) :
  (exists msg, _descriptionText t = Throw (Error msg)) <-> reserved t = true.
Proof.
  unfold _descriptionText. destruct (reserved t).
  - split; eauto.
  - split; [|discriminate]. intros [msg H]. destruct (_ && _) in H; discriminate.
Qed.

Lemma elementName_error (n : string) :
  (exists msg, _elementName n = Throw (Error msg)) <-> reserved n = true.
Proof.
  unfold _elementName. destruct (reserved n).
  - split; eauto.
  - split; [|discriminate]. intros [msg H].
    destruct (_ || _) in H; [discriminate|]. destruct (negb _) in H; discriminate.
Qed.

(** A computation that starts with a normaliser throws an [Error] exactly
    when the normaliser does, and then leaves the state alone. *)
Lemma bind_lift_error {A B} (c : completion A) (k : A -> M B) (st : sketch) :
  (forall a, quiet (k a)) ->
  ((exists msg, fst (bind (lift c) k st) = Throw (Error msg)) <->
   (exists msg, c = Throw (Error msg))) /\
  (forall msg, fst (bind (lift c) k st) = Throw (Error msg) -> snd (bind (lift c) k st) = st).
Proof.
  intros Hk. unfold bind, lift. destruct c as [a | e]; simpl.
  - split; [split|].
    + intros [msg H]. destruct (Hk a st msg H).
    + intros [msg H]. discriminate.
    + intros msg H. destruct (Hk a st msg H).
  - split; [split|]; auto.
    + intros [msg [= ->]]. eauto.
    + intros [msg [= ->]]. eauto.
Qed.

Ltac quiet_all := intros; repeat quiet_step.

Lemma describe_rest_quiet cnvId LABEL (t : string) (display : jsval) :
  exists k, (forall a, quiet (k a)) /\
    describe cnvId LABEL (VString t) display = bind (lift (_descriptionText t)) k.
Proof.
  eexists. split; [|reflexivity]. simpl. quiet_all.
Qed.

Lemma describeElement_rest_quiet cnvId LABEL (n t : string) (display : jsval) :
  exists k, (forall a b, quiet (k a b)) /\
    describeElement cnvId LABEL (VString n) (VString t) display =
      bind (lift (_descriptionText t)) (fun a => bind (lift (_elementName n)) (k a)).
Proof.
  eexists (fun a b => _). split; [|reflexivity]. simpl. quiet_all.
Qed.

Lemma reserved_arg_string (s : string) : reserved_arg (VString s) <-> reserved s = true.
Proof.
  rewrite reserved_true. unfold reserved_arg. split; intros [H | H]; auto;
    (left; congruence) || (right; congruence).
Qed.

Lemma describe_error cnvId LABEL (text display : jsval) (st : sketch) :
  ((exists msg, fst (describe cnvId LABEL text display st) = Throw (Error msg)) <->
   reserved_arg text) /\
  (forall msg, fst (describe cnvId LABEL text display st) = Throw (Error msg) ->
     snd (describe cnvId LABEL text display st) = st).
Proof.
  destruct text as [| |b|z|t];
    try (split; [split; [intros [msg H]; discriminate
                        | intros [H | H]; discriminate]
                |intros msg H; reflexivity]).
  destruct (describe_rest_quiet cnvId LABEL t display) as (k & Hk & ->).
  destruct (bind_lift_error (_descriptionText t) k st Hk) as [H1 H2].
  split; [|exact H2].
  rewrite H1, descriptionText_error. symmetry. apply reserved_arg_string.
Qed.

Lemma descriptionText_result (t : string) :
  (reserved t = true /\ exists msg, _descriptionText t = Throw (Error msg)) \/
  (reserved t = false /\ exists t', _descriptionText t = Normal t').
Proof.
  unfold _descriptionText. destruct (reserved t); [left; eauto|right].
  split; [reflexivity|]. destruct (_ && _); eauto.
Qed.

Lemma elementName_result (n : string) :
  (reserved n = true /\ exists msg, _elementName n = Throw (Error msg)) \/
  (reserved n = false /\ exists n', _elementName n = Normal n').
Proof.
  unfold _elementName. destruct (reserved n); [left; eauto|right].
  split; [reflexivity|]. destruct (_ || _); [eauto|]. destruct (negb _); eauto.
Qed.

Lemma describeElement_error cnvId LABEL (name text display : jsval) (st : sketch) :
  ((exists msg, fst (describeElement cnvId LABEL name text display st) = Throw (Error msg)) <->
   is_string name /\ is_string text /\ (reserved_arg text \/ reserved_arg name)) /\
  (forall msg, fst (describeElement cnvId LABEL name text display st) = Throw (Error msg) ->
     snd (describeElement cnvId LABEL name text display st) = st).
Proof.
  assert (Hns : forall v, (forall s, v <> VString s) -> ~ is_string v).
  { intros v H [s Hs]. exact (H s Hs). }
  destruct text as [| |b|z|t];
    try (split; [split; [intros [msg H]; discriminate
                        | intros (_ & H & _); exfalso; revert H; apply Hns; discriminate]
                |intros msg H; reflexivity]).
  destruct name as [| |b|z|n];
    try (split; [split; [intros [msg H]; discriminate
                        | intros (H & _); exfalso; revert H; apply Hns; discriminate]
                |intros msg H; reflexivity]).
  destruct (describeElement_rest_quiet cnvId LABEL n t display) as (k & Hk & ->).
  rewrite !reserved_arg_string. unfold bind, lift.
  destruct (descriptionText_result t) as [(Rt & m1 & ->) | (Rt & t' & ->)].
  { simpl. split; [|reflexivity]. split; [|eauto].
    intros _. split; [now exists n|]. split; [now exists t|]. now left. }
  destruct (elementName_result n) as [(Rn & m2 & ->) | (Rn & n' & ->)].
  { simpl. split; [|reflexivity]. split; [|eauto].
    intros _. split; [now exists n|]. split; [now exists t|]. now right. }
  split.
  - split.
    + intros [msg H]. destruct (Hk t' n' st msg H).
    + intros (_ & _ & [H | H]); congruence.
  - intros msg H. destruct (Hk t' n' st msg H).
Qed.

(** C5, as the code has it: [describe] raises the reserved-value [Error]
    exactly when its text is one of the two keywords; [describeElement]
    raises it exactly when both its name and its text are strings and one of
    them is a keyword. A call that raises it leaves the DOM and the store as
    they were. *)
Theorem reserved_value_error cnvId LABEL (display : jsval) (st : sketch) :
  (forall text,
     ((exists msg, fst (describe cnvId LABEL text display st) = Throw (Error msg)) <->
      reserved_arg text) /\
     (forall msg, fst (describe cnvId LABEL text display st) = Throw (Error msg) ->
        snd (describe cnvId LABEL text display st) = st)) /\
  (forall name text,
     ((exists msg, fst (describeElement cnvId LABEL name text display st) = Throw (Error msg)) <->
      is_string name /\ is_string text /\ (reserved_arg text \/ reserved_arg name)) /\
     (forall msg, fst (describeElement cnvId LABEL name text display st) = Throw (Error msg) ->
        snd (describeElement cnvId LABEL name text display st) = st)).
Proof.
  split; intros; [apply describe_error | apply describeElement_error].
Qed.

Lemma reserved_value_error_witness :
  snd (describe "c" (VString "label") (VString "label") VUndefined sketch0) = sketch0.
Proof.
  apply (proj2 (proj1 (reserved_value_error "c" (VString "label") VUndefined sketch0)
                  (VString "label")) "description should not be LABEL or FALLBACK").
  reflexivity.
Defined.

(** C5 as stated fails: the name is a keyword, the text is not a string, and
    the call returns without raising anything. *)
Lemma reserved_name_not_raised :
  let r := describeElement "c" (VString "label") (VString "label") (VNumber 5)
             VUndefined sketch0 in
  r = (Normal tt, sketch0) /\
  ~ ((exists msg, fst r = Throw (Error msg)) <->
     (reserved_arg (VNumber 5) \/ reserved_arg (VString "label"))).
Proof.
  split; [reflexivity|].
  intros [_ H]. destruct H as [msg H]; [right; now left | discriminate].
Qed.

(** ** A canvas that cannot be found *)

(** C1, as the code has it: when [this.dummyDOM] is not yet set and no
    element has the canvas id, a call whose arguments are strings other than
    the keywords raises a [TypeError]; whatever the arguments, nothing is
    cached and the DOM and the store stay as they were. *)
Theorem detached_canvas_raises cnvId LABEL (st : sketch) :
  dummyDOM st = None ->
  getElementById (dom st) cnvId = None ->
  (forall t display, reserved t = false ->
     describe cnvId LABEL (VString t) display st = (Throw TypeError, st)) /\
  (forall n t display, reserved n = false -> reserved t = false ->
     describeElement cnvId LABEL (VString n) (VString t) display st = (Throw TypeError, st)) /\
  (forall text display, snd (describe cnvId LABEL text display st) = st) /\
  (forall name text display, snd (describeElement cnvId LABEL name text display st) = st).
Proof.
  intros Hd Hc.
  assert (L : locate_dummyDOM cnvId st = (Throw TypeError, st)).
  { unfold locate_dummyDOM. now rewrite Hd, Hc. }
  assert (D : forall t display,
             describe cnvId LABEL (VString t) display st =
             match _descriptionText t with
             | Normal _ => (Throw TypeError, st)
             | Throw e => (Throw e, st)
             end).
  { intros t display. unfold describe, bind at 1, lift.
    destruct (_descriptionText t); [|reflexivity].
    unfold bind at 1. now rewrite L. }
  assert (E : forall n t display,
             describeElement cnvId LABEL (VString n) (VString t) display st =
             match _descriptionText t, _elementName n with
             | Normal _, Normal _ => (Throw TypeError, st)
             | Normal _, Throw e => (Throw e, st)
             | Throw e, _ => (Throw e, st)
             end).
  { intros n t display. unfold describeElement, bind at 1, lift.
    destruct (_descriptionText t); [|reflexivity].
    unfold bind at 1. destruct (_elementName n); [|reflexivity].
    unfold bind at 1. now rewrite L. }
  repeat split.
  - intros t display R. rewrite D.
    destruct (descriptionText_result t) as [(R' & _) | (_ & t' & ->)]; [congruence|reflexivity].
  - intros n t display Rn Rt. rewrite E.
    destruct (descriptionText_result t) as [(R' & _) | (_ & t' & ->)]; [congruence|].
    destruct (elementName_result n) as [(R' & _) | (_ & n' & ->)]; [congruence|reflexivity].
  - intros text display. destruct text; try reflexivity. rewrite D.
    now destruct (_descriptionText s).
  - intros name text display. destruct text; try reflexivity.
    destruct name; try reflexivity. rewrite E.
    destruct (_descriptionText s); [|reflexivity]. now destruct (_elementName s0).
Qed.

Lemma detached_canvas_raises_witness :
  describe "c" (VString "label") (VString "Red circle") VUndefined detached_sketch
    = (Throw TypeError, detached_sketch).
Proof.
  apply (proj1 (detached_canvas_raises "c" (VString "label") detached_sketch
                  eq_refl eq_refl)).
  reflexivity.
Defined.

(** C1 as stated fails: no element has the canvas id, and the call raises a
    [TypeError] instead of returning. *)
Lemma detached_canvas_not_silent :
  getElementById (dom detached_sketch) "c" = None /\
  fst (describe "c" (VString "label") (VString "Red circle") VUndefined detached_sketch)
    = Throw TypeError /\
  fst (describeElement "c" (VString "label") (VString "Sun") (VString "yellow")
         VUndefined detached_sketch)
    = Throw TypeError.
Proof. repeat split. Qed.

(** ** Names that keep a space *)

Example describe_once :
  let r := describe "c" label_const (VString "Red circle") VUndefined sketch0 in
  fst r = Normal tt /\
  List.map eid (dom (snd r)) = ["" ; ""; "c"; "c_Description"; "c_fallbackDesc"] /\
  get_html (dom (snd r)) 4 = Some "Red circle." /\
  fallback (the_descs (snd r)) = Some 4.
Proof. vm_compute. repeat split. Qed.

(** C2: for the name ["my sun"], which is not reserved, the key keeps the
    space; [describeElement] appends a row with the id of the key to the
    table, the query for that id finds no node though the row is on the
    page, a null reference is stored, and the call raises a [TypeError]. *)
Theorem space_key_row_not_found :
  let r := describeElement "c" label_const (VString "my sun") (VString "a star") VUndefined
             sketch0 in
  reserved "my sun" = false /\
  sanitize "my sun" = "my sun" /\
  fst r = Throw TypeError /\
  getElementById (dom (snd r)) (idR "c" "my sun")
    = Some (Elem 6 5 "tr" "c_fte_my sun" [] "") /\
  dummyDOM (snd r) = Some 1 /\
  querySelector (dom (snd r)) 1 ("#" +:+ idR "c" "my sun") = Normal None /\
  fallback_slot (snd r) "my sun" = PNull.
Proof. vm_compute. repeat split. Qed.

(** C3: a second call with the name ["my sun"] finds the null reference
    in the store, builds a second row with the same id and raises again;
    two calls of [describe] with the same text leave one paragraph. *)
Theorem space_key_rows_repeat :
  let r1 := describeElement "c" label_const (VString "my sun") (VString "a star") VUndefined
              sketch0 in
  let r2 := describeElement "c" label_const (VString "my sun") (VString "a star") VUndefined
              (snd r1) in
  let d1 := describe "c" label_const (VString "Red circle") VUndefined sketch0 in
  let d2 := describe "c" label_const (VString "Red circle") VUndefined (snd d1) in
  fst r1 = Throw TypeError /\ fst r2 = Throw TypeError /\
  cnt (idR "c" "my sun") (dom (snd r1)) = 1 /\
  fallback_slot (snd r1) "my sun" = PNull /\
  cnt (idR "c" "my sun") (dom (snd r2)) = 2 /\
  fallback_slot (snd r2) "my sun" = PNull /\
  fst d1 = Normal tt /\ fst d2 = Normal tt /\
  cnt (idP "c") (dom (snd d2)) = 1 /\
  get_html (dom (snd d2)) 4 = Some "Red circle.".
Proof. vm_compute. repeat split. Qed.

(** ** Lists of elements *)

Ltac conj := repeat match goal with |- _ /\ _ => split end.

Lemma cnt_app x l1 l2 : cnt x (l1 ++ l2) = cnt x l1 + cnt x l2.
Proof. induction l1 as [|e l1 IH]; simpl; [reflexivity|]. rewrite IH. lia. Qed.

Lemma cnt_zero_Forall x l : cnt x l = 0 <-> Forall (fun e => eidb x e = false) l.
Proof.
  induction l as [|e l IH]; simpl.
  - split; auto.
  - rewrite Forall_cons, <- IH. destruct (eidb x e); split; try lia; intuition congruence.
Qed.

Lemma find_id_none x l : find_id x l = None <-> cnt x l = 0.
Proof.
  unfold find_id. induction l as [|e l IH]; simpl; [tauto|].
  destruct (eidb x e); [split; [discriminate | lia]|]. exact IH.
Qed.

Lemma find_id_split x l e :
  find_id x l = Some e ->
  exists a b, l = a ++ e :: b /\ cnt x a = 0 /\ eid e = x.
Proof.
  unfold find_id. induction l as [|e0 l IH]; simpl; [discriminate|].
  destruct (eidb x e0) eqn:E.
  - intros [= ->]. exists [], l. repeat split. now apply String.eqb_eq in E.
  - intros H. destruct (IH H) as (a & b & -> & Ha & He).
    exists (e0 :: a), b. simpl. rewrite E. auto.
Qed.

Lemma find_id_some x l : 1 <= cnt x l -> exists e, find_id x l = Some e.
Proof.
  intros H. destruct (find_id x l) eqn:E; [eauto|].
  apply find_id_none in E. lia.
Qed.

Lemma eidb_eq x e : eidb x e = true <-> eid e = x.
Proof. apply String.eqb_eq. Qed.

Lemma eidb_same e : eidb (eid e) e = true.
Proof. apply String.eqb_refl. Qed.

Lemma hasP_app p h l1 l2 : hasP p h (l1 ++ l2) = hasP p h l1 || hasP p h l2.
Proof. apply existsb_app. Qed.

Lemma hasP_true p h l :
  hasP p h l = true <-> exists e, In e l /\ node e = h /\ p e = true.
Proof.
  unfold hasP. rewrite existsb_exists. split; intros (e & Hin & H); exists e.
  - apply andb_true_iff in H as [H1 H2]. apply Nat.eqb_eq in H1. auto.
  - destruct H as [H1 H2]. rewrite H2, andb_true_r. split; [assumption|].
    now apply Nat.eqb_eq.
Qed.

Lemma ordered_app x y l1 l2 :
  ordered x y (l1 ++ l2) <->
  ordered x y l1 /\ ordered x y l2 /\ (cnt y l1 = 0 \/ cnt x l2 = 0).
Proof.
  induction l1 as [|e l1 IH]; simpl.
  - tauto.
  - rewrite IH, cnt_app. destruct (eidb y e); simpl.
    + split.
      * intros (H1 & H2 & H3 & H4). specialize (H1 eq_refl).
        split; [split; [intros _; lia | assumption]|]. split; [assumption|]. right. lia.
      * intros ((H1 & H2) & H3 & [H4 | H4]); [lia|]. specialize (H1 eq_refl).
        split; [intros _; lia|]. auto.
    + split.
      * intros (H1 & H2 & H3 & H4). split; [split; [discriminate | assumption]|]. auto.
      * intros ((H1 & H2) & H3 & H4). split; [discriminate|]. auto.
Qed.

Lemma ordered_none_x x y l : cnt x l = 0 -> ordered x y l.
Proof.
  induction l as [|e l IH]; simpl; [auto|].
  intros H. split; [intros _; lia | apply IH; lia].
Qed.

Lemma ordered_none_y x y l : cnt y l = 0 -> ordered x y l.
Proof.
  induction l as [|e l IH]; simpl; [auto|].
  destruct (eidb y e); [intros H; lia|]. intros H. split; [discriminate | now apply IH].
Qed.

Lemma cnt_pos_lookup x l : 1 <= cnt x l <-> exists i e, l !! i = Some e /\ eid e = x.
Proof.
  induction l as [|e0 l IH]; simpl.
  - split; [lia | intros (i & e & H & _); destruct i; discriminate].
  - destruct (eidb x e0) eqn:E.
    + split; [intros _ | lia]. exists 0, e0. split; [reflexivity | now apply eidb_eq].
    + simpl. rewrite IH. split.
      * intros (i & e & H & He). exists (S i), e. auto.
      * intros (i & e & H & He). destruct i as [|i]; simpl in H.
        -- injection H as ->. apply eidb_eq in He. congruence.
        -- eauto.
Qed.

Lemma ordered_precedes x y l : x <> y -> ordered x y l -> precedes x y l.
Proof.
  intros Hxy. induction l as [|e l IH]; simpl.
  - intros _ i j ex ey H. destruct i; discriminate.
  - intros [H1 H2] i j ex ey Hi Hj Hx Hy.
    destruct j as [|j]; simpl in Hj.
    + injection Hj as ->. destruct i as [|i]; simpl in Hi.
      * injection Hi as ->. congruence.
      * exfalso. assert (1 <= cnt x l) by (apply cnt_pos_lookup; eauto).
        rewrite H1 in H; [lia | now apply eidb_eq].
    + destruct i as [|i]; [lia|]. simpl in Hi.
      specialize (IH H2 i j ex ey Hi Hj Hx Hy). lia.
Qed.

(** *** Writing content keeps the structure *)

Lemma structural_eidb x : structural (eidb x).
Proof. intros e s. reflexivity. Qed.

Lemma map_set_html {A} (f : elem -> A) h s l :
  structural f -> List.map f (set_html h s l) = List.map f l.
Proof.
  intros Hf. induction l as [|e l IH]; simpl; [reflexivity|].
  destruct (Nat.eqb (node e) h); simpl; [now rewrite Hf | now rewrite IH].
Qed.

Lemma cnt_set_html x h s l : cnt x (set_html h s l) = cnt x l.
Proof.
  induction l as [|e l IH]; simpl; [reflexivity|].
  destruct (Nat.eqb (node e) h); simpl; [reflexivity | now rewrite IH].
Qed.

Lemma ordered_set_html x y h s l : ordered x y (set_html h s l) <-> ordered x y l.
Proof.
  induction l as [|e l IH]; simpl; [tauto|].
  destruct (Nat.eqb (node e) h); simpl; [tauto|].
  now rewrite IH, cnt_set_html.
Qed.

Lemma Forall_set_html (P : elem -> Prop) h s l :
  (forall e s, P e -> P (with_html s e)) -> Forall P l -> Forall P (set_html h s l).
Proof.
  intros HP. induction 1 as [|e l He Hl IH]; simpl; [constructor|].
  destruct (Nat.eqb (node e) h); constructor; auto.
Qed.

Lemma hasP_set_html p h' h s l :
  structural p -> hasP p h' (set_html h s l) = hasP p h' l.
Proof.
  intros Hp. unfold hasP. induction l as [|e l IH]; simpl; [reflexivity|].
  destruct (Nat.eqb (node e) h); simpl; [now rewrite Hp | now rewrite IH].
Qed.

Lemma set_html_app h s l1 l2 :
  set_html h s (l1 ++ l2) =
  if existsb (fun e => Nat.eqb (node e) h) l1 then set_html h s l1 ++ l2
  else l1 ++ set_html h s l2.
Proof.
  induction l1 as [|e l1 IH]; simpl; [reflexivity|].
  destruct (Nat.eqb (node e) h); simpl; [reflexivity|].
  rewrite IH. now destruct (existsb _ l1).
Qed.

Lemma get_html_set_html_same h s l :
  hasP (fun _ => true) h l = true -> get_html (set_html h s l) h = Some s.
Proof.
  unfold hasP, get_html. induction l as [|e l IH]; simpl; [discriminate|].
  destruct (Nat.eqb (node e) h) eqn:E; simpl.
  - intros _. now rewrite E.
  - intros H. rewrite E. now apply IH.
Qed.

Lemma get_html_set_html_other h h' s l :
  h <> h' -> get_html (set_html h s l) h' = get_html l h'.
Proof.
  intros Hne. unfold get_html. induction l as [|e l IH]; simpl; [reflexivity|].
  destruct (Nat.eqb (node e) h) eqn:E; simpl.
  - apply Nat.eqb_eq in E. destruct (Nat.eqb (node e) h') eqn:E'; [|reflexivity].
    apply Nat.eqb_eq in E'. congruence.
  - destruct (Nat.eqb (node e) h'); [reflexivity | exact IH].
Qed.

(** Writing the content that is already there changes nothing. *)
Lemma set_html_same h s l :
  NoDup (List.map node l) -> get_html l h = Some s -> set_html h s l = l.
Proof.
  unfold get_html. induction l as [|e l IH]; simpl; [reflexivity|].
  intros Hnd. destruct (Nat.eqb (node e) h) eqn:E; simpl.
  - intros [= <-]. now destruct e.
  - intros H. f_equal. apply IH; [|assumption]. now inversion Hnd.
Qed.

(** *** Splitting at a node *)

Lemma split_at_app h a e b :
  ~ In h (List.map node a) -> node e = h -> split_at h (a ++ e :: b) = Some (a, e, b).
Proof.
  intros Ha He. induction a as [|x a IH]; simpl.
  - rewrite He, Nat.eqb_refl. reflexivity.
  - simpl in Ha. destruct (Nat.eqb (node x) h) eqn:E.
    + apply Nat.eqb_eq in E. tauto.
    + rewrite IH by tauto. reflexivity.
Qed.

Lemma split_at_none h l : ~ In h (List.map node l) -> split_at h l = None.
Proof.
  induction l as [|x l IH]; simpl; [reflexivity|]. intros H.
  destruct (Nat.eqb (node x) h) eqn:E.
  - apply Nat.eqb_eq in E. tauto.
  - rewrite IH by tauto. reflexivity.
Qed.

Lemma subtree_split_eq k l s r :
  subtree_split k l = (s, r) -> l = s ++ r /\ Forall (fun e => k < depth e) s.
Proof.
  revert s r. induction l as [|e l IH]; simpl; intros s r.
  - intros [= <- <-]. auto.
  - destruct (k <? depth e) eqn:E.
    + destruct (subtree_split k l) as [s' r'] eqn:S. intros [= <- <-].
      destruct (IH s' r' eq_refl) as [-> H]. split; [reflexivity|].
      constructor; [now apply Nat.ltb_lt | assumption].
    + intros [= <- <-]. auto.
Qed.

(** The subtree of an element stops where the enclosing subtree stops. *)
Lemma subtree_split_app k l post :
  match post with [] => True | p :: _ => depth p <= k end ->
  subtree_split k (l ++ post) =
  (fst (subtree_split k l), snd (subtree_split k l) ++ post).
Proof.
  intros Hpost. induction l as [|e l IH]; simpl.
  - destruct post as [|p post]; [reflexivity|]. simpl.
    destruct (k <? depth p) eqn:E; [|reflexivity]. apply Nat.ltb_lt in E. lia.
  - destruct (k <? depth e); [|reflexivity].
    rewrite IH. now destruct (subtree_split k l).
Qed.

(** ** Queries below the parent of the canvas *)

Lemma pop_to_suffix k stack : exists top, stack = top ++ pop_to k stack.
Proof.
  induction stack as [|a stack [top IH]]; simpl.
  - now exists [].
  - destruct (depth a <? k).
    + now exists [].
    + exists (a :: top). simpl. now rewrite <- IH.
Qed.

Lemma pop_to_In k stack a : In a (pop_to k stack) -> In a stack.
Proof.
  destruct (pop_to_suffix k stack) as [top H]. intros Ha. rewrite H.
  apply in_or_app. now right.
Qed.

Lemma ctx_absent (c : handle) (stack : list elem) :
  (forall a, In a stack -> node a <> c) ->
  existsb (fun a => Nat.eqb (node a) c) stack = false.
Proof.
  intros H. destruct (existsb _ stack) eqn:E; [|reflexivity].
  apply existsb_exists in E as (a & Ha & E). apply Nat.eqb_eq in E.
  destruct (H a Ha E).
Qed.

(** Nothing is found where the context node is neither open nor ahead. *)
Lemma qs_scan_outside sels c stack l :
  (forall a, In a stack -> node a <> c) ->
  (forall e, In e l -> node e <> c) ->
  qs_scan sels c stack l = None.
Proof.
  revert stack. induction l as [|e l IH]; intros stack Hs Hl; simpl; [reflexivity|].
  rewrite ctx_absent by (intros a Ha; apply Hs; eapply pop_to_In; eauto).
  simpl. apply IH.
  - intros a [<- | Ha]; [apply Hl; now left | apply Hs; eapply pop_to_In; eauto].
  - intros x Hx. apply Hl. now right.
Qed.

(** The elements before the context node are passed over. *)
Lemma qs_scan_before sels c stack pre l :
  (forall a, In a stack -> node a <> c) ->
  (forall e, In e pre -> node e <> c) ->
  exists stack', (forall a, In a stack' -> node a <> c) /\
    qs_scan sels c stack (pre ++ l) = qs_scan sels c stack' l.
Proof.
  revert stack. induction pre as [|e pre IH]; intros stack Hs Hp; simpl.
  - now exists stack.
  - rewrite ctx_absent by (intros a Ha; apply Hs; eapply pop_to_In; eauto).
    simpl. apply IH.
    + intros a [<- | Ha]; [apply Hp; now left | apply Hs; eapply pop_to_In; eauto].
    + intros x Hx. apply Hp. now right.
Qed.

(** While the scan is inside the subtree of [r], [r] stays open. *)
Lemma pop_to_keeps k (s : list elem) (r : elem) base :
  depth r < k ->
  exists s', pop_to k (s ++ r :: base) = s' ++ r :: base /\
             forall P : elem -> Prop, Forall P s -> Forall P s'.
Proof.
  intros Hk. induction s as [|a s (s' & IH & HP)]; simpl.
  - apply Nat.ltb_lt in Hk. rewrite Hk. now exists [].
  - destruct (depth a <? k).
    + now exists (a :: s).
    + exists s'. split; [assumption|]. intros P H. apply HP. now inversion H.
Qed.

Lemma pop_to_drops k (s : list elem) (r : elem) base :
  Forall (fun a => depth r < depth a) s -> depth r >= k ->
  pop_to k (s ++ r :: base) = pop_to k base.
Proof.
  intros Hs Hk. induction Hs as [|a s Ha Hs IH]; simpl.
  - destruct (depth r <? k) eqn:E; [|reflexivity]. apply Nat.ltb_lt in E. lia.
  - destruct (depth a <? k) eqn:E; [|exact IH]. apply Nat.ltb_lt in E. lia.
Qed.

Lemma pop_to_Forall (P : elem -> Prop) k stack :
  Forall P stack -> Forall P (pop_to k stack).
Proof.
  intros H. destruct (pop_to_suffix k stack) as [top E]. rewrite E in H.
  now apply Forall_app in H as [_ H].
Qed.

Lemma ctx_present (r : elem) (s base : list elem) :
  existsb (fun a => Nat.eqb (node a) (node r)) (s ++ r :: base) = true.
Proof.
  rewrite existsb_app. simpl. rewrite Nat.eqb_refl. simpl. apply orb_true_r.
Qed.

(** An id selector inside the subtree of [r]: the first element with that
    id, or the scan goes on behind the subtree. *)
Lemma qs_scan_inside_id x (r : elem) s base tl post :
  Forall (fun e => depth r < depth e) s ->
  Forall (fun e => depth r < depth e) tl ->
  match find_id x tl with
  | Some e => qs_scan [SId x] (node r) (s ++ r :: base) (tl ++ post) = Some e
  | None => exists s', Forall (fun e => depth r < depth e) s' /\
      qs_scan [SId x] (node r) (s ++ r :: base) (tl ++ post) =
      qs_scan [SId x] (node r) (s' ++ r :: base) post
  end.
Proof.
  intros Hs Htl. revert s Hs. unfold find_id.
  induction Htl as [|e tl He Htl IH]; intros s Hs; simpl.
  - now exists s.
  - destruct (pop_to_keeps (depth e) s r base He) as (s' & E & HP).
    rewrite E, ctx_present.
    change (String.eqb (eid e) x) with (eidb x e).
    assert (M : matches_ancestors (s' ++ r :: base) [] = true)
      by now destruct (s' ++ r :: base).
    rewrite M, andb_true_r. simpl.
    destruct (eidb x e); [reflexivity|].
    change (e :: s' ++ r :: base) with ((e :: s') ++ r :: base).
    apply IH. constructor; [assumption | now apply HP].
Qed.

(** Behind the subtree of [r] nothing is found. *)
Lemma qs_scan_behind sels (r : elem) s base post :
  Forall (fun e => depth r < depth e) s ->
  (forall a, In a base -> node a <> node r) ->
  (forall e, In e post -> node e <> node r) ->
  match post with [] => True | p :: _ => depth p <= depth r end ->
  qs_scan sels (node r) (s ++ r :: base) post = None.
Proof.
  intros Hs Hb Hp Hd. destruct post as [|p post]; simpl; [reflexivity|].
  rewrite pop_to_drops by (assumption || lia).
  rewrite ctx_absent by (intros a Ha; apply Hb; eapply pop_to_In; eauto).
  simpl. apply qs_scan_outside.
  - intros a [<- | Ha]; [apply Hp; now left | apply Hb; eapply pop_to_In; eauto].
  - intros x Hx. apply Hp. now right.
Qed.

Lemma framed_not_ctx pre r tl post :
  framed pre r tl post ->
  (forall e, In e pre -> node e <> node r) /\
  (forall e, In e post -> node e <> node r).
Proof.
  intros (Hnd & _ & _). rewrite map_app in Hnd. apply NoDup_app in Hnd as (_ & H1 & H2).
  simpl in H1, H2. split.
  - intros e He Heq. apply (H1 (node e)).
    + apply list_elem_of_In. now apply in_map.
    + rewrite Heq. left.
  - intros e He Heq. apply NoDup_cons in H2 as [H2 _]. apply H2.
    rewrite <- Heq. apply list_elem_of_In. rewrite map_app. apply in_or_app. right.
    now apply in_map.
Qed.

(** [r.querySelector] with an id selector looks through the subtree of [r]. *)
Lemma qs_scan_framed x pre r tl post :
  framed pre r tl post ->
  qs_scan [SId x] (node r) [] (pre ++ r :: tl ++ post) = find_id x tl.
Proof.
  intros Hf. destruct (framed_not_ctx _ _ _ _ Hf) as [Hpre Hpost].
  destruct Hf as (Hnd & Htl & Hd).
  destruct (qs_scan_before [SId x] (node r) [] pre (r :: tl ++ post)) as (st & Hst & ->);
    [intros a [] | assumption |].
  simpl. rewrite ctx_absent by (intros a Ha; apply Hst; eapply pop_to_In; eauto).
  simpl.
  pose proof (qs_scan_inside_id x r [] (pop_to (depth r) st) tl post
                (List.Forall_nil _) Htl) as H.
  simpl in H. destruct (find_id x tl) as [e|]; [exact H|].
  destruct H as (s' & Hs' & ->).
  apply qs_scan_behind; try assumption.
  intros a Ha. apply Hst. eapply pop_to_In; eauto.
Qed.

(** *** Any selector: where the result lies and what is above it *)

Lemma pop_to_nested k stack :
  nested stack -> nested (pop_to k stack) /\ Forall (fun a => depth a < k) (pop_to k stack).
Proof.
  induction stack as [|a stack IH]; simpl; [auto|].
  intros [Ha Hs]. destruct (depth a <? k) eqn:E.
  - apply Nat.ltb_lt in E. simpl. split; [auto|].
    constructor; [assumption|]. eapply Forall_impl; [exact Ha|]. simpl. lia.
  - now apply IH.
Qed.

(** A result of the scan is an element of the list; the selector matches
    it against ancestors that are above it and that the scan has passed. *)
Lemma qs_scan_some sels ctx stack l e :
  nested stack ->
  qs_scan sels ctx stack l = Some e ->
  exists l1 l2 anc, l = l1 ++ e :: l2 /\
    matches_complex sels e anc = true /\
    Forall (fun a => depth a < depth e) anc /\
    (forall a, In a anc -> In a stack \/ In a l1).
Proof.
  revert stack. induction l as [|x l IH]; intros stack Hn; simpl; [discriminate|].
  destruct (pop_to_nested (depth x) stack Hn) as [Hn' Hb].
  destruct (existsb _ _ && matches_complex sels x (pop_to (depth x) stack)) eqn:E.
  - intros [= <-]. apply andb_true_iff in E as [_ E].
    exists [], l, (pop_to (depth x) stack). conj; auto.
    intros a Ha. left. eapply pop_to_In; eauto.
  - intros H. destruct (IH (x :: pop_to (depth x) stack)) as (l1 & l2 & anc & -> & M & D & A);
      [simpl; auto | assumption |].
    exists (x :: l1), l2, anc. conj; auto.
    intros a Ha. destruct (A a Ha) as [[<- | Hs] | Hl].
    + right. now left.
    + left. eapply pop_to_In; eauto.
    + right. now right.
Qed.

Lemma matches_ancestors_last anc ss s :
  matches_ancestors anc (ss ++ [s]) = true ->
  exists a, In a anc /\ matches_simple s a = true.
Proof.
  revert ss. induction anc as [|a anc IH]; intros ss; simpl.
  - destruct ss; simpl; discriminate.
  - destruct ss as [|s0 ss]; simpl.
    + destruct (matches_simple s a) eqn:E.
      * intros _. exists a. auto.
      * intros H. destruct (IH [] H) as (b & Hb & Mb). exists b. auto.
    + destruct (matches_simple s0 a).
      * intros H. destruct (IH ss H) as (b & Hb & Mb). exists b. auto.
      * intros H. destruct (IH (s0 :: ss) H) as (b & Hb & Mb). exists b. auto.
Qed.

(** Inside the subtree of [r]: a result is in the subtree, or the scan goes
    on behind it. *)
Lemma qs_scan_inside sels (r : elem) s base tl post e :
  Forall (fun x => depth r < depth x) s ->
  Forall (fun x => depth r < depth x) tl ->
  qs_scan sels (node r) (s ++ r :: base) (tl ++ post) = Some e ->
  In e tl \/
  exists s', Forall (fun x => depth r < depth x) s' /\
    qs_scan sels (node r) (s' ++ r :: base) post = Some e.
Proof.
  intros Hs Htl. revert s Hs. induction Htl as [|x tl Hx Htl IH]; intros s Hs; simpl.
  - intros H. right. now exists s.
  - destruct (pop_to_keeps (depth x) s r base Hx) as (s' & E & HP). rewrite E.
    destruct (existsb _ _ && matches_complex sels x (s' ++ r :: base)).
    + intros [= <-]. left. now left.
    + change (x :: s' ++ r :: base) with ((x :: s') ++ r :: base). intros H.
      destruct (IH (x :: s')) as [Hin | Hr]; auto.
Qed.

Lemma qs_scan_framed_in sels pre r tl post e :
  framed pre r tl post ->
  qs_scan sels (node r) [] (pre ++ r :: tl ++ post) = Some e -> In e tl.
Proof.
  intros Hf H. destruct (framed_not_ctx _ _ _ _ Hf) as [Hpre Hpost].
  destruct Hf as (Hnd & Htl & Hd).
  destruct (qs_scan_before sels (node r) [] pre (r :: tl ++ post)) as (st & Hst & E);
    [intros a [] | assumption |].
  rewrite E in H. simpl in H.
  rewrite ctx_absent in H by (intros a Ha; apply Hst; eapply pop_to_In; eauto).
  simpl in H.
  destruct (qs_scan_inside sels r [] (pop_to (depth r) st) tl post e (List.Forall_nil _) Htl H)
    as [Hin | (s' & Hs' & Hr)]; [assumption|].
  rewrite qs_scan_behind in Hr; [discriminate | assumption | | assumption | assumption].
  intros a Ha. apply Hst. eapply pop_to_In; eauto.
Qed.

(** ** Identifiers built from the canvas id *)

Lemma eqb_app_l (c s t : string) : String.eqb (c +:+ s) (c +:+ t) = String.eqb s t.
Proof.
  induction c as [|a c IH]; simpl; [reflexivity|]. now rewrite Ascii.eqb_refl.
Qed.

Lemma eqb_app_self (c : string) (a : ascii) (s : string) :
  String.eqb (c +:+ String a s) c = false.
Proof.
  induction c as [|b c IH]; simpl; [reflexivity|]. now rewrite Ascii.eqb_refl.
Qed.

Lemma eqb_self_app (c : string) (a : ascii) (s : string) :
  String.eqb c (c +:+ String a s) = false.
Proof. rewrite String.eqb_sym. apply eqb_app_self. Qed.

Lemma prefix_app_l (c s t : string) : String.prefix (c +:+ s) (c +:+ t) = String.prefix s t.
Proof.
  induction c as [|a c IH]; simpl; [reflexivity|].
  destruct (ascii_dec a a); [exact IH | congruence].
Qed.

Lemma prefix_app_self (c : string) (a : ascii) (s : string) :
  String.prefix (c +:+ String a s) c = false.
Proof.
  induction c as [|b c IH]; simpl; [reflexivity|].
  destruct (ascii_dec b b); [exact IH | congruence].
Qed.

Lemma eqb_empty_app (c : string) (a : ascii) (s : string) :
  String.eqb "" (c +:+ String a s) = false.
Proof. now destruct c. Qed.

Lemma prefix_app_empty (c : string) (a : ascii) (s : string) :
  String.prefix (c +:+ String a s) "" = false.
Proof. now destruct c. Qed.

Lemma eqb_app_self' (c : string) (a : ascii) (s t : string) :
  String.eqb (c +:+ (String a s +:+ t)) c = false.
Proof. exact (eqb_app_self c a (s +:+ t)). Qed.

Lemma eqb_self_app' (c : string) (a : ascii) (s t : string) :
  String.eqb c (c +:+ (String a s +:+ t)) = false.
Proof. exact (eqb_self_app c a (s +:+ t)). Qed.

Lemma prefix_app_self' (c : string) (a : ascii) (s t : string) :
  String.prefix (c +:+ (String a s +:+ t)) c = false.
Proof. exact (prefix_app_self c a (s +:+ t)). Qed.

Lemma eqb_empty_app' (c : string) (a : ascii) (s t : string) :
  String.eqb "" (c +:+ (String a s +:+ t)) = false.
Proof. exact (eqb_empty_app c a (s +:+ t)). Qed.

Lemma append_nil_l (s : string) : "" +:+ s = s.
Proof. reflexivity. Qed.

Lemma prefix_nil_l (s : string) : String.prefix "" s = true.
Proof. now destruct s. Qed.

Lemma eqb_prefix (s t : string) : String.eqb t s = true -> String.prefix s t = true.
Proof.
  intros H. apply String.eqb_eq in H. subst. induction s as [|a s IH]; simpl; [reflexivity|].
  destruct (ascii_dec a a); [exact IH | congruence].
Qed.

Lemma all_chars_app f (s t : string) :
  all_chars f (s +:+ t) = all_chars f s && all_chars f t.
Proof.
  induction s as [|a s IH]; simpl; [reflexivity|]. now rewrite IH, andb_assoc.
Qed.

Lemma is_ident_app (c s : string) :
  is_ident c = true -> all_chars is_name_char s = true -> is_ident (c +:+ s) = true.
Proof.
  intros Hc Hs. destruct c as [|a c]; simpl in *; [discriminate|].
  destruct (is_name_start a).
  - now rewrite all_chars_app, Hc, Hs.
  - destruct (Ascii.eqb a "-"); [|discriminate].
    destruct c as [|b c]; simpl in *; [discriminate|].
    apply andb_true_iff in Hc as [H1 H2]. now rewrite H1, all_chars_app, H2, Hs.
Qed.

Lemma is_ident_name_chars (c : string) : is_ident c = true -> all_chars is_name_char c = true.
Proof.
  destruct c as [|a c]; simpl; [discriminate|].
  unfold is_name_start, is_name_char, is_alnum.
  destruct (is_lower a), (is_upper a), (is_digit a), (Ascii.eqb a "_") eqn:E1,
    (Ascii.eqb a "-") eqn:E2; simpl; try tauto; try discriminate.
  all: destruct c as [|b c]; simpl; try discriminate.
  all: unfold is_name_start, is_name_char, is_alnum.
  all: destruct (is_lower b), (is_upper b), (is_digit b), (Ascii.eqb b "_"),
         (Ascii.eqb b "-"); simpl; try tauto; try discriminate.
Qed.

Lemma name_char_not_space (a : ascii) : is_name_char a = true -> Ascii.eqb a " " = false.
Proof.
  destruct (Ascii.eqb a " ") eqn:E; [|reflexivity].
  apply Ascii.eqb_eq in E. subst. discriminate.
Qed.

Lemma words_no_space (s : string) :
  all_chars is_name_char s = true -> words s = (s, []).
Proof.
  induction s as [|a s IH]; simpl; [reflexivity|].
  intros H. apply andb_true_iff in H as [Ha Hs].
  rewrite (IH Hs), (name_char_not_space a Ha). reflexivity.
Qed.

(** An id selector for an identifier parses as itself. *)
Lemma parse_selector_id (x : string) :
  is_ident x = true -> parse_selector ("#" +:+ x) = Normal [SId x].
Proof.
  intros Hx. unfold parse_selector, tokens.
  change ("#" +:+ x) with (String "#" x). cbn [words].
  rewrite (words_no_space x (is_ident_name_chars x Hx)).
  change (Ascii.eqb "#" " ") with false. cbv iota beta.
  unfold cons_nonempty. change (String.eqb (String "#" x) "") with false.
  cbv iota. now rewrite Hx.
Qed.

(** ** The DOM operations inside the frame *)

Ltac list_norm := repeat (rewrite <- ?app_assoc, <- ?app_comm_cons; simpl).

Lemma querySelector_framed x pre r tl post :
  framed pre r tl post -> is_ident x = true ->
  querySelector (pre ++ r :: tl ++ post) (node r) ("#" +:+ x) = Normal (find_id x tl).
Proof.
  intros Hf Hx. unfold querySelector. rewrite (parse_selector_id x Hx). simpl.
  now rewrite (qs_scan_framed x pre r tl post Hf).
Qed.

Lemma qs_framed st x pre r tl post :
  dom st = pre ++ r :: tl ++ post -> framed pre r tl post -> is_ident x = true ->
  qs (Some (node r)) ("#" +:+ x) st = (Normal (find_id x tl), st).
Proof.
  intros Hd Hf Hx. unfold qs. now rewrite Hd, querySelector_framed.
Qed.

Lemma framed_split pre r a e b post :
  framed pre r (a ++ e :: b) post ->
  split_at (node e) (pre ++ r :: (a ++ e :: b) ++ post) = Some (pre ++ r :: a, e, b ++ post).
Proof.
  intros (Hnd & _ & _).
  replace (pre ++ r :: (a ++ e :: b) ++ post) with ((pre ++ r :: a) ++ e :: (b ++ post))
    by now list_norm.
  apply split_at_app; [|reflexivity].
  replace (pre ++ r :: (a ++ e :: b) ++ post) with ((pre ++ r :: a) ++ e :: (b ++ post))
    in Hnd by now list_norm.
  rewrite map_app in Hnd. apply NoDup_app in Hnd as (_ & H & _).
  intros Hin. apply (H (node e)).
  - now apply list_elem_of_In.
  - simpl. left.
Qed.

Lemma framed_depth pre r a e b post :
  framed pre r (a ++ e :: b) post -> depth r < depth e.
Proof.
  intros (_ & H & _). apply Forall_app in H as [_ H]. now inversion H.
Qed.

Lemma framed_subtree pre r a e b post :
  framed pre r (a ++ e :: b) post ->
  exists sub rest, b = sub ++ rest /\ Forall (fun x => depth e < depth x) sub /\
    subtree_split (depth e) (b ++ post) = (sub, rest ++ post).
Proof.
  intros Hf. pose proof (framed_depth _ _ _ _ _ _ Hf) as Hd.
  destruct Hf as (_ & _ & Hp).
  destruct (subtree_split (depth e) b) as [sub rest] eqn:E.
  destruct (subtree_split_eq _ _ _ _ E) as [-> Hs].
  exists sub, rest. repeat split; [assumption|].
  rewrite subtree_split_app, E; [reflexivity|].
  destruct post as [|p post]; [exact I | lia].
Qed.

Lemma insert_before_framed pre r a e b post n frag :
  framed pre r (a ++ e :: b) post ->
  insert_adjacent (node e) beforebegin n frag (pre ++ r :: (a ++ e :: b) ++ post) =
  Some (pre ++ r :: (a ++ place (depth e) n frag ++ e :: b) ++ post).
Proof.
  intros Hf. unfold insert_adjacent. rewrite (framed_split _ _ _ _ _ _ Hf).
  f_equal. now list_norm.
Qed.

Lemma insert_after_framed pre r a e b post n frag :
  framed pre r (a ++ e :: b) post ->
  exists sub rest, b = sub ++ rest /\ Forall (fun x => depth e < depth x) sub /\
    insert_adjacent (node e) afterend n frag (pre ++ r :: (a ++ e :: b) ++ post) =
    Some (pre ++ r :: (a ++ e :: sub ++ place (depth e) n frag ++ rest) ++ post).
Proof.
  intros Hf. destruct (framed_subtree _ _ _ _ _ _ Hf) as (sub & rest & Hb & Hs & E).
  exists sub, rest. split; [assumption|]. split; [assumption|].
  unfold insert_adjacent. rewrite (framed_split _ _ _ _ _ _ Hf), E.
  f_equal. now list_norm.
Qed.

Lemma replace_children_framed pre r a e b post n frag :
  framed pre r (a ++ e :: b) post ->
  exists sub rest, b = sub ++ rest /\ Forall (fun x => depth e < depth x) sub /\
    replace_children (node e) n frag (pre ++ r :: (a ++ e :: b) ++ post) =
    pre ++ r :: (a ++ e :: place (S (depth e)) n frag ++ rest) ++ post.
Proof.
  intros Hf. destruct (framed_subtree _ _ _ _ _ _ Hf) as (sub & rest & Hb & Hs & E).
  exists sub, rest. split; [assumption|]. split; [assumption|].
  unfold replace_children. rewrite (framed_split _ _ _ _ _ _ Hf), E.
  now list_norm.
Qed.

Lemma append_child_framed pre r a e b post c :
  framed pre r (a ++ e :: b) post ->
  exists sub rest, b = sub ++ rest /\ Forall (fun x => depth e < depth x) sub /\
    append_child (node e) c (pre ++ r :: (a ++ e :: b) ++ post) =
    pre ++ r :: (a ++ e :: sub ++ with_depth (S (depth e)) c :: rest) ++ post.
Proof.
  intros Hf. destruct (framed_subtree _ _ _ _ _ _ Hf) as (sub & rest & Hb & Hs & E).
  exists sub, rest. split; [assumption|]. split; [assumption|].
  unfold append_child. rewrite (framed_split _ _ _ _ _ _ Hf), E.
  now list_norm.
Qed.

(** *** Locating the parent of the canvas *)

Lemma parent_scan_before h stack pre l :
  (forall e, In e pre -> node e <> h) ->
  exists stack', parent_scan h stack (pre ++ l) = parent_scan h stack' l.
Proof.
  revert stack. induction pre as [|e pre IH]; intros stack Hp; simpl.
  - now exists stack.
  - destruct (Nat.eqb (node e) h) eqn:E.
    + apply Nat.eqb_eq in E. destruct (Hp e (or_introl eq_refl) E).
    + apply IH. intros x Hx. apply Hp. now right.
Qed.

Lemma pop_to_child (r : elem) s base :
  Forall (fun a => depth r < depth a) s ->
  pop_to (S (depth r)) (s ++ r :: base) = r :: base.
Proof.
  induction 1 as [|a s Ha Hs IH]; simpl.
  - assert (E : (depth r <? S (depth r)) = true) by (apply Nat.ltb_lt; lia).
    now rewrite E.
  - destruct (depth a <? S (depth r)) eqn:E; [|exact IH].
    apply Nat.ltb_lt in E. lia.
Qed.

Lemma parent_scan_inside (r c : elem) s base a rest :
  Forall (fun x => depth r < depth x) s ->
  Forall (fun x => depth r < depth x) a ->
  (forall e, In e a -> node e <> node c) ->
  depth c = S (depth r) ->
  parent_scan (node c) (s ++ r :: base) (a ++ c :: rest) = Some (node r).
Proof.
  intros Hs Ha. revert s Hs. induction Ha as [|e a He Ha IH]; intros s Hs Hn Hc; simpl.
  - rewrite Nat.eqb_refl, Hc, pop_to_child by assumption. reflexivity.
  - destruct (Nat.eqb (node e) (node c)) eqn:E.
    + apply Nat.eqb_eq in E. destruct (Hn e (or_introl eq_refl) E).
    + destruct (pop_to_keeps (depth e) s r base He) as (s' & -> & HP).
      change (e :: s' ++ r :: base) with ((e :: s') ++ r :: base).
      apply IH; [|intros x Hx; apply Hn; now right | assumption].
      constructor; [assumption | now apply HP].
Qed.

Lemma parentNode_framed pre r a c b post :
  framed pre r (a ++ c :: b) post ->
  depth c = S (depth r) ->
  parentNode (pre ++ r :: (a ++ c :: b) ++ post) (node c) = Some (node r).
Proof.
  intros Hf Hc. pose proof Hf as (Hnd & Htl & _).
  assert (Hn : forall e, In e (pre ++ r :: a) -> node e <> node c).
  { replace (pre ++ r :: (a ++ c :: b) ++ post) with ((pre ++ r :: a) ++ c :: (b ++ post))
      in Hnd by now list_norm.
    rewrite map_app in Hnd. apply NoDup_app in Hnd as (_ & H & _).
    intros e He Heq. apply (H (node e)).
    - apply list_elem_of_In. now apply in_map.
    - rewrite Heq. simpl. left. }
  unfold parentNode.
  destruct (parent_scan_before (node c) [] pre (r :: (a ++ c :: b) ++ post)) as [st ->].
  { intros e He. apply Hn. apply in_or_app. now left. }
  simpl. destruct (Nat.eqb (node r) (node c)) eqn:E.
  { apply Nat.eqb_eq in E. exfalso. apply (Hn r); [|assumption].
    apply in_or_app. right. now left. }
  rewrite <- app_assoc. simpl.
  apply (parent_scan_inside r c [] (pop_to (depth r) st) a (b ++ post)).
  - constructor.
  - now apply Forall_app in Htl as [Htl _].
  - intros e He. apply Hn. apply in_or_app. right. now right.
  - assumption.
Qed.

Lemma find_id_app x l1 l2 :
  find_id x (l1 ++ l2) = match find_id x l1 with Some e => Some e | None => find_id x l2 end.
Proof.
  unfold find_id. induction l1 as [|e l1 IH]; simpl; [reflexivity|].
  now destruct (eidb x e).
Qed.

Lemma getElementById_framed x pre r tl post :
  x <> "" -> cnt x pre = 0 -> eidb x r = false ->
  1 <= cnt x tl ->
  getElementById (pre ++ r :: tl ++ post) x = find_id x tl.
Proof.
  intros Hx Hp Hr Ht. unfold getElementById.
  destruct (String.eqb x "") eqn:E; [apply String.eqb_eq in E; contradiction|].
  apply find_id_none in Hp. change (find_id x (pre ++ r :: tl ++ post) = find_id x tl).
  rewrite find_id_app, Hp.
  change (find_id x (r :: tl ++ post)) with
    (if eidb x r then Some r else find_id x (tl ++ post)).
  rewrite Hr, find_id_app.
  destruct (find_id_some x tl Ht) as [e He]. now rewrite He.
Qed.

(** ** The ids of the module *)

Ltac unfold_ids :=
  unfold is_module_elem, is_fallback_elem, is_label_elem, is_output_elem,
    is_frow, is_lrow, eidb,
    descContainer, fallbackDescId, fallbackTableId, fallbackTableElId,
    labelContainer, labelDescId, labelTableId, labelTableElId in *.

Ltac rewrite_ids :=
  rewrite ?eqb_app_l, ?eqb_app_self, ?eqb_self_app, ?prefix_app_l, ?prefix_app_self,
    ?eqb_empty_app, ?prefix_app_empty, ?eqb_app_self', ?eqb_self_app', ?prefix_app_self',
    ?eqb_empty_app', ?String.eqb_refl.

(** Decide the comparisons between ids built from the same canvas id. *)
Ltac ids :=
  unfold_ids; cbn [eid depth node tag html attrs]; rewrite_ids; simpl;
  rewrite ?append_nil_l, ?prefix_nil_l.

Lemma row_is_frow c k e : eidb (idR c k) e = true -> is_frow c e = true.
Proof.
  intros H. apply eidb_eq in H. unfold is_frow. rewrite H. now ids.
Qed.

Lemma row_is_lrow c k e : eidb (idLR c k) e = true -> is_lrow c e = true.
Proof.
  intros H. apply eidb_eq in H. unfold is_lrow. rewrite H. now ids.
Qed.

Lemma not_frow c k e : is_frow c e = false -> eidb (idR c k) e = false.
Proof.
  intros H. destruct (eidb (idR c k) e) eqn:E; [|reflexivity].
  apply row_is_frow in E. congruence.
Qed.

Lemma not_lrow c k e : is_lrow c e = false -> eidb (idLR c k) e = false.
Proof.
  intros H. destruct (eidb (idLR c k) e) eqn:E; [|reflexivity].
  apply row_is_lrow in E. congruence.
Qed.

Lemma not_fallback_elem c e :
  is_fallback_elem c e = false <->
  eidb (idD c) e = false /\ eidb (idP c) e = false /\ eidb (idT c) e = false /\
  is_frow c e = false.
Proof. unfold is_fallback_elem. rewrite !orb_false_iff. tauto. Qed.

Lemma not_label_elem c e :
  is_label_elem c e = false <->
  eidb (idLC c) e = false /\ eidb (idLP c) e = false /\ eidb (idLT c) e = false /\
  is_lrow c e = false.
Proof. unfold is_label_elem. rewrite !orb_false_iff. tauto. Qed.

Lemma not_module_elem c e :
  is_module_elem c e = false <->
  is_fallback_elem c e = false /\ is_label_elem c e = false /\
  eidb (idAO c) e = false /\ eidb (idAOL c) e = false.
Proof. unfold is_module_elem, is_output_elem. rewrite !orb_false_iff. tauto. Qed.

(** Counting an id that a whole list avoids. *)
Lemma cnt_avoid (p : elem -> bool) x l :
  (forall e, eidb x e = true -> p e = true) ->
  Forall (fun e => p e = false) l -> cnt x l = 0.
Proof.
  intros Hp Hl. apply cnt_zero_Forall. eapply Forall_impl; [exact Hl|].
  intros e He. simpl in He. destruct (eidb x e) eqn:E; [|reflexivity].
  apply Hp in E. congruence.
Qed.

Lemma no_label_counts c l :
  Forall (fun e => is_label_elem c e = false) l ->
  cnt (idLC c) l = 0 /\ cnt (idLP c) l = 0 /\ cnt (idLT c) l = 0 /\
  forall k, cnt (idLR c k) l = 0.
Proof.
  intros H. repeat split; try intros k;
    (eapply cnt_avoid; [|exact H]); intros e He; unfold is_label_elem;
    rewrite ?(row_is_lrow _ _ _ He), ?He, ?orb_true_r; reflexivity.
Qed.

Lemma no_fallback_counts c l :
  Forall (fun e => is_fallback_elem c e = false) l ->
  cnt (idD c) l = 0 /\ cnt (idP c) l = 0 /\ cnt (idT c) l = 0 /\
  forall k, cnt (idR c k) l = 0.
Proof.
  intros H. repeat split; try intros k;
    (eapply cnt_avoid; [|exact H]); intros e He; unfold is_fallback_elem;
    rewrite ?(row_is_frow _ _ _ He), ?He, ?orb_true_r; reflexivity.
Qed.

Lemma no_output_counts c l :
  Forall (fun e => is_module_elem c e = false) l ->
  cnt (idAO c) l = 0 /\ cnt (idAOL c) l = 0.
Proof.
  intros H. split; (eapply cnt_avoid; [|exact H]); intros e He;
    unfold is_module_elem, is_output_elem; rewrite He, ?orb_true_r; reflexivity.
Qed.

Lemma Forall_module_split c l :
  Forall (fun e => is_module_elem c e = false) l ->
  Forall (fun e => is_fallback_elem c e = false) l /\
  Forall (fun e => is_label_elem c e = false) l.
Proof.
  intros H. split; (eapply Forall_impl; [exact H|]); intros e He;
    apply not_module_elem in He; tauto.
Qed.

(** An element that is not of the module is at a right depth when it is
    not the canvas, or is the canvas at its depth. *)
Lemma depth_ok_host c k0 e :
  is_module_elem c e = false ->
  (eidb c e = true -> depth e = k0 + 1) ->
  depth_ok c k0 e = true.
Proof.
  intros Hm Hc. apply not_module_elem in Hm as (Hf & Hl & _).
  apply not_fallback_elem in Hf as (H1 & H2 & H3 & H4).
  apply not_label_elem in Hl as (H5 & H6 & H7 & H8).
  unfold depth_ok. rewrite H1, H2, H3, H4, H5, H6, H7, H8. simpl.
  rewrite !andb_true_r. destruct (eidb c e); [|reflexivity].
  simpl. apply Nat.eqb_eq. auto.
Qed.

(** ** A fresh page satisfies the invariant *)

Lemma store_empty_none : store_empty no_descriptions.
Proof.
  repeat split; intros k h; unfold fmap, lmap; simpl; rewrite lookup_empty; discriminate.
Qed.

Lemma store_ok_fresh c tl :
  Forall (fun e => is_module_elem c e = false) tl -> store_ok c tl no_descriptions.
Proof.
  intros H. destruct (Forall_module_split c tl H) as [Hf Hl].
  destruct (no_fallback_counts c tl Hf) as (D0 & P0 & T0 & R0).
  destruct (no_label_counts c tl Hl) as (LC0 & LP0 & LT0 & LR0).
  constructor; simpl; unfold fmap, lmap; simpl;
    try (intros; rewrite ?lookup_empty in *; discriminate).
  - intros _. apply store_empty_none.
  - intros _. split; [reflexivity|]. intros k h. rewrite lookup_empty. discriminate.
  - rewrite P0. lia.
  - rewrite LP0. lia.
  - intros k _. rewrite R0. lia.
  - intros k _. rewrite LR0. lia.
  - intros k _. now rewrite !lookup_empty.
Qed.

Lemma structure_ok_fresh c pre r post n tl :
  framed pre r tl post ->
  Forall (fun e => node e < n) (pre ++ r :: tl ++ post) ->
  cnt c tl = 1 ->
  Forall (fun e => eidb c e = true -> depth e = S (depth r)) tl ->
  Forall (fun e => is_module_elem c e = false) tl ->
  structure_ok c pre r post n tl.
Proof.
  intros Hf Hn Hc Hd H. destruct (Forall_module_split c tl H) as [Hfb Hl].
  destruct (no_fallback_counts c tl Hfb) as (D0 & P0 & T0 & R0).
  destruct (no_label_counts c tl Hl) as (LC0 & LP0 & LT0 & LR0).
  destruct (no_output_counts c tl H) as (A0 & AL0).
  constructor; try assumption; rewrite ?D0, ?P0, ?T0, ?LC0, ?LP0, ?LT0;
    try lia; auto.
  - rewrite Forall_forall in *. intros e He. apply depth_ok_host; [now apply H|].
    intros E. rewrite (Hd e He E). lia.
  - intros _. rewrite Forall_forall in *. intros e He. split; auto.
  - now apply ordered_none_x.
  - intros k _. rewrite R0. lia.
  - now apply ordered_none_x.
  - intros k _. rewrite LR0. lia.
Qed.

Lemma fresh_inv c pre r post tl st :
  fresh c pre r post tl st -> inv c pre r post st tl.
Proof.
  intros [Hfr Hd Hf Hn Hc Hcd Hh Hdd Hds]. constructor.
  - assumption.
  - rewrite Hd in Hn. now apply structure_ok_fresh.
  - unfold the_descs. rewrite Hds. simpl. now apply store_ok_fresh.
  - now left.
Qed.

(** ** Inserting new nodes keeps the shape of the page *)

Lemma framed_insert pre r l1 l2 post new n :
  framed pre r (l1 ++ l2) post ->
  Forall (fun e => node e < n) (pre ++ r :: (l1 ++ l2) ++ post) ->
  Forall (fun e => n <= node e) new ->
  NoDup (List.map node new) ->
  Forall (fun e => depth r < depth e) new ->
  framed pre r (l1 ++ new ++ l2) post.
Proof.
  intros (Hnd & Hd & Hp) Hn Hnew Hnd' Hdn. split; [|split; [|assumption]].
  - replace (pre ++ r :: (l1 ++ new ++ l2) ++ post)
      with ((pre ++ r :: l1) ++ new ++ (l2 ++ post)) by now list_norm.
    replace (pre ++ r :: (l1 ++ l2) ++ post)
      with ((pre ++ r :: l1) ++ (l2 ++ post)) in Hnd, Hn by now list_norm.
    generalize dependent (pre ++ r :: l1). generalize dependent (l2 ++ post).
    intros L2 L1 Hnd Hn.
    rewrite !map_app in *. apply NoDup_app in Hnd as (H1 & H2 & H3).
    rewrite Forall_app in Hn. destruct Hn as [Hn1 Hn2].
    assert (Hfresh : forall x, x ∈ List.map node new -> n <= x).
    { intros x Hx. apply list_elem_of_In, in_map_iff in Hx as (e & <- & He).
      rewrite Forall_forall in Hnew. apply Hnew. now apply list_elem_of_In. }
    assert (Hold : forall l x, Forall (fun e => node e < n) l -> x ∈ List.map node l -> x < n).
    { intros l x Hl Hx. apply list_elem_of_In, in_map_iff in Hx as (e & <- & He).
      rewrite Forall_forall in Hl. apply Hl. now apply list_elem_of_In. }
    apply NoDup_app. split; [assumption|]. split.
    + intros x Hx Hx'. apply elem_of_app in Hx' as [Hx' | Hx'].
      * apply Hfresh in Hx'. apply (Hold _ _ Hn1) in Hx. lia.
      * exact (H2 x Hx Hx').
    + apply NoDup_app. split; [assumption|]. split; [|assumption].
      intros x Hx Hx'. apply Hfresh in Hx. apply (Hold _ _ Hn2) in Hx'. lia.
  - rewrite !Forall_app in *. tauto.
Qed.

Lemma next_insert pre r l1 l2 post new n m :
  Forall (fun e => node e < n) (pre ++ r :: (l1 ++ l2) ++ post) ->
  Forall (fun e => node e < n + m) new ->
  Forall (fun e => node e < n + m) (pre ++ r :: (l1 ++ new ++ l2) ++ post).
Proof.
  intros Hn Hnew.
  assert (Hw : forall l, Forall (fun e => node e < n) l -> Forall (fun e => node e < n + m) l).
  { intros l Hl. eapply Forall_impl; [exact Hl|]. intros e He. simpl in *. lia. }
  rewrite !Forall_app, !Forall_cons, !Forall_app in *.
  destruct Hn as (H1 & H2 & (H3 & H4) & H5). repeat split; auto.
  simpl in *. lia.
Qed.

(** The record after an insertion: the frame, the bound on the node
    identities, the canvas and the depths follow from what the new nodes
    are; what depends on the ids that the new nodes carry is left to the
    case at hand. *)
Lemma structure_ok_insert c pre r post n l1 l2 new m :
  structure_ok c pre r post n (l1 ++ l2) ->
  Forall (fun e => n <= node e < n + m) new ->
  NoDup (List.map node new) ->
  Forall (fun e => depth r < depth e) new ->
  Forall (fun e => depth_ok c (depth r) e = true) new ->
  cnt c new = 0 -> cnt (idAO c) new = 0 -> cnt (idAOL c) new = 0 ->
  forall tl', tl' = l1 ++ new ++ l2 ->
  (cnt (idD c) tl' <= 1 /\ cnt (idP c) tl' <= 1 /\ cnt (idT c) tl' <= 1) ->
  (cnt (idD c) tl' = 0 ->
     Forall (fun e => is_fallback_elem c e = false /\ is_label_elem c e = false) tl') ->
  ordered (idP c) (idT c) tl' ->
  (cnt (idD c) tl' = 1 -> 1 <= cnt (idP c) tl' + cnt (idT c) tl') ->
  (forall k, safe_key k = true -> cnt (idR c k) tl' <= 1) ->
  (cnt (idLC c) tl' <= 1 /\ cnt (idLP c) tl' <= 1 /\ cnt (idLT c) tl' <= 1) ->
  (cnt (idLC c) tl' = 0 -> Forall (fun e => is_label_elem c e = false) tl') ->
  ordered (idLP c) (idLT c) tl' ->
  (cnt (idLC c) tl' = 1 -> 1 <= cnt (idLP c) tl' + cnt (idLT c) tl') ->
  (forall k, safe_key k = true -> cnt (idLR c k) tl' <= 1) ->
  structure_ok c pre r post (n + m) tl'.
Proof.
  intros S Hh Hnd Hd Hok C0 A0 AL0 tl' -> F1 F2 F3 F4 F5 L1 L2 L3 L4 L5.
  destruct S as [Sfr Snx Scv Sdp Sout Sf1 Sf0 Sfo Sfs Sfw Sl1 Sl0 Slo Sls Slw].
  constructor; try assumption.
  - eapply framed_insert; eauto. eapply Forall_impl; [exact Hh|]. simpl. lia.
  - apply next_insert; [assumption|]. eapply Forall_impl; [exact Hh|]. simpl. lia.
  - rewrite !cnt_app in *. lia.
  - rewrite !Forall_app in *. tauto.
  - rewrite !cnt_app in *. lia.
Qed.

(** Emptying the canvas of a page on which the fallback region does not
    exist yet. *)
Lemma structure_ok_delete c pre r post n l1 sub l2 :
  structure_ok c pre r post n (l1 ++ sub ++ l2) ->
  cnt (idD c) (l1 ++ sub ++ l2) = 0 ->
  cnt c sub = 0 ->
  structure_ok c pre r post n (l1 ++ l2) /\
  Forall (fun e => is_module_elem c e = false) (l1 ++ l2).
Proof.
  intros S D0 C0.
  destruct S as [Sfr Snx Scv Sdp Sout Sf1 Sf0 Sfo Sfs Sfw Sl1 Sl0 Slo Sls Slw].
  assert (Hm : Forall (fun e => is_module_elem c e = false) (l1 ++ sub ++ l2)).
  { specialize (Sf0 D0). destruct Sout as [A0 AL0].
    apply cnt_zero_Forall in A0, AL0. rewrite Forall_forall in *.
    intros e He. apply not_module_elem. specialize (Sf0 e He).
    specialize (A0 e He). specialize (AL0 e He). simpl in *. tauto. }
  assert (Hm' : Forall (fun e => is_module_elem c e = false) (l1 ++ l2)).
  { rewrite !Forall_app in *. tauto. }
  split; [|assumption]. apply structure_ok_fresh; try assumption.
  - destruct Sfr as (Hnd & Hd & Hp). split; [|split; [|assumption]].
    + replace (pre ++ r :: (l1 ++ sub ++ l2) ++ post)
        with ((pre ++ r :: l1) ++ sub ++ (l2 ++ post)) in Hnd by now list_norm.
      replace (pre ++ r :: (l1 ++ l2) ++ post)
        with ((pre ++ r :: l1) ++ (l2 ++ post)) by now list_norm.
      generalize dependent (pre ++ r :: l1). generalize dependent (l2 ++ post).
      intros L2 L1 Hnd.
      rewrite !map_app in *. apply NoDup_app in Hnd as (H1 & H2 & H3).
      apply NoDup_app in H3 as (H3 & H4 & H5).
      apply NoDup_app. split; [assumption|]. split; [|assumption].
      intros x Hx Hx'. apply (H2 x Hx). apply elem_of_app. now right.
    + rewrite !Forall_app in *. tauto.
  - rewrite !Forall_app, !Forall_cons, !Forall_app in *. tauto.
  - rewrite !cnt_app in *. lia.
  - rewrite Forall_forall in *. intros e He E.
    assert (Hin : e ∈ l1 ++ sub ++ l2).
    { rewrite !elem_of_app in *. tauto. }
    specialize (Sdp e Hin). unfold depth_ok in Sdp.
    rewrite E in Sdp. simpl in Sdp.
    rewrite !andb_true_iff in Sdp. destruct Sdp as [[[[[[[[H _] _] _] _] _] _] _] _].
    apply Nat.eqb_eq in H. lia.
Qed.

(** ** Keeping the store in step with the page *)

Lemma structural_const (b : bool) : structural (fun _ : elem => b).
Proof. intros e s. reflexivity. Qed.

Lemma structural_not_label c : structural (fun e => negb (is_label_elem c e)).
Proof. intros e s. reflexivity. Qed.

Lemma keeps_insert ds l1 l2 new : keeps ds (l1 ++ l2) (l1 ++ new ++ l2).
Proof.
  right. intros q h _. rewrite !hasP_app. 
  destruct (hasP q h l1), (hasP q h l2), (hasP q h new); simpl; auto.
Qed.

Lemma keeps_set_html ds h s tl : keeps ds tl (set_html h s tl).
Proof. right. intros q h' Hq. now rewrite hasP_set_html. Qed.

Lemma keeps_refl ds tl : keeps ds tl tl.
Proof. right. auto. Qed.

Lemma keeps_trans ds tl1 tl2 tl3 : keeps ds tl1 tl2 -> keeps ds tl2 tl3 -> keeps ds tl1 tl3.
Proof.
  intros [H1 | H1] [H2 | H2]; try (now left). right. auto.
Qed.

(** A step of the page and of the store: every reference of the new store
    is an old one or is right on the new page, and every node that the new
    page holds for the store is referred to. *)
Lemma store_ok_step c tl tl' ds ds' :
  store_ok c tl ds ->
  keeps ds tl tl' ->
  (forall h, fallback ds' = Some h ->
     fallback ds = Some h \/ hasP (eidb (idP c)) h tl' = true) ->
  (forall h, label ds' = Some h ->
     label ds = Some h \/ hasP (eidb (idLP c)) h tl' = true) ->
  (forall k h, fmap ds' !! k = Some (Some h) ->
     fmap ds !! k = Some (Some h) \/
     (hasP (fun e => negb (is_label_elem c e)) h tl' = true /\
      (safe_key k = true -> hasP (eidb (idR c k)) h tl' = true))) ->
  (forall k h, lmap ds' !! k = Some (Some h) ->
     lmap ds !! k = Some (Some h) \/
     (hasP (fun _ => true) h tl' = true /\
      (safe_key k = true -> hasP (eidb (idLR c k)) h tl' = true))) ->
  (forall k, is_prototype_key k = true -> fmap ds' !! k = None /\ lmap ds' !! k = None) ->
  (1 <= cnt (idP c) tl' -> fallback ds' <> None) ->
  (1 <= cnt (idLP c) tl' -> label ds' <> None) ->
  (forall k, safe_key k = true -> 1 <= cnt (idR c k) tl' ->
     exists h, fmap ds' !! k = Some (Some h)) ->
  (forall k, safe_key k = true -> 1 <= cnt (idLR c k) tl' ->
     exists h, lmap ds' !! k = Some (Some h)) ->
  (cnt (idD c) tl' = 0 -> store_empty ds') ->
  (cnt (idLC c) tl' = 0 ->
     label ds' = None /\ (forall k h, lmap ds' !! k <> Some (Some h))) ->
  store_ok c tl' ds'.
Proof.
  intros S K E1 E2 E3 E4 E5 C1 C2 C3 C4 C5 C6.
  destruct S as [Sf0 Sl0 Sfb Sfb' Slb Slb' Sfr Sfr' Slr Slr' Spr Sfn Sln].
  assert (Hold : forall (q : elem -> bool) h, structural q ->
            (fallback ds = Some h \/ label ds = Some h \/
             (exists k, fmap ds !! k = Some (Some h)) \/
             (exists k, lmap ds !! k = Some (Some h))) ->
            hasP q h tl = true -> hasP q h tl' = true).
  { intros q h Hq Hh Hp. destruct K as [(K1 & K2 & K3 & K4) | K]; [|now apply K].
    destruct Hh as [Hh | [Hh | [[k Hh] | [k Hh]]]]; try congruence.
    - destruct (K3 k h Hh).
    - destruct (K4 k h Hh). }
  constructor; try assumption.
  - intros h Hh. destruct (E1 h Hh) as [H | H]; [|assumption].
    apply (Hold _ h (structural_eidb _)); auto.
  - intros h Hh. destruct (E2 h Hh) as [H | H]; [|assumption].
    apply (Hold _ h (structural_eidb _)); auto.
  - intros k h Hk Hh. destruct (E3 k h Hh) as [H | [_ H]]; [|now apply H].
    apply (Hold _ h (structural_eidb _)); eauto.
  - intros k h Hk Hh. destruct (E4 k h Hh) as [H | [_ H]]; [|now apply H].
    apply (Hold _ h (structural_eidb _)); eauto.
  - intros k h Hh. destruct (E3 k h Hh) as [H | [H _]]; [|assumption].
    apply (Hold _ h (structural_not_label c)); eauto.
  - intros k h Hh. destruct (E4 k h Hh) as [H | [H _]]; [|assumption].
    apply (Hold _ h (structural_const true)); eauto.
Qed.

(** *** Writing the content of a node *)

Lemma hasP_handle q h l : hasP q h l = true -> In h (List.map node l).
Proof.
  intros H. apply hasP_true in H as (e & He & <- & _). now apply in_map.
Qed.

Lemma not_handle_existsb h l :
  ~ In h (List.map node l) -> existsb (fun e => Nat.eqb (node e) h) l = false.
Proof.
  intros H. destruct (existsb _ l) eqn:E; [|reflexivity].
  apply existsb_exists in E as (e & He & E). apply Nat.eqb_eq in E.
  destruct H. rewrite <- E. now apply in_map.
Qed.

Lemma set_html_framed pre r tl post h s :
  framed pre r tl post -> hasP (fun _ => true) h tl = true ->
  set_html h s (pre ++ r :: tl ++ post) = pre ++ r :: set_html h s tl ++ post.
Proof.
  intros (Hnd & _ & _) Hh. apply hasP_handle in Hh.
  replace (pre ++ r :: tl ++ post) with ((pre ++ [r]) ++ tl ++ post) in * by now list_norm.
  rewrite map_app in Hnd. apply NoDup_app in Hnd as (_ & Hd & _).
  rewrite set_html_app, not_handle_existsb.
  - rewrite set_html_app.
    assert (E : existsb (fun e => Nat.eqb (node e) h) tl = true).
    { apply existsb_exists. apply in_map_iff in Hh as (e & <- & He).
      exists e. split; [assumption | apply Nat.eqb_refl]. }
    rewrite E. now list_norm.
  - intros Hin. apply (Hd h); [now apply list_elem_of_In|].
    rewrite map_app. apply elem_of_app. left. now apply list_elem_of_In.
Qed.

Lemma framed_set_html pre r tl post h s :
  framed pre r tl post -> framed pre r (set_html h s tl) post.
Proof.
  intros (Hnd & Hd & Hp). split; [|split; [|assumption]].
  - rewrite !map_app in *. simpl in *. rewrite !map_app in *.
    now rewrite (map_set_html node) by (intros e x; reflexivity).
  - apply Forall_set_html; auto.
Qed.

Lemma structure_ok_set_html c pre r post n tl h s :
  structure_ok c pre r post n tl -> structure_ok c pre r post n (set_html h s tl).
Proof.
  intros S.
  destruct S as [Sfr Snx Scv Sdp Sout Sf1 Sf0 Sfo Sfs Sfw Sl1 Sl0 Slo Sls Slw].
  constructor; rewrite ?cnt_set_html; try assumption.
  - now apply framed_set_html.
  - rewrite !Forall_app, !Forall_cons, !Forall_app in *.
    destruct Snx as (H1 & H2 & H3 & H4). repeat split; auto.
    apply Forall_set_html; auto.
  - apply Forall_set_html; auto.
  - intros H. apply Forall_set_html; auto.
  - now apply ordered_set_html.
  - intros k Hk. rewrite cnt_set_html. auto.
  - intros H. apply Forall_set_html; auto.
  - now apply ordered_set_html.
  - intros k Hk. rewrite cnt_set_html. auto.
Qed.

Lemma store_ok_set_html c tl ds h s :
  store_ok c tl ds -> store_ok c (set_html h s tl) ds.
Proof.
  intros S. apply (store_ok_step c tl (set_html h s tl) ds ds S);
    rewrite ?cnt_set_html; try (intros; rewrite ?cnt_set_html in *); auto;
    try apply S; auto.
  apply keeps_set_html.
Qed.

(** ** The helpers in terms of their first blocks *)

Lemma bind_assoc {A B C} (m : M A) (f : A -> M B) (g : B -> M C) st :
  bind (bind m f) g st = bind m (fun x => bind (f x) g) st.
Proof. unfold bind. destruct (m st) as [[a | e] st']; reflexivity. Qed.

Lemma bind_normal {A B} (m : M A) (k : A -> M B) st a st' :
  m st = (Normal a, st') -> bind m k st = k a st'.
Proof. intros H. unfold bind. now rewrite H. Qed.

Lemma bind_throw {A B} (m : M A) (k : A -> M B) st e st' :
  m st = (Throw e, st') -> bind m k st = (Throw e, st').
Proof. intros H. unfold bind. now rewrite H. Qed.

Lemma bind_gets {A B} (f : sketch -> A) (k : A -> M B) st :
  bind (gets f) k st = k (f st) st.
Proof. reflexivity. Qed.

Lemma bind_ret {A B} (a : A) (k : A -> M B) st : bind (ret a) k st = k a st.
Proof. reflexivity. Qed.

Lemma bind_modify {B} (f : sketch -> sketch) (k : unit -> M B) st :
  bind (modify f) k st = k tt (f st).
Proof. reflexivity. Qed.

Lemma bind_lift_normal {A B} (a : A) (k : A -> M B) st :
  bind (lift (Normal a)) k st = k a st.
Proof. reflexivity. Qed.

Lemma describeFallbackHTML_block dd c st :
  _describeFallbackHTML dd c st =
  (fallback_desc_block dd c ;;;
   p <- qs dd ("#" +:+ (c +:+ fallbackDescId)) ;;
   match p with
   | Some _ =>
       p' <- qs dd ("#" +:+ (c +:+ fallbackDescId)) ;;
       ret (Some (option_map node p', dd))
   | None => ret None
   end) st.
Proof. symmetry. apply bind_assoc. Qed.

Lemma describeLabelHTML_block dd c st :
  _describeLabelHTML dd c st =
  (label_desc_block dd c ;;;
   p <- qs dd ("#" +:+ (c +:+ labelDescId)) ;;
   match p with
   | Some _ =>
       p' <- qs dd ("#" +:+ (c +:+ labelDescId)) ;;
       ret (Some (option_map node p', dd))
   | None => ret None
   end) st.
Proof. symmetry. apply bind_assoc. Qed.

Lemma descElementFallbackHTML_block dd c name st :
  _descElementFallbackHTML dd c name st =
  (fallback_table_block dd c ;;;
   tableRow <- createElement "tr" ;;
   let tableRow := with_id (c +:+ fallbackTableElId +:+ name) tableRow in
   t <- qs dd ("#" +:+ (c +:+ fallbackTableId)) ;;
   on_node t (fun h => appendChild h tableRow) ;;;
   r <- qs dd ("#" +:+ (c +:+ fallbackTableElId +:+ name)) ;;
   ret (Some (option_map node r, dd))) st.
Proof. symmetry. apply bind_assoc. Qed.

Lemma descElementLabelHTML_block dd c name st :
  _descElementLabelHTML dd c name st =
  (label_table_block dd c ;;;
   tableRow <- createElement "tr" ;;
   let tableRow := with_id (c +:+ labelTableElId +:+ name) tableRow in
   t <- qs dd ("#" +:+ (c +:+ labelTableId)) ;;
   on_node t (fun h => appendChild h tableRow) ;;;
   r <- qs dd ("#" +:+ (c +:+ labelTableElId +:+ name)) ;;
   ret (Some (option_map node r, dd))) st.
Proof. symmetry. apply bind_assoc. Qed.

(** ** What the markup fragments hold *)

Lemma census_app c l1 l2 :
  census c (l1 ++ l2) = List.map (fun p => fst p + snd p) (List.combine (census c l1) (census c l2)).
Proof. unfold census. rewrite !cnt_app. reflexivity. Qed.

Ltac census_markup := unfold census, place; simpl; ids; reflexivity.

Lemma census_fallback_desc c k n :
  census c (place k n (fallback_desc_markup c)) = [0; 1; 1; 0; 0; 0; 0; 0; 0].
Proof. census_markup. Qed.

Lemma census_fallback_p c k n :
  census c (place k n (fallback_p_markup c)) = [0; 0; 1; 0; 0; 0; 0; 0; 0].
Proof. census_markup. Qed.

Lemma census_fallback_table c k n :
  is_ident c = true ->
  census c (place k n (fallback_table_markup c)) = [0; 0; 0; 1; 0; 0; 0; 0; 0].
Proof. intros H. destruct c; [discriminate|]. census_markup. Qed.

Lemma census_fallback_elements c k n :
  is_ident c = true ->
  census c (place k n (fallback_elements_markup c)) = [0; 1; 0; 1; 0; 0; 0; 0; 0].
Proof. intros H. destruct c; [discriminate|]. census_markup. Qed.

Lemma census_label_desc c k n :
  census c (place k n (label_desc_markup c)) = [0; 0; 0; 0; 1; 1; 0; 0; 0].
Proof. census_markup. Qed.

Lemma census_label_p c k n :
  census c (place k n (label_p_markup c)) = [0; 0; 0; 0; 0; 1; 0; 0; 0].
Proof. census_markup. Qed.

Lemma census_label_table c k n :
  census c (place k n (label_table_markup c)) = [0; 0; 0; 0; 0; 0; 1; 0; 0].
Proof. census_markup. Qed.

Lemma census_label_elements c k n :
  census c (place k n (label_elements_markup c)) = [0; 0; 0; 0; 1; 0; 1; 0; 0].
Proof. census_markup. Qed.

Lemma depth_ok_spec c k0 e :
  depth_ok c k0 e = true <->
  (eidb c e = true -> depth e = k0 + 1) /\
  (eidb (idD c) e = true -> depth e = k0 + 2) /\
  (eidb (idP c) e = true -> depth e = k0 + 3) /\
  (eidb (idT c) e = true -> depth e = k0 + 3) /\
  (is_frow c e = true -> depth e = k0 + 4) /\
  (eidb (idLC c) e = true -> depth e = k0 + 1) /\
  (eidb (idLP c) e = true -> depth e = k0 + 2) /\
  (eidb (idLT c) e = true -> depth e = k0 + 2) /\
  (is_lrow c e = true -> depth e = k0 + 3).
Proof.
  unfold depth_ok. rewrite !andb_true_iff.
  assert (I : forall b n m, implb b (n =? m) = true <-> (b = true -> n = m)).
  { intros b n m. destruct b; simpl.
    - rewrite Nat.eqb_eq. tauto.
    - split; [discriminate | reflexivity]. }
  rewrite !I. tauto.
Qed.

Lemma place_handles k n frag :
  List.map node frag = seq 0 (length frag) ->
  Forall (fun e => n <= node e < n + length frag) (place k n frag) /\
  NoDup (List.map node (place k n frag)).
Proof.
  intros H. unfold place. split.
  - apply Forall_forall. intros e He.
    apply list_elem_of_In, in_map_iff in He as (x & <- & Hx). simpl.
    assert (In (node x) (seq 0 (length frag))) by (rewrite <- H; now apply in_map).
    apply in_seq in H0. lia.
  - assert (E : List.map node (List.map (fun e => Elem (n + node e) (k + depth e) (tag e)
                                   (eid e) (attrs e) (html e)) frag)
                = List.map (Nat.add n) (seq 0 (length frag))).
    { rewrite <- H, !map_map. reflexivity. }
    rewrite E.
    assert (I : Inj eq eq (Nat.add n)) by (intros x y Hxy; lia).
    apply (NoDup_fmap_2 (Nat.add n)), NoDup_seq.
Qed.

Lemma place_range k n frag :
  List.map node frag = seq 0 (length frag) ->
  Forall (fun e => n <= node e < n + length frag) (place k n frag).
Proof. apply place_handles. Qed.

Lemma place_nodup k n frag :
  List.map node frag = seq 0 (length frag) -> NoDup (List.map node (place k n frag)).
Proof. apply place_handles. Qed.

Lemma place_length k n frag : length (place k n frag) = length frag.
Proof. unfold place. now rewrite length_map. Qed.

Lemma place_depth k0 k n frag :
  k0 < k -> Forall (fun e => k0 < depth e) (place k n frag).
Proof.
  intros H. unfold place. apply Forall_forall. intros e He.
  apply list_elem_of_In, in_map_iff in He as (x & <- & Hx). simpl. lia.
Qed.

Ltac depth_markup :=
  unfold place; simpl; repeat constructor; apply depth_ok_spec; ids;
  repeat split; intros; try discriminate; try lia.

Lemma depth_fallback_desc c k0 n :
  Forall (fun e => depth_ok c k0 e = true) (place (k0 + 2) n (fallback_desc_markup c)).
Proof. depth_markup. Qed.

Lemma depth_fallback_elements c k0 n :
  is_ident c = true ->
  Forall (fun e => depth_ok c k0 e = true) (place (k0 + 2) n (fallback_elements_markup c)).
Proof. intros H. destruct c; [discriminate|]. depth_markup. Qed.

Lemma depth_fallback_p c k0 n :
  Forall (fun e => depth_ok c k0 e = true) (place (k0 + 3) n (fallback_p_markup c)).
Proof. depth_markup. Qed.

Lemma depth_fallback_table c k0 n :
  is_ident c = true ->
  Forall (fun e => depth_ok c k0 e = true) (place (k0 + 3) n (fallback_table_markup c)).
Proof. intros H. destruct c; [discriminate|]. depth_markup. Qed.

Lemma depth_label_desc c k0 n :
  Forall (fun e => depth_ok c k0 e = true) (place (k0 + 1) n (label_desc_markup c)).
Proof. depth_markup. Qed.

Lemma depth_label_elements c k0 n :
  Forall (fun e => depth_ok c k0 e = true) (place (k0 + 1) n (label_elements_markup c)).
Proof. depth_markup. Qed.

Lemma depth_label_p c k0 n :
  Forall (fun e => depth_ok c k0 e = true) (place (k0 + 2) n (label_p_markup c)).
Proof. depth_markup. Qed.

Lemma depth_label_table c k0 n :
  Forall (fun e => depth_ok c k0 e = true) (place (k0 + 2) n (label_table_markup c)).
Proof. depth_markup. Qed.

Ltac rows_markup := unfold place; simpl; repeat constructor; ids; reflexivity.

Ltac fragment_of census_lemma depth_lemma :=
  constructor;
  [ apply census_lemma; assumption
  | rows_markup
  | match goal with |- Forall _ (place ?k ?n ?f) => exact (place_range k n f eq_refl) end
  | match goal with |- NoDup (_ (place ?k ?n ?f)) => exact (place_nodup k n f eq_refl) end
  | apply place_depth; lia
  | apply depth_lemma; assumption ].

Lemma fragment_fallback_desc c k0 n :
  fragment c k0 n 2 (place (k0 + 2) n (fallback_desc_markup c)) [0; 1; 1; 0; 0; 0; 0; 0; 0].
Proof. fragment_of census_fallback_desc depth_fallback_desc. Qed.

Lemma fragment_fallback_p c k0 n :
  fragment c k0 n 1 (place (k0 + 3) n (fallback_p_markup c)) [0; 0; 1; 0; 0; 0; 0; 0; 0].
Proof. fragment_of census_fallback_p depth_fallback_p. Qed.

Lemma fragment_fallback_table c k0 n :
  is_ident c = true ->
  fragment c k0 n 2 (place (k0 + 3) n (fallback_table_markup c)) [0; 0; 0; 1; 0; 0; 0; 0; 0].
Proof.
  intros H. pose proof H as H'. destruct c; [discriminate|].
  fragment_of census_fallback_table depth_fallback_table.
Qed.

Lemma fragment_fallback_elements c k0 n :
  is_ident c = true ->
  fragment c k0 n 3 (place (k0 + 2) n (fallback_elements_markup c)) [0; 1; 0; 1; 0; 0; 0; 0; 0].
Proof.
  intros H. pose proof H as H'. destruct c; [discriminate|].
  fragment_of census_fallback_elements depth_fallback_elements.
Qed.

Lemma fragment_label_desc c k0 n :
  fragment c k0 n 2 (place (k0 + 1) n (label_desc_markup c)) [0; 0; 0; 0; 1; 1; 0; 0; 0].
Proof. fragment_of census_label_desc depth_label_desc. Qed.

Lemma fragment_label_p c k0 n :
  fragment c k0 n 1 (place (k0 + 2) n (label_p_markup c)) [0; 0; 0; 0; 0; 1; 0; 0; 0].
Proof. fragment_of census_label_p depth_label_p. Qed.

Lemma fragment_label_table c k0 n :
  fragment c k0 n 1 (place (k0 + 2) n (label_table_markup c)) [0; 0; 0; 0; 0; 0; 1; 0; 0].
Proof. fragment_of census_label_table depth_label_table. Qed.

Lemma fragment_label_elements c k0 n :
  fragment c k0 n 2 (place (k0 + 1) n (label_elements_markup c)) [0; 0; 0; 0; 1; 0; 1; 0; 0].
Proof. fragment_of census_label_elements depth_label_elements. Qed.

(** ** The insertions of the module *)

Lemma cnt_norows_f c k new :
  Forall (fun e => is_frow c e = false /\ is_lrow c e = false) new -> cnt (idR c k) new = 0.
Proof.
  intros H. apply cnt_zero_Forall. eapply Forall_impl; [exact H|].
  intros e [He _]. now apply not_frow.
Qed.

Lemma cnt_norows_l c k new :
  Forall (fun e => is_frow c e = false /\ is_lrow c e = false) new -> cnt (idLR c k) new = 0.
Proof.
  intros H. apply cnt_zero_Forall. eapply Forall_impl; [exact H|].
  intros e [_ He]. now apply not_lrow.
Qed.

Lemma ordered_insert x y l1 l2 new :
  ordered x y (l1 ++ l2) ->
  (cnt x new = 0 \/ cnt y new = 0) ->
  (cnt y l1 = 0 \/ cnt x new = 0) ->
  (cnt y new = 0 \/ cnt x l2 = 0) ->
  ordered x y (l1 ++ new ++ l2).
Proof.
  intros H Hn H1 H2. apply ordered_app in H as (O1 & O2 & O3).
  apply ordered_app. split; [assumption|]. split.
  - apply ordered_app. split; [|split; assumption].
    destruct Hn; [now apply ordered_none_x | now apply ordered_none_y].
  - rewrite cnt_app. destruct O3 as [O3 | O3], H1 as [H1 | H1]; auto; right; lia.
Qed.

Lemma no_label_of_counts c new :
  cnt (idLC c) new = 0 -> cnt (idLP c) new = 0 -> cnt (idLT c) new = 0 ->
  Forall (fun e => is_frow c e = false /\ is_lrow c e = false) new ->
  Forall (fun e => is_label_elem c e = false) new.
Proof.
  intros H1 H2 H3 H4. apply cnt_zero_Forall in H1, H2, H3.
  rewrite Forall_forall in *. intros e He. apply not_label_elem.
  specialize (H1 e He). specialize (H2 e He). specialize (H3 e He).
  destruct (H4 e He). simpl in *. tauto.
Qed.

(** Inserting a fragment of markup: what is left to check is arithmetic on
    the numbers of nodes with the fixed ids. *)
Lemma structure_ok_markup c pre r post n l1 l2 new m dD dP dT dLC dLP dLT :
  structure_ok c pre r post n (l1 ++ l2) ->
  fragment c (depth r) n m new [0; dD; dP; dT; dLC; dLP; dLT; 0; 0] ->
  cnt (idD c) (l1 ++ l2) + dD = 1 ->
  cnt (idP c) (l1 ++ l2) + dP <= 1 ->
  cnt (idT c) (l1 ++ l2) + dT <= 1 ->
  1 <= cnt (idP c) (l1 ++ l2) + dP + cnt (idT c) (l1 ++ l2) + dT ->
  (dP = 0 \/ dT = 0) -> (cnt (idT c) l1 = 0 \/ dP = 0) -> (dT = 0 \/ cnt (idP c) l2 = 0) ->
  cnt (idLC c) (l1 ++ l2) + dLC <= 1 ->
  cnt (idLP c) (l1 ++ l2) + dLP <= 1 ->
  cnt (idLT c) (l1 ++ l2) + dLT <= 1 ->
  (cnt (idLC c) (l1 ++ l2) + dLC = 0 -> dLP = 0 /\ dLT = 0) ->
  (cnt (idLC c) (l1 ++ l2) + dLC = 1 ->
     1 <= cnt (idLP c) (l1 ++ l2) + dLP + cnt (idLT c) (l1 ++ l2) + dLT) ->
  (dLP = 0 \/ dLT = 0) -> (cnt (idLT c) l1 = 0 \/ dLP = 0) -> (dLT = 0 \/ cnt (idLP c) l2 = 0) ->
  structure_ok c pre r post (n + m) (l1 ++ new ++ l2).
Proof.
  intros S [Fc Fr Fh Fn Fb Fd] HD HP HT HPT O1 O2 O3 HLC HLP HLT HL0 HL1 O4 O5 O6.
  unfold census in Fc. injection Fc as C0 CD CP CT CLC CLP CLT CA CAL.
  pose proof S as [Sfr Snx Scv Sdp Sout Sf1 Sf0 Sfo Sfs Sfw Sl1 Sl0 Slo Sls Slw].
  eapply structure_ok_insert; eauto; rewrite ?cnt_app in *.
  - lia.
  - intros H. lia.
  - apply ordered_insert; auto; rewrite ?CP, ?CT; auto.
  - lia.
  - intros k Hk. rewrite !cnt_app, (cnt_norows_f c k new Fr).
    specialize (Sfw k Hk). rewrite cnt_app in Sfw. lia.
  - lia.
  - intros H. assert (E : cnt (idLC c) l1 + cnt (idLC c) l2 = 0) by lia.
    specialize (Sl0 E).
    rewrite !Forall_app in *. destruct Sl0. repeat split; auto.
    apply no_label_of_counts; auto; lia.
  - apply ordered_insert; auto; rewrite ?CLP, ?CLT; auto.
  - lia.
  - intros k Hk. rewrite !cnt_app, (cnt_norows_l c k new Fr).
    specialize (Slw k Hk). rewrite cnt_app in Slw. lia.
Qed.

(** *** Appending a row *)

Lemma census_counts c l d0 d1 d2 d3 d4 d5 d6 d7 d8 :
  census c l = [d0; d1; d2; d3; d4; d5; d6; d7; d8] ->
  cnt c l = d0 /\ cnt (idD c) l = d1 /\ cnt (idP c) l = d2 /\ cnt (idT c) l = d3 /\
  cnt (idLC c) l = d4 /\ cnt (idLP c) l = d5 /\ cnt (idLT c) l = d6 /\
  cnt (idAO c) l = d7 /\ cnt (idAOL c) l = d8.
Proof. unfold census. intros [= -> -> -> -> -> -> -> -> ->]. repeat split. Qed.

Lemma cnt_single x e : cnt x [e] = if eidb x e then 1 else 0.
Proof. simpl. lia. Qed.

Lemma eidb_row_f c k0 k n d t a h :
  eidb (idR c k) (Elem n d t (idR c k0) a h) = String.eqb k0 k.
Proof. ids. reflexivity. Qed.

Lemma eidb_row_l c k0 k n d t a h :
  eidb (idLR c k) (Elem n d t (idLR c k0) a h) = String.eqb k0 k.
Proof. ids. reflexivity. Qed.

Lemma census_frow c k0 n d t a h :
  census c [Elem n d t (idR c k0) a h] = [0; 0; 0; 0; 0; 0; 0; 0; 0].
Proof. unfold census. simpl. ids. reflexivity. Qed.

Lemma census_lrow c k0 n d t a h :
  census c [Elem n d t (idLR c k0) a h] = [0; 0; 0; 0; 0; 0; 0; 0; 0].
Proof. unfold census. simpl. ids. reflexivity. Qed.

Lemma depth_ok_frow c k0 key n t a h :
  depth_ok c k0 (Elem n (k0 + 4) t (idR c key) a h) = true.
Proof. apply depth_ok_spec. ids. repeat split; intros; try discriminate; reflexivity. Qed.

Lemma depth_ok_lrow c k0 key n t a h :
  depth_ok c k0 (Elem n (k0 + 3) t (idLR c key) a h) = true.
Proof. apply depth_ok_spec. ids. repeat split; intros; try discriminate; reflexivity. Qed.

Lemma label_frow c key n d t a h : is_label_elem c (Elem n d t (idR c key) a h) = false.
Proof. ids. reflexivity. Qed.

Lemma label_lrow c key n d t a h : is_label_elem c (Elem n d t (idLR c key) a h) = true.
Proof. ids. reflexivity. Qed.

Lemma structure_ok_frow c pre r post n l1 l2 k0 t a h :
  structure_ok c pre r post n (l1 ++ l2) ->
  cnt (idD c) (l1 ++ l2) = 1 ->
  (safe_key k0 = true -> cnt (idR c k0) (l1 ++ l2) = 0) ->
  structure_ok c pre r post (n + 1)
    (l1 ++ [Elem n (depth r + 4) t (idR c k0) a h] ++ l2).
Proof.
  intros S HD Hk.
  pose proof S as [Sfr Snx Scv Sdp Sout Sf1 Sf0 Sfo Sfs Sfw Sl1 Sl0 Slo Sls Slw].
  destruct (census_counts _ _ _ _ _ _ _ _ _ _ _ (census_frow c k0 n (depth r + 4) t a h))
    as (C0 & CD & CP & CT & CLC & CLP & CLT & CA & CAL).
  set (row := Elem n (depth r + 4) t (idR c k0) a h) in *.
  eapply (structure_ok_insert c pre r post n l1 l2 [row] 1); eauto;
    rewrite ?cnt_app in *; rewrite ?C0, ?CD, ?CP, ?CT, ?CLC, ?CLP, ?CLT, ?CA, ?CAL;
    try lia.
  - repeat constructor; simpl; lia.
  - repeat constructor. simpl. set_solver.
  - repeat constructor. simpl. lia.
  - repeat constructor. apply depth_ok_frow.
  - apply ordered_insert; auto; rewrite ?CP, ?CT; auto.
  - intros k Hs. rewrite !cnt_app, cnt_single. unfold row. rewrite eidb_row_f.
    specialize (Sfw k Hs). rewrite ?cnt_app in Sfw.
    destruct (String.eqb k0 k) eqn:E; [|lia].
    apply String.eqb_eq in E. subst k. specialize (Hk Hs). rewrite ?cnt_app in Hk. lia.
  - intros H. assert (E : cnt (idLC c) l1 + cnt (idLC c) l2 = 0) by lia.
    specialize (Sl0 E). rewrite !Forall_app in *. destruct Sl0. repeat split; auto.
    repeat constructor. apply label_frow.
  - apply ordered_insert; auto; rewrite ?CLP, ?CLT; auto.
  - intros k Hs. rewrite !cnt_app, cnt_single.
    assert (E : eidb (idLR c k) row = false) by (unfold row; ids; reflexivity).
    rewrite E. specialize (Slw k Hs). rewrite ?cnt_app in Slw. lia.
Qed.

Lemma structure_ok_lrow c pre r post n l1 l2 k0 t a h :
  structure_ok c pre r post n (l1 ++ l2) ->
  cnt (idD c) (l1 ++ l2) = 1 ->
  cnt (idLC c) (l1 ++ l2) = 1 ->
  (safe_key k0 = true -> cnt (idLR c k0) (l1 ++ l2) = 0) ->
  structure_ok c pre r post (n + 1)
    (l1 ++ [Elem n (depth r + 3) t (idLR c k0) a h] ++ l2).
Proof.
  intros S HD HLC Hk.
  pose proof S as [Sfr Snx Scv Sdp Sout Sf1 Sf0 Sfo Sfs Sfw Sl1 Sl0 Slo Sls Slw].
  destruct (census_counts _ _ _ _ _ _ _ _ _ _ _ (census_lrow c k0 n (depth r + 3) t a h))
    as (C0 & CD & CP & CT & CLC & CLP & CLT & CA & CAL).
  set (row := Elem n (depth r + 3) t (idLR c k0) a h) in *.
  eapply (structure_ok_insert c pre r post n l1 l2 [row] 1); eauto;
    rewrite ?cnt_app in *; rewrite ?C0, ?CD, ?CP, ?CT, ?CLC, ?CLP, ?CLT, ?CA, ?CAL;
    try lia.
  - repeat constructor; simpl; lia.
  - repeat constructor. simpl. set_solver.
  - repeat constructor. simpl. lia.
  - repeat constructor. apply depth_ok_lrow.
  - apply ordered_insert; auto; rewrite ?CP, ?CT; auto.
  - intros k Hs. rewrite !cnt_app, cnt_single.
    assert (E : eidb (idR c k) row = false) by (unfold row; ids; reflexivity).
    rewrite E. specialize (Sfw k Hs). rewrite ?cnt_app in Sfw. lia.
  - apply ordered_insert; auto; rewrite ?CLP, ?CLT; auto.
  - intros k Hs. rewrite !cnt_app, cnt_single. unfold row. rewrite eidb_row_l.
    specialize (Slw k Hs). rewrite ?cnt_app in Slw.
    destruct (String.eqb k0 k) eqn:E; [|lia].
    apply String.eqb_eq in E. subst k. specialize (Hk Hs). rewrite ?cnt_app in Hk. lia.
Qed.

(** ** The label region under insertions *)

Lemma labels_app c l1 l2 : labels c (l1 ++ l2) = labels c l1 ++ labels c l2.
Proof. apply List.filter_app. Qed.

Lemma labels_none c l : Forall (fun e => is_label_elem c e = false) l -> labels c l = [].
Proof.
  induction 1 as [|e l He Hl IH]; simpl; [reflexivity|]. now rewrite He.
Qed.

Lemma labels_insert c l1 l2 new :
  Forall (fun e => is_label_elem c e = false) new ->
  labels c (l1 ++ new ++ l2) = labels c (l1 ++ l2).
Proof. intros H. rewrite !labels_app, (labels_none c new H). reflexivity. Qed.

Lemma fragment_no_label c k0 n m new dD dP dT :
  fragment c k0 n m new [0; dD; dP; dT; 0; 0; 0; 0; 0] ->
  Forall (fun e => is_label_elem c e = false) new.
Proof.
  intros [Fc Fr _ _ _ _].
  destruct (census_counts _ _ _ _ _ _ _ _ _ _ _ Fc) as (_ & _ & _ & _ & C1 & C2 & C3 & _).
  now apply no_label_of_counts.
Qed.

(** The store is left as it is and the page only grows. *)
Lemma store_ok_same c tl tl' ds :
  store_ok c tl ds ->
  keeps ds tl tl' ->
  cnt (idP c) tl' <= cnt (idP c) tl ->
  cnt (idLP c) tl' <= cnt (idLP c) tl ->
  (forall k, cnt (idR c k) tl' <= cnt (idR c k) tl) ->
  (forall k, cnt (idLR c k) tl' <= cnt (idLR c k) tl) ->
  cnt (idD c) tl <= cnt (idD c) tl' ->
  cnt (idLC c) tl <= cnt (idLC c) tl' ->
  store_ok c tl' ds.
Proof.
  intros S K HP HLP HR HLR HD HLC.
  apply (store_ok_step c tl tl' ds ds S K); auto.
  - apply S.
  - intros H. apply S. lia.
  - intros H. apply S. lia.
  - intros k Hk H. apply S; [assumption|]. specialize (HR k). lia.
  - intros k Hk H. apply S; [assumption|]. specialize (HLR k). lia.
  - intros H. apply S. lia.
  - intros H. apply S. lia.
Qed.

Lemma grows_insert c ds l1 l2 new k0 n m dD dP dT dLC dLP dLT :
  fragment c k0 n m new [0; dD; dP; dT; dLC; dLP; dLT; 0; 0] ->
  grows c ds (l1 ++ l2) (l1 ++ new ++ l2) dD dP dT dLC dLP dLT.
Proof.
  intros [Fc Fr _ _ _ _].
  destruct (census_counts _ _ _ _ _ _ _ _ _ _ _ Fc) as (_ & C1 & C2 & C3 & C4 & C5 & C6 & _).
  constructor; rewrite ?cnt_app; try lia.
  - apply keeps_insert.
  - intros k. rewrite !cnt_app, (cnt_norows_f c k new Fr). lia.
  - intros k. rewrite !cnt_app, (cnt_norows_l c k new Fr). lia.
Qed.

Lemma grows_store c ds tl tl' dD dT dLC dLT :
  store_ok c tl ds -> grows c ds tl tl' dD 0 dT dLC 0 dLT -> store_ok c tl' ds.
Proof.
  intros S [K HD HP HT HLC HLP HLT HR HLR].
  apply (store_ok_same c tl tl' ds S K); try lia.
  - intros k. rewrite HR. lia.
  - intros k. rewrite HLR. lia.
Qed.

Lemma extends_insert l1 l2 new : extends (l1 ++ l2) (l1 ++ new ++ l2).
Proof.
  intros q h. rewrite !hasP_app.
  destruct (hasP q h l1), (hasP q h l2), (hasP q h new); simpl; auto.
Qed.

Lemma extends_refl tl : extends tl tl.
Proof. intros q h H. exact H. Qed.

Lemma grows_refl c ds tl : grows c ds tl tl 0 0 0 0 0 0.
Proof. constructor; try lia; auto. apply keeps_refl. Qed.

Lemma find_id_cnt x l e : find_id x l = Some e -> 1 <= cnt x l.
Proof.
  intros H. destruct (cnt x l) eqn:E; [|lia].
  apply find_id_none in E. congruence.
Qed.

(** ** The ids as selectors *)

Section Frame.

Variable c : string.
Variables (pre : list elem) (r : elem) (post : list elem).
Hypothesis Hid : is_ident c = true.

Lemma ident_suffix (s : string) :
  all_chars is_name_char s = true -> is_ident (c +:+ s) = true.
Proof. now apply is_ident_app. Qed.

Lemma alnum_name_chars (k : string) :
  all_chars is_alnum k = true -> all_chars is_name_char k = true.
Proof.
  induction k as [|a k IH]; simpl; [reflexivity|].
  intros H. apply andb_true_iff in H as [Ha Hk]. rewrite (IH Hk).
  unfold is_name_char. now rewrite Ha.
Qed.

Lemma safe_key_alnum k : safe_key k = true -> all_chars is_alnum k = true.
Proof. unfold safe_key. intros H. now apply andb_true_iff in H as [H _]. Qed.

Lemma safe_key_not_proto k : safe_key k = true -> is_prototype_key k = false.
Proof.
  unfold safe_key. intros H. apply andb_true_iff in H as [_ H].
  now apply negb_true_iff in H.
Qed.

Lemma ident_frow k : safe_key k = true -> is_ident (idR c k) = true.
Proof.
  intros H. apply ident_suffix. unfold fallbackTableElId. rewrite all_chars_app.
  now rewrite (alnum_name_chars k (safe_key_alnum k H)).
Qed.

Lemma ident_lrow k : safe_key k = true -> is_ident (idLR c k) = true.
Proof.
  intros H. apply ident_suffix. unfold labelTableElId. rewrite all_chars_app.
  now rewrite (alnum_name_chars k (safe_key_alnum k H)).
Qed.

Lemma ident_canvas_nonempty : c <> "".
Proof. intros ->. discriminate. Qed.

(** The query for one of the ids of the module, in a state of the frame. *)
Lemma qs_id st tl x :
  dom st = pre ++ r :: tl ++ post ->
  framed pre r tl post ->
  is_ident x = true ->
  qs (Some (node r)) ("#" +:+ x) st = (Normal (find_id x tl), st).
Proof. apply qs_framed. Qed.

Lemma find_canvas n tl :
  structure_ok c pre r post n tl ->
  exists a cv b, tl = a ++ cv :: b /\ find_id c tl = Some cv /\ eid cv = c /\
    depth cv = depth r + 1 /\ cnt c a = 0 /\ cnt c b = 0.
Proof.
  intros S. pose proof S as [Sfr Snx Scv Sdp Sout Sf1 Sf0 Sfo Sfs Sfw Sl1 Sl0 Slo Sls Slw].
  destruct (find_id_some c tl) as [cv E]; [lia|].
  destruct (find_id_split _ _ _ E) as (a & b & -> & Ha & He).
  exists a, cv, b. repeat split; auto.
  - apply Forall_app in Sdp as [_ Sdp]. apply Forall_cons in Sdp as [Sdp _].
    apply depth_ok_spec in Sdp as (H & _). apply H. now apply eidb_eq.
  - rewrite cnt_app in Scv. simpl in Scv.
    assert (eidb c cv = true) by now apply eidb_eq. rewrite H in Scv. lia.
Qed.

(** An element of [tl] found by its id, with its depth. *)
Lemma find_fixed n tl x e :
  structure_ok c pre r post n tl ->
  find_id x tl = Some e ->
  exists a b, tl = a ++ e :: b /\ eid e = x /\ cnt x a = 0 /\
    depth_ok c (depth r) e = true.
Proof.
  intros S E. destruct (find_id_split _ _ _ E) as (a & b & -> & Ha & He).
  exists a, b. repeat split; auto.
  destruct S as [_ _ _ Sdp _ _ _ _ _ _ _ _ _ _ _].
  apply Forall_app in Sdp as [_ Sdp]. now apply Forall_cons in Sdp as [Sdp _].
Qed.

(** Filling the canvas with the fallback container when there is none. *)
Lemma pristine_replace n a cv sub rest ds new m dP dT :
  structure_ok c pre r post n (a ++ cv :: sub ++ rest) ->
  store_ok c (a ++ cv :: sub ++ rest) ds ->
  cnt (idD c) (a ++ cv :: sub ++ rest) = 0 ->
  eid cv = c ->
  fragment c (depth r) n m new [0; 1; dP; dT; 0; 0; 0; 0; 0] ->
  dP + dT = 1 ->
  structure_ok c pre r post (n + m) (a ++ cv :: new ++ rest) /\
  grows c ds (a ++ cv :: sub ++ rest) (a ++ cv :: new ++ rest) 1 dP dT 0 0 0 /\
  labels c (a ++ cv :: new ++ rest) = labels c (a ++ cv :: sub ++ rest).
Proof.
  intros S St D0 Hcv F HPT.
  pose proof S as [Sfr Snx Scv Sdp Sout Sf1 Sf0 Sfo Sfs Sfw Sl1 Sl0 Slo Sls Slw].
  assert (Ecv : eidb c cv = true) by now apply eidb_eq.
  assert (Csub : cnt c sub = 0).
  { rewrite !cnt_app in Scv. simpl in Scv. rewrite cnt_app, Ecv in Scv. lia. }
  replace (a ++ cv :: sub ++ rest) with ((a ++ [cv]) ++ sub ++ rest) in * by now list_norm.
  replace (a ++ cv :: new ++ rest) with ((a ++ [cv]) ++ new ++ rest) by now list_norm.
  destruct (structure_ok_delete c pre r post n (a ++ [cv]) sub rest S D0 Csub) as [S' Hm].
  destruct (Forall_module_split c _ Hm) as [Hf Hl].
  destruct (no_fallback_counts c _ Hf) as (D0' & P0 & T0 & R0).
  destruct (no_label_counts c _ Hl) as (LC0 & LP0 & LT0 & LR0).
  specialize (Sf0 D0).
  assert (Hf0 : Forall (fun e => is_fallback_elem c e = false) ((a ++ [cv]) ++ sub ++ rest)).
  { eapply Forall_impl; [exact Sf0|]. intros e He. apply He. }
  assert (Hl0 : Forall (fun e => is_label_elem c e = false) ((a ++ [cv]) ++ sub ++ rest)).
  { eapply Forall_impl; [exact Sf0|]. intros e He. apply He. }
  destruct (no_fallback_counts c _ Hf0) as (_ & P1 & T1 & R1).
  destruct (no_label_counts c _ Hl0) as (LC1 & LP1 & LT1 & LR1).
  split; [|split].
  - eapply structure_ok_markup; eauto; rewrite ?D0', ?P0, ?T0, ?LC0, ?LP0, ?LT0; try lia.
    + left. rewrite cnt_app in T0. lia.
    + right. rewrite cnt_app in P0. lia.
  - destruct F as [Fc Fr _ _ _ _].
    destruct (census_counts _ _ _ _ _ _ _ _ _ _ _ Fc)
      as (_ & C1 & C2 & C3 & C4 & C5 & C6 & _).
    constructor; rewrite ?D0, ?P1, ?T1, ?LC1, ?LP1, ?LT1.
    + left. now apply St.
    + rewrite !cnt_app in *. lia.
    + rewrite !cnt_app in *. lia.
    + rewrite !cnt_app in *. lia.
    + rewrite !cnt_app in *. lia.
    + rewrite !cnt_app in *. lia.
    + rewrite !cnt_app in *. lia.
    + intros k. rewrite R1. specialize (R0 k). rewrite !cnt_app in *.
      rewrite (cnt_norows_f c k new Fr). lia.
    + intros k. rewrite LR1. specialize (LR0 k). rewrite !cnt_app in *.
      rewrite (cnt_norows_l c k new Fr). lia.
  - rewrite (labels_none c _ Hl0). apply labels_none.
    rewrite !Forall_app in *. destruct Hl as [[H1 H3] H2].
    split; [split; assumption|]. split; [|assumption].
    eapply fragment_no_label; eauto.
Qed.

Lemma fallback_table_block_ok st tl :
  dom st = pre ++ r :: tl ++ post ->
  structure_ok c pre r post (next st) tl ->
  store_ok c tl (the_descs st) ->
  exists st' tl' dD dT,
    fallback_table_block (Some (node r)) c st = (Normal tt, st') /\
    dom st' = pre ++ r :: tl' ++ post /\
    descs st' = descs st /\ dummyDOM st' = dummyDOM st /\
    structure_ok c pre r post (next st') tl' /\
    grows c (the_descs st) tl tl' dD 0 dT 0 0 0 /\
    cnt (idD c) tl' = 1 /\ cnt (idT c) tl' = 1 /\
    labels c tl' = labels c tl.
Proof.
  intros Hd S St.
  pose proof S as [Sfr Snx Scv Sdp Sout Sf1 Sf0 Sfo Sfs Sfw Sl1 Sl0 Slo Sls Slw].
  unfold fallback_table_block.
  rewrite (bind_normal _ _ _ _ _ (qs_id st tl _ Hd Sfr (ident_suffix descContainer eq_refl))).
  destruct (find_id (idD c) tl) as [d|] eqn:ED.
  - apply find_id_cnt in ED. assert (D1 : cnt (idD c) tl = 1) by lia.
    rewrite (bind_normal _ _ _ _ _ (qs_id st tl _ Hd Sfr (ident_suffix fallbackTableId eq_refl))).
    destruct (find_id (idT c) tl) as [t|] eqn:ET.
    + apply find_id_cnt in ET.
      exists st, tl, 0, 0. conj; auto; try lia. apply grows_refl.
    + apply find_id_none in ET. specialize (Sfs D1).
      destruct (find_id_some (idP c) tl) as [p EP]; [lia|].
      rewrite (bind_normal _ _ _ _ _ (qs_id st tl _ Hd Sfr (ident_suffix fallbackDescId eq_refl))).
      rewrite EP. simpl on_node.
      destruct (find_fixed _ _ _ _ S EP) as (a & b & -> & Hp & Ha & Hdp).
      apply depth_ok_spec in Hdp as (_ & _ & Hdp & _).
      assert (Ep : eidb (idP c) p = true) by now apply eidb_eq. specialize (Hdp Ep).
      destruct (insert_after_framed pre r a p b post (next st) (fallback_table_markup c) Sfr)
        as (sub & rest & -> & Hs & E).
      unfold insertAdjacentHTML. rewrite Hd, E, Hdp.
      pose proof (fragment_fallback_table c (depth r) (next st) Hid) as F.
      replace (a ++ p :: sub ++ rest) with ((a ++ p :: sub) ++ rest) in * by now list_norm.
      replace (a ++ p :: sub ++ place (depth r + 3) (next st) (fallback_table_markup c) ++ rest)
        with ((a ++ p :: sub) ++ place (depth r + 3) (next st) (fallback_table_markup c) ++ rest)
        by now list_norm.
      eexists _, _, 0, 1. split; [reflexivity|]. cbn [dom next descs dummyDOM set_next set_dom].
      split; [reflexivity|]. split; [reflexivity|]. split; [reflexivity|].
      pose proof (grows_insert c (the_descs st) (a ++ p :: sub) rest _ _ _ _ _ _ _ _ _ _ F) as G.
      split; [|split; [exact G|]].
      * eapply structure_ok_markup; eauto; try lia.
        right. destruct Sf1 as (_ & HP1 & _). rewrite !cnt_app in HP1. simpl in HP1.
        rewrite Ep in HP1. lia.
      * destruct G as [_ GD _ GT _ _ _ _ _]. conj; try lia.
        apply labels_insert. eapply fragment_no_label; eauto.
  - apply find_id_none in ED. destruct Sout as [A0 AL0].
    rewrite (bind_normal _ _ _ _ _ (qs_id st tl _ Hd Sfr (ident_suffix "accessibleOutput" eq_refl))).
    apply find_id_none in A0. rewrite A0.
    rewrite (bind_normal _ _ _ _ _ (qs_id st tl _ Hd Sfr Hid)).
    destruct (find_canvas _ _ S) as (a & cv & b & -> & Ec & Hcv & Hdc & _). rewrite Ec.
    simpl on_node.
    destruct (replace_children_framed pre r a cv b post (next st) (fallback_elements_markup c) Sfr)
      as (sub & rest & -> & Hs & E).
    unfold set_innerHTML_markup. rewrite Hd, E, Hdc.
    replace (Datatypes.S (depth r + 1)) with (depth r + 2) by lia.
    pose proof (fragment_fallback_elements c (depth r) (next st) Hid) as F.
    destruct (pristine_replace _ _ _ _ _ _ _ _ _ _ S St ED Hcv F eq_refl) as (S' & G & L).
    eexists _, _, 1, 1. split; [reflexivity|]. cbn [dom next descs dummyDOM set_next set_dom].
    conj; auto.
    + destruct G as [_ GD _ _ _ _ _ _ _]. lia.
    + destruct G as [_ _ _ GT _ _ _ _ _]. destruct Sf1 as (_ & _ & HT1).
      assert (cnt (idT c) (a ++ cv :: sub ++ rest) = 0); [|lia].
      specialize (Sf0 ED). apply (cnt_avoid (is_fallback_elem c)).
      * intros e He. unfold is_fallback_elem. now rewrite He, !orb_true_r.
      * eapply Forall_impl; [exact Sf0|]. intros e He. apply He.
Qed.

Lemma fallback_desc_block_ok st tl :
  dom st = pre ++ r :: tl ++ post ->
  structure_ok c pre r post (next st) tl ->
  store_ok c tl (the_descs st) ->
  cnt (idP c) tl = 0 ->
  exists st' tl' dD,
    fallback_desc_block (Some (node r)) c st = (Normal tt, st') /\
    dom st' = pre ++ r :: tl' ++ post /\
    descs st' = descs st /\ dummyDOM st' = dummyDOM st /\
    structure_ok c pre r post (next st') tl' /\
    grows c (the_descs st) tl tl' dD 1 0 0 0 0 /\
    cnt (idD c) tl' = 1 /\ cnt (idP c) tl' = 1 /\
    labels c tl' = labels c tl.
Proof.
  intros Hd S St P0.
  pose proof S as [Sfr Snx Scv Sdp Sout Sf1 Sf0 Sfo Sfs Sfw Sl1 Sl0 Slo Sls Slw].
  unfold fallback_desc_block.
  rewrite (bind_normal _ _ _ _ _ (qs_id st tl _ Hd Sfr (ident_suffix descContainer eq_refl))).
  destruct (find_id (idD c) tl) as [d|] eqn:ED.
  - apply find_id_cnt in ED. assert (D1 : cnt (idD c) tl = 1) by lia.
    specialize (Sfs D1).
    destruct (find_id_some (idT c) tl) as [t ET]; [lia|].
    rewrite (bind_normal _ _ _ _ _ (qs_id st tl _ Hd Sfr (ident_suffix fallbackTableId eq_refl))).
    rewrite ET. simpl on_node.
    destruct (find_fixed _ _ _ _ S ET) as (a & b & -> & Ht & Ha & Hdt).
    apply depth_ok_spec in Hdt as (_ & _ & _ & Hdt & _).
    assert (Et : eidb (idT c) t = true) by now apply eidb_eq. specialize (Hdt Et).
    unfold insertAdjacentHTML.
    rewrite Hd, (insert_before_framed pre r a t b post (next st) (fallback_p_markup c) Sfr), Hdt.
    pose proof (fragment_fallback_p c (depth r) (next st)) as F.
    eexists _, _, 0. split; [reflexivity|]. cbn [dom next descs dummyDOM set_next set_dom].
    split; [reflexivity|]. split; [reflexivity|]. split; [reflexivity|].
    pose proof (grows_insert c (the_descs st) a (t :: b) _ _ _ _ _ _ _ _ _ _ F) as G.
    split; [|split; [exact G|]].
    + eapply structure_ok_markup; eauto; try lia.
    + destruct G as [_ GD GP _ _ _ _ _ _]. conj; try lia.
      apply labels_insert. eapply fragment_no_label; eauto.
  - apply find_id_none in ED. destruct Sout as [A0 AL0].
    rewrite (bind_normal _ _ _ _ _ (qs_id st tl _ Hd Sfr (ident_suffix "accessibleOutput" eq_refl))).
    apply find_id_none in A0. rewrite A0.
    rewrite (bind_normal _ _ _ _ _ (qs_id st tl _ Hd Sfr Hid)).
    destruct (find_canvas _ _ S) as (a & cv & b & -> & Ec & Hcv & Hdc & _). rewrite Ec.
    simpl on_node.
    destruct (replace_children_framed pre r a cv b post (next st) (fallback_desc_markup c) Sfr)
      as (sub & rest & -> & Hs & E).
    unfold set_innerHTML_markup. rewrite Hd, E, Hdc.
    replace (Datatypes.S (depth r + 1)) with (depth r + 2) by lia.
    pose proof (fragment_fallback_desc c (depth r) (next st)) as F.
    destruct (pristine_replace _ _ _ _ _ _ _ _ _ _ S St ED Hcv F eq_refl) as (S' & G & L).
    eexists _, _, 1. split; [reflexivity|]. cbn [dom next descs dummyDOM set_next set_dom].
    conj; auto.
    + destruct G as [_ GD _ _ _ _ _ _ _]. lia.
    + destruct G as [_ _ GP _ _ _ _ _ _]. lia.
Qed.

Lemma no_label_zero n tl :
  structure_ok c pre r post n tl -> cnt (idLC c) tl = 0 ->
  cnt (idLP c) tl = 0 /\ cnt (idLT c) tl = 0.
Proof.
  intros S H. destruct S as [_ _ _ _ _ _ _ _ _ _ _ Sl0 _ _ _].
  destruct (no_label_counts c tl (Sl0 H)) as (_ & H1 & H2 & _). auto.
Qed.

Lemma label_desc_block_ok st tl :
  dom st = pre ++ r :: tl ++ post ->
  structure_ok c pre r post (next st) tl ->
  cnt (idD c) tl = 1 ->
  cnt (idLP c) tl = 0 ->
  exists st' tl' dLC,
    label_desc_block (Some (node r)) c st = (Normal tt, st') /\
    dom st' = pre ++ r :: tl' ++ post /\
    descs st' = descs st /\ dummyDOM st' = dummyDOM st /\
    structure_ok c pre r post (next st') tl' /\
    grows c (the_descs st) tl tl' 0 0 0 dLC 1 0 /\
    cnt (idLC c) tl' = 1 /\ cnt (idLP c) tl' = 1 /\ extends tl tl'.
Proof.
  intros Hd S D1 P0.
  pose proof S as [Sfr Snx Scv Sdp Sout Sf1 Sf0 Sfo Sfs Sfw Sl1 Sl0 Slo Sls Slw].
  unfold label_desc_block.
  rewrite (bind_normal _ _ _ _ _ (qs_id st tl _ Hd Sfr (ident_suffix labelContainer eq_refl))).
  destruct (find_id (idLC c) tl) as [d|] eqn:ED.
  - apply find_id_cnt in ED. assert (C1 : cnt (idLC c) tl = 1) by lia.
    specialize (Sls C1).
    destruct (find_id_some (idLT c) tl) as [t ET]; [lia|].
    rewrite (bind_normal _ _ _ _ _ (qs_id st tl _ Hd Sfr (ident_suffix labelTableId eq_refl))).
    rewrite ET.
    rewrite (bind_normal _ _ _ _ _ (qs_id st tl _ Hd Sfr (ident_suffix labelTableId eq_refl))).
    rewrite ET. simpl on_node.
    destruct (find_fixed _ _ _ _ S ET) as (a & b & -> & Ht & Ha & Hdt).
    apply depth_ok_spec in Hdt as (_ & _ & _ & _ & _ & _ & _ & Hdt & _).
    assert (Et : eidb (idLT c) t = true) by now apply eidb_eq. specialize (Hdt Et).
    unfold insertAdjacentHTML.
    rewrite Hd, (insert_before_framed pre r a t b post (next st) (label_p_markup c) Sfr), Hdt.
    pose proof (fragment_label_p c (depth r) (next st)) as F.
    eexists _, _, 0. split; [reflexivity|]. cbn [dom next descs dummyDOM set_next set_dom].
    split; [reflexivity|]. split; [reflexivity|]. split; [reflexivity|].
    pose proof (grows_insert c (the_descs st) a (t :: b) _ _ _ _ _ _ _ _ _ _ F) as G.
    split; [|split; [exact G|]].
    + eapply structure_ok_markup; eauto; try lia.
    + destruct G as [_ _ _ _ GLC GLP _ _ _]. conj; try lia. apply extends_insert.
  - apply find_id_none in ED. destruct Sout as [A0 AL0].
    destruct (no_label_zero _ _ S ED) as [LP0 LT0].
    rewrite (bind_normal _ _ _ _ _
               (qs_id st tl _ Hd Sfr (ident_suffix "accessibleOutputLabel" eq_refl))).
    apply find_id_none in AL0. rewrite AL0.
    rewrite (bind_normal _ _ _ _ _ (qs_id st tl _ Hd Sfr Hid)).
    destruct (find_canvas _ _ S) as (a & cv & b & -> & Ec & Hcv & Hdc & _). rewrite Ec.
    simpl on_node.
    destruct (insert_after_framed pre r a cv b post (next st) (label_desc_markup c) Sfr)
      as (sub & rest & -> & Hs & E).
    unfold insertAdjacentHTML. rewrite Hd, E, Hdc.
    pose proof (fragment_label_desc c (depth r) (next st)) as F.
    replace (a ++ cv :: sub ++ rest) with ((a ++ cv :: sub) ++ rest) in * by now list_norm.
    replace (a ++ cv :: sub ++ place (depth r + 1) (next st) (label_desc_markup c) ++ rest)
      with ((a ++ cv :: sub) ++ place (depth r + 1) (next st) (label_desc_markup c) ++ rest)
      by now list_norm.
    eexists _, _, 1. split; [reflexivity|]. cbn [dom next descs dummyDOM set_next set_dom].
    split; [reflexivity|]. split; [reflexivity|]. split; [reflexivity|].
    pose proof (grows_insert c (the_descs st) (a ++ cv :: sub) rest _ _ _ _ _ _ _ _ _ _ F) as G.
    split; [|split; [exact G|]].
    + specialize (Sfs D1).
      eapply structure_ok_markup; eauto; try lia.
      left. rewrite cnt_app in LT0. lia.
    + destruct G as [_ _ _ _ GLC GLP _ _ _]. conj; try lia. apply extends_insert.
Qed.

Lemma label_table_block_ok st tl :
  dom st = pre ++ r :: tl ++ post ->
  structure_ok c pre r post (next st) tl ->
  cnt (idD c) tl = 1 ->
  exists st' tl' dLC dLT,
    label_table_block (Some (node r)) c st = (Normal tt, st') /\
    dom st' = pre ++ r :: tl' ++ post /\
    descs st' = descs st /\ dummyDOM st' = dummyDOM st /\
    structure_ok c pre r post (next st') tl' /\
    grows c (the_descs st) tl tl' 0 0 0 dLC 0 dLT /\
    cnt (idLC c) tl' = 1 /\ cnt (idLT c) tl' = 1 /\ extends tl tl'.
Proof.
  intros Hd S D1.
  pose proof S as [Sfr Snx Scv Sdp Sout Sf1 Sf0 Sfo Sfs Sfw Sl1 Sl0 Slo Sls Slw].
  unfold label_table_block.
  rewrite (bind_normal _ _ _ _ _ (qs_id st tl _ Hd Sfr (ident_suffix labelContainer eq_refl))).
  destruct (find_id (idLC c) tl) as [d|] eqn:ED.
  - apply find_id_cnt in ED. assert (C1 : cnt (idLC c) tl = 1) by lia.
    rewrite (bind_normal _ _ _ _ _ (qs_id st tl _ Hd Sfr (ident_suffix labelTableId eq_refl))).
    destruct (find_id (idLT c) tl) as [t|] eqn:ET.
    + apply find_id_cnt in ET.
      exists st, tl, 0, 0. conj; auto; try lia; [apply grows_refl | apply extends_refl].
    + apply find_id_none in ET. specialize (Sls C1).
      destruct (find_id_some (idLP c) tl) as [p EP]; [lia|].
      rewrite (bind_normal _ _ _ _ _ (qs_id st tl _ Hd Sfr (ident_suffix labelDescId eq_refl))).
      rewrite EP. simpl on_node.
      destruct (find_fixed _ _ _ _ S EP) as (a & b & -> & Hp & Ha & Hdp).
      apply depth_ok_spec in Hdp as (_ & _ & _ & _ & _ & _ & Hdp & _).
      assert (Ep : eidb (idLP c) p = true) by now apply eidb_eq. specialize (Hdp Ep).
      destruct (insert_after_framed pre r a p b post (next st) (label_table_markup c) Sfr)
        as (sub & rest & -> & Hs & E).
      unfold insertAdjacentHTML. rewrite Hd, E, Hdp.
      pose proof (fragment_label_table c (depth r) (next st)) as F.
      replace (a ++ p :: sub ++ rest) with ((a ++ p :: sub) ++ rest) in * by now list_norm.
      replace (a ++ p :: sub ++ place (depth r + 2) (next st) (label_table_markup c) ++ rest)
        with ((a ++ p :: sub) ++ place (depth r + 2) (next st) (label_table_markup c) ++ rest)
        by now list_norm.
      eexists _, _, 0, 1. split; [reflexivity|]. cbn [dom next descs dummyDOM set_next set_dom].
      split; [reflexivity|]. split; [reflexivity|]. split; [reflexivity|].
      pose proof (grows_insert c (the_descs st) (a ++ p :: sub) rest _ _ _ _ _ _ _ _ _ _ F) as G.
      split; [|split; [exact G|]].
      * specialize (Sfs D1).
        eapply structure_ok_markup; eauto; try lia.
        right. destruct Sl1 as (_ & HP1 & _). rewrite !cnt_app in HP1. simpl in HP1.
        rewrite Ep in HP1. lia.
      * destruct G as [_ _ _ _ GLC _ GLT _ _]. conj; try lia. apply extends_insert.
  - apply find_id_none in ED. destruct Sout as [A0 AL0].
    destruct (no_label_zero _ _ S ED) as [LP0 LT0].
    rewrite (bind_normal _ _ _ _ _
               (qs_id st tl _ Hd Sfr (ident_suffix "accessibleOutputLabel" eq_refl))).
    apply find_id_none in AL0. rewrite AL0.
    rewrite (bind_normal _ _ _ _ _ (qs_id st tl _ Hd Sfr Hid)).
    destruct (find_canvas _ _ S) as (a & cv & b & -> & Ec & Hcv & Hdc & _). rewrite Ec.
    simpl on_node.
    destruct (insert_after_framed pre r a cv b post (next st) (label_elements_markup c) Sfr)
      as (sub & rest & -> & Hs & E).
    unfold insertAdjacentHTML. rewrite Hd, E, Hdc.
    pose proof (fragment_label_elements c (depth r) (next st)) as F.
    replace (a ++ cv :: sub ++ rest) with ((a ++ cv :: sub) ++ rest) in * by now list_norm.
    replace (a ++ cv :: sub ++ place (depth r + 1) (next st) (label_elements_markup c) ++ rest)
      with ((a ++ cv :: sub) ++ place (depth r + 1) (next st) (label_elements_markup c) ++ rest)
      by now list_norm.
    eexists _, _, 1, 1. split; [reflexivity|]. cbn [dom next descs dummyDOM set_next set_dom].
    split; [reflexivity|]. split; [reflexivity|]. split; [reflexivity|].
    pose proof (grows_insert c (the_descs st) (a ++ cv :: sub) rest _ _ _ _ _ _ _ _ _ _ F) as G.
    split; [|split; [exact G|]].
    + specialize (Sfs D1).
      eapply structure_ok_markup; eauto; try lia.
      right. rewrite cnt_app in LP0. lia.
    + destruct G as [_ _ _ _ GLC _ GLT _ _]. conj; try lia. apply extends_insert.
Qed.

End Frame.

(** ** The two operations in terms of their parts *)

Lemma describe_parts c L (t : string) (display : jsval) :
  describe c L (VString t) display =
  (text <- lift (_descriptionText t) ;;
   locate_dummyDOM c ;;;
   init_descriptions ;;;
   ds <- gets the_descs ;;
   describe_fallback c text ds ;;;
   if strict_eq display L then
     ds <- gets the_descs ;;
     describe_label c text ds
   else ret tt).
Proof. reflexivity. Qed.

Lemma describeElement_parts c L (n t : string) (display : jsval) :
  describeElement c L (VString n) (VString t) display =
  (text <- lift (_descriptionText t) ;;
   elementName <- lift (_elementName n) ;;
   locate_dummyDOM c ;;;
   init_fallbackElements ;;;
   ds <- gets the_descs ;;
   describeElement_fallback c (sanitize n) (row_inner elementName text) ds ;;;
   if strict_eq display L then
     init_labelElements ;;;
     ds <- gets the_descs ;;
     describeElement_label c (sanitize n) (row_inner elementName text) ds
   else ret tt).
Proof. reflexivity. Qed.

(** ** Housekeeping steps *)

Lemma store_ok_views c tl ds ds' :
  fallback ds' = fallback ds -> label ds' = label ds ->
  fmap ds' = fmap ds -> lmap ds' = lmap ds ->
  store_ok c tl ds -> store_ok c tl ds'.
Proof.
  intros E1 E2 E3 E4 S.
  destruct S as [Sf0 Sl0 Sfb Sfb' Slb Slb' Sfr Sfr' Slr Slr' Spr Sfn Sln].
  constructor; unfold store_empty in *; rewrite ?E1, ?E2, ?E3, ?E4; assumption.
Qed.

Lemma labels_set_html c h s l :
  NoDup (List.map node l) ->
  hasP (fun e => negb (is_label_elem c e)) h l = true ->
  labels c (set_html h s l) = labels c l.
Proof.
  intros Hnd Hh. induction l as [|e l IH]; simpl; [reflexivity|].
  simpl in Hh. apply NoDup_cons in Hnd as [Hn Hnd].
  destruct (Nat.eqb (node e) h) eqn:E; simpl.
  - change (is_label_elem c (with_html s e)) with (is_label_elem c e).
    destruct (is_label_elem c e) eqn:L; [|reflexivity].
    simpl in Hh. exfalso. apply hasP_handle in Hh. apply Nat.eqb_eq in E.
    rewrite <- E in Hh. apply Hn. now apply list_elem_of_In.
  - simpl in Hh. rewrite (IH Hnd Hh). reflexivity.
Qed.

Lemma find_id_hasP x l e : find_id x l = Some e -> hasP (eidb x) (node e) l = true.
Proof.
  intros H. destruct (find_id_split _ _ _ H) as (a & b & -> & _ & He).
  apply hasP_true. exists e. split; [apply in_or_app; right; now left|].
  split; [reflexivity | now apply eidb_eq].
Qed.

Lemma hasP_weaken (p q : elem -> bool) h l :
  (forall e, p e = true -> q e = true) -> hasP p h l = true -> hasP q h l = true.
Proof.
  intros Hpq H. apply hasP_true in H as (e & He & Hn & Hp).
  apply hasP_true. exists e. auto.
Qed.

Lemma hasP_cnt x h l : hasP (eidb x) h l = true -> 1 <= cnt x l.
Proof.
  intros H. apply hasP_true in H as (e & He & _ & Hp).
  apply in_split in He as (a & b & ->). rewrite cnt_app. simpl. rewrite Hp. lia.
Qed.

Lemma fmap_set_fallback x ds : fmap (set_fallback x ds) = fmap ds.
Proof. reflexivity. Qed.
Lemma lmap_set_fallback x ds : lmap (set_fallback x ds) = lmap ds.
Proof. reflexivity. Qed.
Lemma fmap_set_label x ds : fmap (set_label x ds) = fmap ds.
Proof. reflexivity. Qed.
Lemma lmap_set_label x ds : lmap (set_label x ds) = lmap ds.
Proof. reflexivity. Qed.
Lemma fmap_set_fallbackElements m ds : fmap (set_fallbackElements (Some m) ds) = m.
Proof. reflexivity. Qed.
Lemma lmap_set_fallbackElements m ds : lmap (set_fallbackElements m ds) = lmap ds.
Proof. reflexivity. Qed.
Lemma fmap_set_labelElements m ds : fmap (set_labelElements m ds) = fmap ds.
Proof. reflexivity. Qed.
Lemma lmap_set_labelElements m ds : lmap (set_labelElements (Some m) ds) = m.
Proof. reflexivity. Qed.

Ltac store_views :=
  rewrite ?fmap_set_fallback, ?lmap_set_fallback, ?fmap_set_label, ?lmap_set_label,
    ?fmap_set_fallbackElements, ?lmap_set_fallbackElements,
    ?fmap_set_labelElements, ?lmap_set_labelElements;
  cbn [fallback label set_fallback set_label set_fallbackElements set_labelElements].

Lemma shows_set_html h s l :
  hasP (fun _ => true) h l = true -> shows (set_html h s l) h s.
Proof.
  unfold shows, hasP. induction l as [|e l IH]; simpl; [discriminate|].
  destruct (Nat.eqb (node e) h) eqn:E; simpl.
  - intros _. now rewrite E, String.eqb_refl.
  - intros H. rewrite E. simpl. now apply IH.
Qed.

Lemma extends_but_set_html h s l : extends_but h l (set_html h s l).
Proof.
  intros q h0 Hne. unfold hasP. induction l as [|e l IH]; simpl; [auto|].
  destruct (Nat.eqb (node e) h) eqn:E; simpl.
  - apply Nat.eqb_eq in E. destruct (Nat.eqb (node e) h0) eqn:E0; [|auto].
    apply Nat.eqb_eq in E0. congruence.
  - destruct (Nat.eqb (node e) h0 && q e); simpl; auto.
Qed.

Lemma extends_extends_but h tl tl' tl'' :
  extends tl tl' -> extends_but h tl' tl'' -> extends_but h tl tl''.
Proof. intros H1 H2 q h0 Hne H. apply H2; auto. Qed.

Lemma get_html_shows l h s :
  NoDup (List.map node l) -> shows l h s -> get_html l h = Some s.
Proof.
  unfold shows, hasP, get_html. induction l as [|e l IH]; simpl; [discriminate|].
  intros Hnd. apply NoDup_cons in Hnd as [Hn Hnd].
  destruct (Nat.eqb (node e) h) eqn:E; simpl.
  - destruct (String.eqb (html e) s) eqn:Es.
    + intros _. apply String.eqb_eq in Es. now rewrite Es.
    + simpl. intros H. exfalso. apply Hn. apply Nat.eqb_eq in E. rewrite E.
      apply existsb_exists in H as (x & Hx & H). apply andb_true_iff in H as [H _].
      apply Nat.eqb_eq in H. rewrite <- H. apply list_elem_of_In. now apply in_map.
  - now apply IH.
Qed.

Lemma store_ok_set_fallback c tl tl' ds h dD :
  store_ok c tl ds ->
  grows c ds tl tl' dD 1 0 0 0 0 ->
  cnt (idD c) tl' = 1 ->
  hasP (eidb (idP c)) h tl' = true ->
  store_ok c tl' (set_fallback (Some h) ds).
Proof.
  intros S [K HD HP HT HLC HLP HLT HR HLR] D1 Hh.
  apply (store_ok_step c tl tl' ds _ S K); store_views.
  - intros h' [= <-]. now right.
  - intros h' H. now left.
  - intros k h' H. now left.
  - intros k h' H. now left.
  - apply S.
  - discriminate.
  - intros H. apply S. lia.
  - intros k Hk H. apply S; [assumption|]. rewrite HR in H. lia.
  - intros k Hk H. apply S; [assumption|]. rewrite HLR in H. lia.
  - intros H. lia.
  - intros H. apply S. lia.
Qed.

Lemma store_ok_set_label c tl tl' ds h dLC :
  store_ok c tl ds ->
  grows c ds tl tl' 0 0 0 dLC 1 0 ->
  cnt (idD c) tl = 1 ->
  cnt (idLC c) tl' = 1 ->
  hasP (eidb (idLP c)) h tl' = true ->
  store_ok c tl' (set_label (Some h) ds).
Proof.
  intros S [K HD HP HT HLC HLP HLT HR HLR] D1 C1 Hh.
  apply (store_ok_step c tl tl' ds _ S K); store_views.
  - intros h' H. now left.
  - intros h' [= <-]. now right.
  - intros k h' H. now left.
  - intros k h' H. now left.
  - apply S.
  - intros H. apply S. lia.
  - discriminate.
  - intros k Hk H. apply S; [assumption|]. rewrite HR in H. lia.
  - intros k Hk H. apply S; [assumption|]. rewrite HLR in H. lia.
  - intros H. lia.
  - intros H. lia.
Qed.

Lemma nodup_node_inj (l : list elem) a b :
  NoDup (List.map node l) -> In a l -> In b l -> node a = node b -> a = b.
Proof.
  induction l as [|e l IH]; simpl; [contradiction|].
  intros Hnd Ha Hb E. apply NoDup_cons in Hnd as [Hn Hnd].
  assert (Hin : forall x, In x l -> node x = node e -> False).
  { intros x Hx Ex. apply Hn. rewrite <- Ex. apply list_elem_of_In. now apply in_map. }
  destruct Ha as [-> | Ha], Hb as [-> | Hb]; auto.
  - exfalso. apply (Hin b Hb). auto.
  - exfalso. apply (Hin a Ha). auto.
Qed.

(** Two properties of the same node of a page hold of one element. *)
Lemma hasP_both (p q : elem -> bool) h l :
  NoDup (List.map node l) -> hasP p h l = true -> hasP q h l = true ->
  exists e, In e l /\ node e = h /\ p e = true /\ q e = true.
Proof.
  intros Hnd Hp Hq. apply hasP_true in Hp as (e1 & H1 & N1 & P1).
  apply hasP_true in Hq as (e2 & H2 & N2 & P2).
  assert (e1 = e2) by (eapply nodup_node_inj; eauto; congruence). subst e2.
  exists e1. auto.
Qed.

Section Parts.

Variable c : string.
Variables (pre : list elem) (r : elem) (post : list elem).
Hypothesis Hframe : frame_ok c pre r post.

Lemma frame_id : is_ident c = true.
Proof. exact (frame_ident c pre r post Hframe). Qed.

Lemma frame_no_canvas : cnt c pre = 0 /\ eidb c r = false.
Proof.
  pose proof Hframe as [_ H]. apply Forall_app in H as [H1 H2].
  apply Forall_cons in H2 as [H2 _]. split.
  - apply cnt_zero_Forall. eapply Forall_impl; [exact H1|].
    intros e He. unfold host_elem in He. apply andb_true_iff in He as [_ He].
    now apply negb_true_iff in He.
  - unfold host_elem in H2. apply andb_true_iff in H2 as [_ H2].
    now apply negb_true_iff in H2.
Qed.

Lemma locate_ok st tl :
  inv c pre r post st tl ->
  exists st1, locate_dummyDOM c st = (Normal tt, st1) /\
    inv c pre r post st1 tl /\ dummyDOM st1 = Some (node r) /\
    dom st1 = dom st /\ descs st1 = descs st /\ next st1 = next st.
Proof.
  intros [Hd S St Hdd]. unfold locate_dummyDOM.
  destruct (dummyDOM st) as [h|] eqn:E.
  - destruct Hdd as [Hdd | Hdd]; [discriminate|]. injection Hdd as ->.
    exists st. conj; auto. constructor; auto.
  - destruct frame_no_canvas as [Hp Hr].
    destruct (find_canvas c pre r post _ _ S) as (a & cv & b & -> & Ec & Hcv & Hdc & _).
    pose proof S as [Sfr _ Scv _ _ _ _ _ _ _ _ _ _ _ _].
    rewrite Hd, (getElementById_framed c pre r _ post (ident_canvas_nonempty c frame_id) Hp Hr)
      by lia.
    rewrite Ec, (parentNode_framed pre r a cv b post Sfr) by lia.
    eexists. split; [reflexivity|]. conj; auto.
    constructor; auto.
Qed.

Lemma inv_views st st' tl :
  inv c pre r post st tl ->
  dom st' = dom st -> next st' = next st -> dummyDOM st' = dummyDOM st ->
  fallback (the_descs st') = fallback (the_descs st) ->
  label (the_descs st') = label (the_descs st) ->
  fmap (the_descs st') = fmap (the_descs st) ->
  lmap (the_descs st') = lmap (the_descs st) ->
  inv c pre r post st' tl.
Proof.
  intros [Hd S St Hdd] E1 E2 E3 E4 E5 E6 E7. constructor.
  - now rewrite E1.
  - now rewrite E2.
  - now apply (store_ok_views c tl (the_descs st)).
  - now rewrite E3.
Qed.

Lemma init_descriptions_ok st tl :
  inv c pre r post st tl ->
  exists st', init_descriptions st = (Normal tt, st') /\
    inv c pre r post st' tl /\ dummyDOM st' = dummyDOM st /\ dom st' = dom st /\
    next st' = next st /\
    the_descs st' = the_descs st /\ descs st' = Some (the_descs st).
Proof.
  intros I. unfold init_descriptions, modify. eexists. split; [reflexivity|].
  unfold the_descs. destruct (descs st) as [ds|] eqn:E; simpl; rewrite ?E; simpl.
  - conj; auto.
  - conj; auto. apply (inv_views st); auto; unfold the_descs; simpl; now rewrite E.
Qed.

Lemma init_fallbackElements_ok st tl :
  inv c pre r post st tl ->
  exists st', init_fallbackElements st = (Normal tt, st') /\
    inv c pre r post st' tl /\ dummyDOM st' = dummyDOM st /\ dom st' = dom st /\
    next st' = next st /\
    fallback (the_descs st') = fallback (the_descs st) /\
    label (the_descs st') = label (the_descs st) /\
    fmap (the_descs st') = fmap (the_descs st) /\
    lmap (the_descs st') = lmap (the_descs st) /\
    labelElements (the_descs st') = labelElements (the_descs st) /\
    descs st' = Some (the_descs st').
Proof.
  intros I. unfold init_fallbackElements, modify. eexists. split; [reflexivity|].
  unfold the_descs, fmap, lmap.
  destruct (descs st) as [ds|] eqn:E; simpl; rewrite ?E; simpl.
  - destruct (fallbackElements ds) as [m|] eqn:F; simpl; rewrite ?E; simpl.
    + conj; auto; try (now rewrite F).
    + conj; auto; try (now rewrite F).
      apply (inv_views st); auto; unfold the_descs, fmap, lmap; simpl; rewrite E; simpl;
        auto. now rewrite F.
  - conj; auto.
    apply (inv_views st); auto; unfold the_descs, fmap, lmap; simpl; rewrite E; simpl; auto.
Qed.

Lemma init_labelElements_ok st tl :
  inv c pre r post st tl ->
  descs st = Some (the_descs st) ->
  exists st', init_labelElements st = (Normal tt, st') /\
    inv c pre r post st' tl /\ dummyDOM st' = dummyDOM st /\ dom st' = dom st /\
    next st' = next st /\
    fallback (the_descs st') = fallback (the_descs st) /\
    label (the_descs st') = label (the_descs st) /\
    fmap (the_descs st') = fmap (the_descs st) /\
    lmap (the_descs st') = lmap (the_descs st) /\
    descs st' = Some (the_descs st').
Proof.
  intros I Hds. unfold init_labelElements, modify. eexists. split; [reflexivity|].
  destruct (labelElements (the_descs st)) as [m|] eqn:F.
  - conj; auto.
  - assert (E : the_descs (set_descs (Some (set_labelElements (Some ∅) (the_descs st))) st)
              = set_labelElements (Some ∅) (the_descs st)) by reflexivity.
    rewrite E. conj; auto.
    + apply (inv_views st); auto; rewrite E; auto.
      unfold lmap. simpl. now rewrite F.
    + unfold lmap. simpl. now rewrite F.
Qed.

(** Refreshing the content of a node of the page. *)
Lemma refresh_ok st tl h s :
  inv c pre r post st tl ->
  hasP (fun _ => true) h tl = true ->
  exists st', refresh h s st = (Normal tt, st') /\
    inv c pre r post st' (set_html h s tl) /\
    dummyDOM st' = dummyDOM st /\ descs st' = descs st /\ next st' = next st /\
    get_html (dom st') h = Some s.
Proof.
  intros [Hd S St Hdd] Hh.
  pose proof S as [Sfr _ _ _ _ _ _ _ _ _ _ _ _ _ _].
  assert (Hset : set_html h s (dom st) = pre ++ r :: set_html h s tl ++ post).
  { rewrite Hd. now apply set_html_framed. }
  assert (Hget : get_html (set_html h s (dom st)) h = Some s).
  { apply get_html_set_html_same. rewrite Hd. unfold hasP in *.
    rewrite existsb_app. simpl. rewrite existsb_app, Hh. simpl.
    now rewrite !orb_true_r. }
  assert (I' : forall st', dom st' = set_html h s (dom st) -> next st' = next st ->
             the_descs st' = the_descs st -> dummyDOM st' = dummyDOM st ->
             inv c pre r post st' (set_html h s tl)).
  { intros st' E1 E2 E3 E4. constructor.
    - now rewrite E1.
    - rewrite E2. now apply structure_ok_set_html.
    - rewrite E3. now apply store_ok_set_html.
    - now rewrite E4. }
  unfold refresh. case_bool_decide as E.
  - assert (Hsame : set_html h s (dom st) = dom st).
    { apply set_html_same; [|assumption]. rewrite Hd. apply Sfr. }
    exists st. conj; auto; try (apply I'; auto); congruence.
  - eexists. split; [reflexivity|]. conj; auto; apply I'; auto.
Qed.

Lemma P_not_label e : eidb (idP c) e = true -> negb (is_label_elem c e) = true.
Proof. intros H. apply eidb_eq in H. unfold is_label_elem, is_lrow, eidb. rewrite H. now ids. Qed.

Lemma row_not_label k e : eidb (idR c k) e = true -> negb (is_label_elem c e) = true.
Proof. intros H. apply eidb_eq in H. unfold is_label_elem, is_lrow, eidb. rewrite H. now ids. Qed.

(** A node of the fallback region lies in its container. *)
Lemma fallback_in_container n tl x :
  structure_ok c pre r post n tl ->
  (forall e, eidb x e = true -> is_fallback_elem c e = true) ->
  1 <= cnt x tl -> cnt (idD c) tl = 1.
Proof.
  intros S Hx H. pose proof S as [_ _ _ _ _ Sf1 Sf0 _ _ _ _ _ _ _ _].
  destruct (cnt (idD c) tl) as [|k] eqn:E; [|lia].
  specialize (Sf0 eq_refl).
  assert (cnt x tl = 0); [|lia].
  apply (cnt_avoid (is_fallback_elem c)); [assumption|].
  eapply Forall_impl; [exact Sf0|]. intros e He. apply He.
Qed.

Lemma P_is_fallback e : eidb (idP c) e = true -> is_fallback_elem c e = true.
Proof. intros H. unfold is_fallback_elem. now rewrite H, !orb_true_r. Qed.

Lemma row_is_fallback k e : eidb (idR c k) e = true -> is_fallback_elem c e = true.
Proof.
  intros H. unfold is_fallback_elem. now rewrite (row_is_frow _ _ _ H), !orb_true_r.
Qed.

Lemma describe_fallback_ok st tl text :
  inv c pre r post st tl ->
  dummyDOM st = Some (node r) ->
  descs st = Some (the_descs st) ->
  exists st' tl' h,
    describe_fallback c text (the_descs st) st = (Normal tt, st') /\
    inv c pre r post st' tl' /\
    dummyDOM st' = Some (node r) /\ descs st' = Some (the_descs st') /\
    fallback (the_descs st') = Some h /\
    shows tl' h text /\
    cnt (idD c) tl' = 1 /\
    labels c tl' = labels c tl /\
    label (the_descs st') = label (the_descs st) /\
    labelElements (the_descs st') = labelElements (the_descs st) /\
    cnt (idT c) tl' = cnt (idT c) tl.
Proof.
  intros I Hdd Hds. pose proof I as [Hd S St _].
  pose proof S as [Sfr Snx Scv Sdp Sout Sf1 Sf0 Sfo Sfs Sfw Sl1 Sl0 Slo Sls Slw].
  unfold describe_fallback. destruct (fallback (the_descs st)) as [h|] eqn:F.
  - pose proof (st_fallback _ _ _ St h F) as Hh.
    destruct (refresh_ok st tl h text I) as (st' & E & I' & E1 & E2 & E3 & E4).
    { eapply hasP_weaken; [|exact Hh]. auto. }
    exists st', (set_html h text tl), h. split; [assumption|].
    assert (Edesc : the_descs st' = the_descs st) by (unfold the_descs; now rewrite E2).
    rewrite Edesc. conj; auto; try congruence.
    + apply shows_set_html. eapply hasP_weaken; [|exact Hh]. auto.
    + rewrite cnt_set_html. eapply fallback_in_container; eauto using P_is_fallback.
      eapply hasP_cnt; eauto.
    + apply labels_set_html.
      * destruct Sfr as (Hnd & _). rewrite !map_app in Hnd. simpl in Hnd.
        apply NoDup_app in Hnd as (_ & _ & Hnd). apply NoDup_cons in Hnd as [_ Hnd].
        rewrite map_app in Hnd. now apply NoDup_app in Hnd as (Hnd & _).
      * eapply hasP_weaken; [|exact Hh]. apply P_not_label.
    + apply cnt_set_html.
  - assert (P0 : cnt (idP c) tl = 0).
    { destruct (cnt (idP c) tl) eqn:E; [reflexivity|].
      exfalso. apply (st_fallback' _ _ _ St); [lia | assumption]. }
    destruct (fallback_desc_block_ok c pre r post frame_id st tl Hd S St P0)
      as (st1 & tl1 & dD & E & Hd1 & Hds1 & Hdd1 & S1 & G & D1 & P1 & L1).
    destruct (find_id_some (idP c) tl1) as [p EP]; [lia|].
    pose proof S1 as [Sfr1 _ _ _ _ _ _ _ _ _ _ _ _ _ _].
    pose proof (qs_framed st1 _ pre r tl1 post Hd1 Sfr1
                  (ident_suffix c frame_id fallbackDescId eq_refl)) as Q.
    rewrite EP in Q.
    assert (R : _describeFallbackHTML (Some (node r)) c st
                = (Normal (Some (Some (node p), Some (node r))), st1)).
    { rewrite describeFallbackHTML_block.
      rewrite (bind_normal _ _ _ _ _ E), (bind_normal _ _ _ _ _ Q).
      now rewrite (bind_normal _ _ _ _ _ Q). }
    rewrite bind_gets, Hdd.
    rewrite (bind_normal _ _ _ _ _ R). simpl result_node. rewrite bind_ret.
    assert (U : update_descs (set_fallback (Some (node p))) st1
                = (Normal tt, set_descs (Some (set_fallback (Some (node p)) (the_descs st))) st1)).
    { unfold update_descs. now rewrite Hds1, Hds. }
    rewrite (bind_normal _ _ _ _ _ U). simpl result_dummyDOM.
    rewrite bind_ret, bind_modify.
    simpl write_ref. unfold write_html, modify.
    set (ds' := set_fallback (Some (node p)) (the_descs st)).
    pose proof (find_id_hasP _ _ _ EP) as Hp.
    assert (Hset : set_html (node p) text (dom st1)
                   = pre ++ r :: set_html (node p) text tl1 ++ post).
    { rewrite Hd1. apply set_html_framed; [assumption|].
      eapply hasP_weaken; [|exact Hp]. auto. }
    eexists _, (set_html (node p) text tl1), (node p). split; [reflexivity|].
    cbn [dom next descs dummyDOM set_next set_dom set_descs set_dummyDOM the_descs default].
    conj; auto.
    + constructor; cbn [dom next descs dummyDOM set_next set_dom set_descs set_dummyDOM
                        the_descs default]; auto.
      * now apply structure_ok_set_html.
      * apply store_ok_set_html. eapply store_ok_set_fallback; eauto.
    + apply shows_set_html. eapply hasP_weaken; [|exact Hp]. auto.
    + now rewrite cnt_set_html.
    + rewrite <- L1. apply labels_set_html.
      * destruct Sfr1 as (Hnd & _). rewrite !map_app in Hnd. simpl in Hnd.
        apply NoDup_app in Hnd as (_ & _ & Hnd). apply NoDup_cons in Hnd as [_ Hnd].
        rewrite map_app in Hnd. now apply NoDup_app in Hnd as (Hnd & _).
      * eapply hasP_weaken; [|exact Hp]. apply P_not_label.
    + rewrite cnt_set_html. destruct G as [_ _ _ GT _ _ _ _ _]. lia.
Qed.

Lemma describe_label_ok st tl text :
  inv c pre r post st tl ->
  dummyDOM st = Some (node r) ->
  descs st = Some (the_descs st) ->
  cnt (idD c) tl = 1 ->
  exists st' tl' h,
    describe_label c text (the_descs st) st = (Normal tt, st') /\
    inv c pre r post st' tl' /\
    dummyDOM st' = Some (node r) /\ descs st' = Some (the_descs st') /\
    label (the_descs st') = Some h /\
    hasP (eidb (idLP c)) h tl' = true /\
    shows tl' h text /\
    cnt (idD c) tl' = 1 /\
    extends_but h tl tl' /\
    (hasP (fun _ => true) h tl = true -> hasP (is_label_elem c) h tl = true) /\
    fallback (the_descs st') = fallback (the_descs st) /\
    fmap (the_descs st') = fmap (the_descs st) /\
    cnt (idT c) tl' = cnt (idT c) tl.
Proof.
  intros I Hdd Hds D1. pose proof I as [Hd S St _].
  pose proof S as [Sfr Snx Scv Sdp Sout Sf1 Sf0 Sfo Sfs Sfw Sl1 Sl0 Slo Sls Slw].
  unfold describe_label. destruct (label (the_descs st)) as [h|] eqn:F.
  - pose proof (st_label _ _ _ St h F) as Hh.
    destruct (refresh_ok st tl h text I) as (st' & E & I' & E1 & E2 & E3 & E4).
    { eapply hasP_weaken; [|exact Hh]. auto. }
    exists st', (set_html h text tl), h. split; [assumption|].
    assert (Edesc : the_descs st' = the_descs st) by (unfold the_descs; now rewrite E2).
    rewrite Edesc. conj; auto; try congruence.
    + rewrite hasP_set_html; [assumption | apply structural_eidb].
    + apply shows_set_html. eapply hasP_weaken; [|exact Hh]. auto.
    + now rewrite cnt_set_html.
    + apply extends_but_set_html.
    + intros _. eapply hasP_weaken; [|exact Hh]. intros e He.
      unfold is_label_elem. now rewrite He, !orb_true_r.
    + apply cnt_set_html.
  - assert (P0 : cnt (idLP c) tl = 0).
    { destruct (cnt (idLP c) tl) eqn:E; [reflexivity|].
      exfalso. apply (st_label' _ _ _ St); [lia | assumption]. }
    destruct (label_desc_block_ok c pre r post frame_id st tl Hd S D1 P0)
      as (st1 & tl1 & dLC & E & Hd1 & Hds1 & Hdd1 & S1 & G & C1 & P1 & X1).
    destruct (find_id_some (idLP c) tl1) as [p EP]; [lia|].
    pose proof S1 as [Sfr1 _ _ _ _ _ _ _ _ _ _ _ _ _ _].
    pose proof (qs_framed st1 _ pre r tl1 post Hd1 Sfr1
                  (ident_suffix c frame_id labelDescId eq_refl)) as Q.
    rewrite EP in Q.
    assert (R : _describeLabelHTML (Some (node r)) c st
                = (Normal (Some (Some (node p), Some (node r))), st1)).
    { rewrite describeLabelHTML_block.
      rewrite (bind_normal _ _ _ _ _ E), (bind_normal _ _ _ _ _ Q).
      now rewrite (bind_normal _ _ _ _ _ Q). }
    rewrite bind_gets, Hdd.
    rewrite (bind_normal _ _ _ _ _ R). simpl result_node. rewrite bind_ret.
    assert (U : update_descs (set_label (Some (node p))) st1
                = (Normal tt, set_descs (Some (set_label (Some (node p)) (the_descs st))) st1)).
    { unfold update_descs. now rewrite Hds1, Hds. }
    rewrite (bind_normal _ _ _ _ _ U). simpl result_dummyDOM.
    rewrite bind_ret, bind_modify.
    simpl write_ref. unfold write_html, modify.
    pose proof (find_id_hasP _ _ _ EP) as Hp.
    assert (Hset : set_html (node p) text (dom st1)
                   = pre ++ r :: set_html (node p) text tl1 ++ post).
    { rewrite Hd1. apply set_html_framed; [assumption|].
      eapply hasP_weaken; [|exact Hp]. auto. }
    assert (D1' : cnt (idD c) tl1 = 1).
    { destruct G as [_ GD _ _ _ _ _ _ _]. lia. }
    eexists _, (set_html (node p) text tl1), (node p). split; [reflexivity|].
    cbn [dom next descs dummyDOM set_next set_dom set_descs set_dummyDOM the_descs default].
    conj; auto.
    + constructor; cbn [dom next descs dummyDOM set_next set_dom set_descs set_dummyDOM
                        the_descs default]; auto.
      * now apply structure_ok_set_html.
      * apply store_ok_set_html. eapply store_ok_set_label; eauto.
    + rewrite hasP_set_html; [assumption | apply structural_eidb].
    + apply shows_set_html. eapply hasP_weaken; [|exact Hp]. auto.
    + now rewrite cnt_set_html.
    + eapply extends_extends_but; [exact X1 | apply extends_but_set_html].
    + intros Hin. exfalso. apply hasP_true in Hin as (e & He & Hn & _).
      assert (Fe : eidb (idLP c) e = false).
      { apply cnt_zero_Forall in P0. rewrite Forall_forall in P0.
        apply P0. now apply list_elem_of_In. }
      assert (H1 : hasP (fun e => negb (eidb (idLP c) e)) (node p) tl = true).
      { apply hasP_true. exists e. rewrite Fe. auto. }
      apply X1 in H1.
      assert (Hnd : NoDup (List.map node tl1)).
      { destruct Sfr1 as (Hnd & _). rewrite !map_app in Hnd. simpl in Hnd.
        apply NoDup_app in Hnd as (_ & _ & Hnd). apply NoDup_cons in Hnd as [_ Hnd].
        rewrite map_app in Hnd. now apply NoDup_app in Hnd as (Hnd & _). }
      destruct (hasP_both _ _ _ _ Hnd Hp H1) as (e' & _ & _ & A & B).
      rewrite A in B. discriminate.
    + rewrite cnt_set_html. destruct G as [_ _ _ GT _ _ _ _ _]. lia.
Qed.

End Parts.

(** ** The query for a row, whatever the key *)

Lemma append_assoc' (s1 s2 s3 : string) : s1 +:+ (s2 +:+ s3) = (s1 +:+ s2) +:+ s3.
Proof.
  induction s1 as [|a s1 IH]; [now rewrite !append_nil_l|].
  change (String a (s1 +:+ (s2 +:+ s3)) = String a ((s1 +:+ s2) +:+ s3)). now rewrite IH.
Qed.

Lemma words_prefix (s1 s2 : string) :
  all_chars is_name_char s1 = true ->
  words (s1 +:+ s2) = (s1 +:+ fst (words s2), snd (words s2)).
Proof.
  induction s1 as [|a s1 IH]; simpl.
  - intros _. rewrite !append_nil_l. now destruct (words s2).
  - intros H. apply andb_true_iff in H as [Ha Hs].
    rewrite (IH Hs), (name_char_not_space a Ha). reflexivity.
Qed.

(** A selector built from an identifier and a key starts with an id
    selector for the identifier extended by the first word of the key. *)
Lemma parse_selector_row (p k : string) sels :
  all_chars is_name_char p = true ->
  parse_selector ("#" +:+ (p +:+ k)) = Normal sels ->
  exists w ts, sels = SId (p +:+ w) :: List.map SType ts.
Proof.
  intros Hp. unfold parse_selector, tokens.
  change ("#" +:+ (p +:+ k)) with (String "#" (p +:+ k)). cbn [words].
  rewrite (words_prefix p k Hp). destruct (words k) as [w ws]. cbn [fst snd].
  change (Ascii.eqb "#" " ") with false. cbv iota beta.
  unfold cons_nonempty. change (String.eqb (String "#" (p +:+ w)) "") with false.
  cbv iota. destruct (is_ident (p +:+ w) && forallb is_ident ws); [|discriminate].
  intros [= <-]. eauto.
Qed.

Lemma querySelector_in pre r tl post sel e :
  framed pre r tl post ->
  querySelector (pre ++ r :: tl ++ post) (node r) sel = Normal (Some e) -> In e tl.
Proof.
  intros Hf. unfold querySelector. destruct (parse_selector sel) as [sels|]; [|discriminate].
  intros [= H]. eapply qs_scan_framed_in; eauto.
Qed.

Section RowQuery.

Variable c : string.
Variables (pre : list elem) (r : elem) (post : list elem).
Hypothesis Hframe : frame_ok c pre r post.

Lemma label_depth tl e :
  Forall (fun e => depth_ok c (depth r) e = true) tl -> In e tl ->
  is_label_elem c e = true -> depth e <= depth r + 3.
Proof.
  intros Hd He Hl. rewrite Forall_forall in Hd.
  specialize (Hd e (proj2 (list_elem_of_In _ _) He)).
  apply depth_ok_spec in Hd as (_ & _ & _ & _ & _ & H1 & H2 & H3 & H4).
  unfold is_label_elem in Hl. rewrite !orb_true_iff in Hl.
  destruct Hl as [[[Hl | Hl] | Hl] | Hl];
    [rewrite (H1 Hl) | rewrite (H2 Hl) | rewrite (H3 Hl) | rewrite (H4 Hl)]; lia.
Qed.

Lemma frow_in_tl tl a :
  In a (pre ++ r :: tl ++ post) -> is_frow c a = true -> In a tl.
Proof.
  intros Hin Ha. pose proof Hframe as [_ Hh]. rewrite Forall_forall in Hh.
  assert (Hm : is_module_elem c a = true).
  { unfold is_module_elem, is_fallback_elem. now rewrite Ha, !orb_true_r. }
  apply in_app_or in Hin as [Hin | [<- | Hin]].
  - specialize (Hh a). rewrite elem_of_app in Hh.
    specialize (Hh (or_introl (proj2 (list_elem_of_In _ _) Hin))).
    unfold host_elem in Hh. rewrite Hm in Hh. discriminate.
  - specialize (Hh r). rewrite elem_of_app, elem_of_cons in Hh.
    specialize (Hh (or_intror (or_introl eq_refl))).
    unfold host_elem in Hh. rewrite Hm in Hh. discriminate.
  - apply in_app_or in Hin as [Hin | Hin]; [assumption|].
    specialize (Hh a). rewrite elem_of_app, elem_of_cons in Hh.
    specialize (Hh (or_intror (or_intror (proj2 (list_elem_of_In _ _) Hin)))).
    unfold host_elem in Hh. rewrite Hm in Hh. discriminate.
Qed.

(** The query for a fallback row never yields a node of the label region. *)
Lemma frow_query_not_label tl k e :
  framed pre r tl post ->
  Forall (fun e => depth_ok c (depth r) e = true) tl ->
  querySelector (pre ++ r :: tl ++ post) (node r) ("#" +:+ idR c k) = Normal (Some e) ->
  In e tl /\ is_label_elem c e = false.
Proof.
  intros Hf Hd H. split; [eapply querySelector_in; eauto|].
  unfold querySelector in H.
  destruct (parse_selector ("#" +:+ idR c k)) as [sels|] eqn:P; [|discriminate].
  injection H as H.
  assert (Hin : In e tl) by (eapply qs_scan_framed_in; eauto).
  change (c +:+ fallbackTableElId +:+ k) with (c +:+ (fallbackTableElId +:+ k)) in P.
  assert (Hp : exists w ts, sels = SId (idR c w) :: List.map SType ts).
  { assert (Hpc : all_chars is_name_char (c +:+ fallbackTableElId) = true).
    { rewrite all_chars_app, (is_ident_name_chars c (frame_ident _ _ _ _ Hframe)).
      reflexivity. }
    assert (E : forall x, c +:+ fallbackTableElId +:+ x = (c +:+ fallbackTableElId) +:+ x).
    { intros x. apply append_assoc'. }
    rewrite E in P. destruct (parse_selector_row _ _ _ Hpc P) as (w & ts & ->).
    exists w, ts. now rewrite E. }
  destruct Hp as (w & ts & ->).
  destruct (qs_scan_some _ _ [] _ _ I H) as (l1 & l2 & anc & Hl & M & D & A).
  destruct (is_label_elem c e) eqn:L; [exfalso|reflexivity].
  pose proof (label_depth tl e Hd Hin L) as De.
  simpl rev in M. unfold matches_complex in M.
  destruct (rev (List.map SType ts) ++ [SId (idR c w)]) as [|s1 ss] eqn:R.
  { destruct (rev (List.map SType ts)); discriminate. }
  assert (Hrow : forall a, eid a = idR c w -> is_frow c a = true).
  { intros a Ha. apply (row_is_frow c w). now apply eidb_eq. }
  destruct (rev (List.map SType ts)) as [|t0 rs] eqn:Rs.
  - simpl in R. injection R as <- <-.
    apply andb_true_iff in M as [M _]. simpl in M. apply String.eqb_eq in M.
    assert (F : is_label_elem c e = false).
    { unfold is_label_elem, is_lrow, eidb. rewrite M. now ids. }
    congruence.
  - simpl in R. injection R as <- <-.
    apply andb_true_iff in M as [_ M].
    destruct (matches_ancestors_last _ _ _ M) as (a & Ha & Ma).
    simpl in Ma. apply String.eqb_eq in Ma.
    assert (Hdom : In a (pre ++ r :: tl ++ post)).
    { destruct (A a Ha) as [[] | Hl1]. rewrite Hl. apply in_or_app. now left. }
    pose proof (frow_in_tl tl a Hdom (Hrow a Ma)) as Hat.
    rewrite Forall_forall in Hd, D.
    specialize (Hd a (proj2 (list_elem_of_In _ _) Hat)).
    apply depth_ok_spec in Hd as (_ & _ & _ & _ & Hd & _).
    specialize (Hd (Hrow a Ma)).
    specialize (D a (proj2 (list_elem_of_In _ _) Ha)). simpl in D. lia.
Qed.

End RowQuery.

(** ** Rows of the two tables *)

(** Appending a new row to the table with id [x]. *)
Lemma append_row {B} pre r post st tl x rid (k : M B) :
  dom st = pre ++ r :: tl ++ post ->
  framed pre r tl post ->
  is_ident x = true ->
  1 <= cnt x tl ->
  exists t l1 l2,
    find_id x tl = Some t /\ tl = l1 ++ l2 /\
    (tableRow <- createElement "tr" ;;
     let tableRow := with_id rid tableRow in
     t <- qs (Some (node r)) ("#" +:+ x) ;;
     on_node t (fun h => appendChild h tableRow) ;;; k) st
    = k (set_dom (pre ++ r :: (l1 ++ [Elem (next st) (S (depth t)) "tr" rid [] ""] ++ l2) ++ post)
           (set_next (S (next st)) st)).
Proof.
  intros Hd Hf Hx Hc.
  destruct (find_id_some x tl Hc) as [t Et].
  destruct (find_id_split x tl t Et) as (a & b & -> & Ha & Ht).
  destruct (append_child_framed pre r a t b post
              (with_id rid (Elem (next st) 0 "tr" "" [] "")) Hf)
    as (sub & rest & -> & Hs & E).
  exists t, (a ++ t :: sub), rest. split; [assumption|]. split; [now list_norm|].
  unfold bind at 1. unfold createElement. cbv zeta.
  assert (Q : qs (Some (node r)) ("#" +:+ x) (set_next (S (next st)) st)
              = (Normal (Some t), set_next (S (next st)) st)).
  { rewrite <- Et. apply (qs_framed _ x pre r _ post); auto. }
  rewrite (bind_normal _ _ _ _ _ Q). unfold on_node, appendChild.
  rewrite bind_modify. cbn [dom set_next]. rewrite Hd, E.
  f_equal. destruct st; cbn. f_equal. now list_norm.
Qed.

Lemma hasP_insert_new q n l1 l2 e :
  node e = n -> q e = true -> hasP q n (l1 ++ [e] ++ l2) = true.
Proof.
  intros Hn Hq. apply hasP_true. exists e. split; [|auto].
  apply in_or_app. right. now left.
Qed.

(** The store after a new row of the fallback table is cached under its
    key, or a null reference is. *)
Lemma store_ok_frow_update c l1 l2 n d k ds v :
  let row := Elem n d "tr" (idR c k) [] "" in
  store_ok c (l1 ++ l2) ds ->
  cnt (idD c) (l1 ++ l2) = 1 ->
  is_prototype_key k = false ->
  (safe_key k = true -> v = Some n) ->
  (forall h, v = Some h ->
     hasP (fun e => negb (is_label_elem c e)) h (l1 ++ [row] ++ l2) = true) ->
  store_ok c (l1 ++ [row] ++ l2) (set_fallbackElements (Some (<[k := v]> (fmap ds))) ds).
Proof.
  intros row St D1 Hp Hs Hv.
  destruct (census_counts _ _ _ _ _ _ _ _ _ _ _ (census_frow c k n d "tr" [] ""))
    as (C0 & CD & CP & CT & CLC & CLP & CLT & CA & CAL). fold row in C0, CD, CP, CT, CLC, CLP, CLT.
  pose proof St as [Sf0 Sl0 Sfb Sfb' Slb Slb' Sfr Sfr' Slr Slr' Spr Sfn Sln].
  apply (store_ok_step c (l1 ++ l2) _ ds); try assumption.
  - apply keeps_insert.
  - intros h Hh. left. exact Hh.
  - intros h Hh. left. exact Hh.
  - intros k' h. store_views. destruct (decide (k = k')) as [<- | Hne].
    + rewrite lookup_insert_eq. intros [= ->]. right. split; [now apply Hv|].
      intros Hsafe. specialize (Hs Hsafe). injection Hs as <-.
      apply hasP_insert_new; [reflexivity|]. unfold row. now rewrite eidb_row_f, String.eqb_refl.
    + rewrite lookup_insert_ne by assumption. now left.
  - intros k' h. store_views. now left.
  - intros k' Hk'. store_views. destruct (Spr k' Hk') as [F L]. split; [|assumption].
    rewrite lookup_insert_ne; [assumption|]. intros ->. congruence.
  - store_views. rewrite !cnt_app, CP. intros H. apply Sfb'. rewrite cnt_app. lia.
  - store_views. rewrite !cnt_app, CLP. intros H. apply Slb'. rewrite cnt_app. lia.
  - intros k' Hk'. store_views. rewrite !cnt_app, cnt_single. unfold row.
    rewrite eidb_row_f. destruct (String.eqb k k') eqn:E.
    + apply String.eqb_eq in E. subst k'. intros _. exists n.
      rewrite lookup_insert_eq. now rewrite (Hs Hk').
    + intros H. apply String.eqb_neq in E. rewrite lookup_insert_ne by assumption.
      apply Sfr'; [assumption|]. rewrite cnt_app. lia.
  - intros k' Hk'. store_views. rewrite !cnt_app, cnt_single.
    replace (eidb (idLR c k') row) with false.
    + intros H. apply Slr'; [assumption|]. rewrite cnt_app. lia.
    + unfold row. symmetry. now ids.
  - rewrite !cnt_app, CD. rewrite cnt_app in D1. lia.
  - store_views. rewrite !cnt_app, CLC. intros H. apply Sl0. rewrite cnt_app. lia.
Qed.

(** The store as it is, after a row with a key that is not safe is
    appended to the fallback table. *)
Lemma store_ok_frow_keep c l1 l2 n d k ds :
  let row := Elem n d "tr" (idR c k) [] "" in
  store_ok c (l1 ++ l2) ds ->
  cnt (idD c) (l1 ++ l2) = 1 ->
  safe_key k = false ->
  store_ok c (l1 ++ [row] ++ l2) ds.
Proof.
  intros row St D1 Hs.
  destruct (census_counts _ _ _ _ _ _ _ _ _ _ _ (census_frow c k n d "tr" [] ""))
    as (C0 & CD & CP & CT & CLC & CLP & CLT & CA & CAL). fold row in C0, CD, CP, CT, CLC, CLP, CLT.
  pose proof St as [Sf0 Sl0 Sfb Sfb' Slb Slb' Sfr Sfr' Slr Slr' Spr Sfn Sln].
  apply (store_ok_step c (l1 ++ l2) _ ds); try assumption.
  - apply keeps_insert.
  - intros h Hh. left. exact Hh.
  - intros h Hh. left. exact Hh.
  - intros k' h. now left.
  - intros k' h. now left.
  - rewrite !cnt_app, CP. intros H. apply Sfb'. rewrite cnt_app. lia.
  - rewrite !cnt_app, CLP. intros H. apply Slb'. rewrite cnt_app. lia.
  - intros k' Hk'. rewrite !cnt_app, cnt_single. unfold row.
    rewrite eidb_row_f. destruct (String.eqb k k') eqn:E.
    + apply String.eqb_eq in E. subst k'. congruence.
    + intros H. apply Sfr'; [assumption|]. rewrite cnt_app. lia.
  - intros k' Hk'. rewrite !cnt_app, cnt_single.
    replace (eidb (idLR c k') row) with false.
    + intros H. apply Slr'; [assumption|]. rewrite cnt_app. lia.
    + unfold row. symmetry. now ids.
  - rewrite !cnt_app, CD. rewrite cnt_app in D1. lia.
  - rewrite !cnt_app, CLC. intros H. apply Sl0. rewrite cnt_app. lia.
Qed.

Lemma framed_nodup pre r tl post : framed pre r tl post -> NoDup (List.map node tl).
Proof.
  intros (Hnd & _). rewrite !map_app in Hnd. simpl in Hnd.
  apply NoDup_app in Hnd as (_ & _ & Hnd). apply NoDup_cons in Hnd as [_ Hnd].
  rewrite map_app in Hnd. now apply NoDup_app in Hnd as (Hnd & _).
Qed.

Lemma hasP_in q e l : In e l -> q e = true -> hasP q (node e) l = true.
Proof. intros Hi Hq. apply hasP_true. exists e. auto. Qed.

Section Rows.

Variable c : string.
Variables (pre : list elem) (r : elem) (post : list elem).
Hypothesis Hframe : frame_ok c pre r post.

(** The outcome of the scaffold for a row of the fallback table: the row
    is appended, and the query for it yields it when the key is safe. *)
Lemma descElementFallbackHTML_ok st tl k :
  dom st = pre ++ r :: tl ++ post ->
  structure_ok c pre r post (next st) tl ->
  store_ok c tl (the_descs st) ->
  (safe_key k = true -> cnt (idR c k) tl = 0) ->
  exists st2 l1 l2 n res,
    let row := Elem n (depth r + 4) "tr" (idR c k) [] "" in
    _descElementFallbackHTML (Some (node r)) c k st = (res, st2) /\
    dom st2 = pre ++ r :: (l1 ++ [row] ++ l2) ++ post /\
    descs st2 = descs st /\ dummyDOM st2 = dummyDOM st /\
    structure_ok c pre r post (next st2) (l1 ++ [row] ++ l2) /\
    store_ok c (l1 ++ l2) (the_descs st) /\
    cnt (idD c) (l1 ++ l2) = 1 /\
    labels c (l1 ++ l2) = labels c tl /\
    ((exists x, res = Throw x) \/
     res = Normal (Some (None, Some (node r))) \/
     (exists e, res = Normal (Some (Some (node e), Some (node r))) /\
        In e (l1 ++ [row] ++ l2) /\ is_label_elem c e = false)) /\
    (safe_key k = true -> res = Normal (Some (Some n, Some (node r)))).
Proof.
  intros Hd S St Hk.
  destruct (fallback_table_block_ok c pre r post (frame_id c pre r post Hframe) st tl Hd S St)
    as (st1 & tl1 & dD & dT & E & Hd1 & Hds1 & Hdd1 & S1 & G & D1 & T1 & L1).
  pose proof S1 as [Sfr1 _ _ Sdp1 _ _ _ _ _ _ _ _ _ _ _].
  set (k2 := (r0 <- qs (Some (node r)) ("#" +:+ (c +:+ fallbackTableElId +:+ k)) ;;
              ret (Some (option_map node r0, Some (node r)))) : M results).
  destruct (append_row pre r post st1 tl1 (idT c) (idR c k) k2 Hd1 Sfr1
              (ident_suffix c (frame_id c pre r post Hframe) fallbackTableId eq_refl)) as (t & l1 & l2 & Et & -> & R);
    [lia|].
  destruct (find_fixed c pre r post _ _ _ _ S1 Et) as (_ & _ & _ & Ht & _ & Dt).
  apply depth_ok_spec in Dt as (_ & _ & _ & Dt & _).
  assert (Ht' : eidb (idT c) t = true) by now apply eidb_eq.
  specialize (Dt Ht'). replace (Datatypes.S (depth t)) with (depth r + 4) in R by lia.
  set (row := Elem (next st1) (depth r + 4) "tr" (idR c k) [] "") in *.
  set (st2 := set_dom (pre ++ r :: (l1 ++ [row] ++ l2) ++ post)
                (set_next (Datatypes.S (next st1)) st1)) in *.
  assert (Hk1 : safe_key k = true -> cnt (idR c k) (l1 ++ l2) = 0).
  { intros Hs. destruct G as [_ _ _ _ _ _ _ HR _]. rewrite HR. auto. }
  assert (S2 : structure_ok c pre r post (next st2) (l1 ++ [row] ++ l2)).
  { unfold st2. cbn [next set_dom set_next].
    replace (Datatypes.S (next st1)) with (next st1 + 1) by lia.
    now apply structure_ok_frow. }
  pose proof S2 as [Sfr2 _ _ Sdp2 _ _ _ _ _ _ _ _ _ _ _].
  assert (Edesc : the_descs st1 = the_descs st) by (unfold the_descs; now rewrite Hds1).
  assert (Run : _descElementFallbackHTML (Some (node r)) c k st = k2 st2).
  { rewrite descElementFallbackHTML_block. rewrite (bind_normal _ _ _ _ _ E). exact R. }
  assert (Hd2 : dom st2 = pre ++ r :: (l1 ++ [row] ++ l2) ++ post) by reflexivity.
  assert (Q : k2 st2 =
              (match querySelector (dom st2) (node r) ("#" +:+ idR c k) with
               | Normal r0 => Normal (Some (option_map node r0, Some (node r)))
               | Throw x => Throw x
               end, st2)).
  { unfold k2, bind, qs, ret.
    destruct (querySelector (dom st2) (node r) ("#" +:+ idR c k)); reflexivity. }
  exists st2, l1, l2, (next st1),
    (match querySelector (dom st2) (node r) ("#" +:+ idR c k) with
     | Normal r0 => Normal (Some (option_map node r0, Some (node r)))
     | Throw x => Throw x
     end).
  cbv zeta. fold row. split; [now rewrite Run|]. conj; auto.
  - apply (grows_store c _ tl _ dD dT 0 0); assumption.
  - destruct (querySelector (dom st2) (node r) ("#" +:+ idR c k)) as [[e|]|x] eqn:QE.
    + right. right. exists e. split; [reflexivity|]. rewrite Hd2 in QE.
      eapply frow_query_not_label; eauto.
    + right. now left.
    + left. eauto.
  - intros Hs. rewrite Hd2, (querySelector_framed _ pre r _ post Sfr2 (ident_frow c (frame_id c pre r post Hframe) k Hs)).
    assert (F : find_id (idR c k) (l1 ++ [row] ++ l2) = Some row).
    { specialize (Hk1 Hs). rewrite cnt_app in Hk1.
      rewrite find_id_app. replace (find_id (idR c k) l1) with (@None elem).
      - simpl. unfold eidb, row. simpl. now rewrite String.eqb_refl.
      - symmetry. apply find_id_none. lia. }
    now rewrite F.
Qed.

End Rows.

(** ** The parts of [describeElement] *)

Ltac sketch_simpl :=
  cbn [dom next descs dummyDOM set_next set_dom set_descs set_dummyDOM the_descs default
       from_option];
  change (@id descriptions) with (fun x : descriptions => x); cbv beta.

Section RowParts.

Variable c : string.
Variables (pre : list elem) (r : elem) (post : list elem).
Hypothesis Hframe : frame_ok c pre r post.

(** A row of the fallback table is created for a key that the store does
    not hold a node for. *)
Lemma fallback_row_create st tl k inner :
  inv c pre r post st tl ->
  dummyDOM st = Some (node r) ->
  descs st = Some (the_descs st) ->
  is_prototype_key k = false ->
  (forall h, fmap (the_descs st) !! k <> Some (Some h)) ->
  exists res st' tl',
    (dd <- gets dummyDOM ;;
     results <- _descElementFallbackHTML dd c k ;;
     n <- result_node results ;;
     update_descs (set_fallbackElements (Some (<[k := n]> (fmap (the_descs st))))) ;;;
     dd' <- result_dummyDOM results ;;
     modify (set_dummyDOM dd') ;;;
     write_ref n inner) st = (res, st') /\
    inv c pre r post st' tl' /\
    dummyDOM st' = Some (node r) /\ descs st' = Some (the_descs st') /\
    labels c tl' = labels c tl /\
    label (the_descs st') = label (the_descs st) /\
    labelElements (the_descs st') = labelElements (the_descs st) /\
    fallback (the_descs st') = fallback (the_descs st) /\
    cnt (idD c) tl' = 1 /\
    (safe_key k = true ->
       res = Normal tt /\
       exists h, fmap (the_descs st') !! k = Some (Some h) /\
         hasP (eidb (idR c k)) h tl' = true /\ shows tl' h inner /\
         cnt (idR c k) tl' = 1).
Proof.
  intros I Hdd Hds Hp Hmiss. pose proof I as [Hd S St _].
  assert (Hk : safe_key k = true -> cnt (idR c k) tl = 0).
  { intros Hs. destruct (cnt (idR c k) tl) eqn:E; [reflexivity|]. exfalso.
    destruct (st_frow' _ _ _ St k Hs) as [h Hh]; [lia|]. exact (Hmiss h Hh). }
  destruct (descElementFallbackHTML_ok c pre r post Hframe st tl k Hd S St Hk)
    as (st2 & l1 & l2 & n & res & H).
  cbv zeta in H.
  destruct H as (R & Hd2 & Hds2 & Hdd2 & S2 & St1 & D1 & L1 & Hres & Hsafe).
  set (row := Elem n (depth r + 4) "tr" (idR c k) [] "") in *.
  set (tl2 := l1 ++ [row] ++ l2) in *.
  pose proof S2 as [Sfr2 _ _ _ _ _ _ _ _ Sfw2 _ _ _ _ _].
  assert (Edesc : the_descs st2 = the_descs st) by (unfold the_descs; now rewrite Hds2).
  assert (L2 : labels c tl2 = labels c tl).
  { rewrite <- L1. apply labels_insert. repeat constructor. apply label_frow. }
  assert (D2 : cnt (idD c) tl2 = 1).
  { destruct (census_counts _ _ _ _ _ _ _ _ _ _ _
                (census_frow c k n (depth r + 4) "tr" [] "")) as (_ & CD & _).
    fold row in CD. unfold tl2. rewrite !cnt_app, CD. rewrite cnt_app in D1. lia. }
  rewrite bind_gets, Hdd.
  assert (U : forall v, update_descs (set_fallbackElements (Some (<[k := v]> (fmap (the_descs st))))) st2
              = (Normal tt,
                 set_descs (Some (set_fallbackElements (Some (<[k := v]> (fmap (the_descs st))))
                                    (the_descs st))) st2)).
  { intros v. unfold update_descs. now rewrite Hds2, Hds. }
  assert (St2 : forall v, (safe_key k = true -> v = Some n) ->
              (forall h, v = Some h ->
                 hasP (fun e => negb (is_label_elem c e)) h tl2 = true) ->
              store_ok c tl2 (set_fallbackElements (Some (<[k := v]> (fmap (the_descs st))))
                                (the_descs st))).
  { intros v H1 H2. now apply store_ok_frow_update. }
  destruct Hres as [[x ->] | [-> | (e & -> & He & Hl)]].
  - (* the query for the row is refused *)
    assert (Hs : safe_key k = false).
    { destruct (safe_key k); [|reflexivity]. now specialize (Hsafe eq_refl). }
    rewrite (bind_throw _ _ _ _ _ R).
    exists (Throw x), st2, tl2. split; [reflexivity|]. rewrite Edesc. conj; auto; try congruence.
    constructor; auto.
    + rewrite Edesc. now apply store_ok_frow_keep.
    + right. congruence.
  - (* the query finds no node *)
    assert (Hs : safe_key k = false).
    { destruct (safe_key k); [|reflexivity]. now specialize (Hsafe eq_refl). }
    rewrite (bind_normal _ _ _ _ _ R). simpl result_node. rewrite bind_ret.
    rewrite (bind_normal _ _ _ _ _ (U None)). simpl result_dummyDOM.
    rewrite bind_ret, bind_modify. simpl write_ref. unfold throw.
    eexists (Throw TypeError), _, tl2. split; [reflexivity|]. sketch_simpl.
    conj; auto; try congruence.
    constructor; sketch_simpl; auto.
    apply St2; [congruence | discriminate].
  - (* the query finds a node *)
    rewrite (bind_normal _ _ _ _ _ R). simpl result_node. rewrite bind_ret.
    rewrite (bind_normal _ _ _ _ _ (U (Some (node e)))). simpl result_dummyDOM.
    rewrite bind_ret, bind_modify. simpl write_ref. unfold write_html, modify.
    assert (Hh : hasP (fun e => negb (is_label_elem c e)) (node e) tl2 = true).
    { apply hasP_in; [assumption|]. now rewrite Hl. }
    assert (Ht : hasP (fun _ => true) (node e) tl2 = true).
    { eapply hasP_weaken; [|exact Hh]. auto. }
    assert (Hset : set_html (node e) inner (dom st2)
                   = pre ++ r :: set_html (node e) inner tl2 ++ post).
    { rewrite Hd2. now apply set_html_framed. }
    eexists (Normal tt), _, (set_html (node e) inner tl2). split; [reflexivity|]. sketch_simpl.
    conj; auto.
    + constructor; sketch_simpl; auto.
      * now apply structure_ok_set_html.
      * apply store_ok_set_html. apply St2.
        -- intros Hs. specialize (Hsafe Hs). congruence.
        -- intros h [= <-]. exact Hh.
    + rewrite <- L2. apply labels_set_html; [|assumption].
      eapply framed_nodup; eauto.
    + now rewrite cnt_set_html.
    + intros Hs. split; [reflexivity|]. specialize (Hsafe Hs).
      assert (En : node e = n) by congruence.
      exists n. store_views. rewrite En, lookup_insert_eq. conj; auto.
      * rewrite hasP_set_html by apply structural_eidb.
        apply hasP_insert_new; [reflexivity|]. unfold row. now rewrite eidb_row_f, String.eqb_refl.
      * rewrite <- En. apply shows_set_html. assumption.
      * rewrite cnt_set_html. specialize (Sfw2 k Hs).
        assert (1 <= cnt (idR c k) tl2); [|lia].
        unfold tl2. rewrite !cnt_app, cnt_single. unfold row.
        rewrite eidb_row_f, String.eqb_refl. lia.
Qed.

(** The container of the fallback region exists once the store holds a
    node of a row. *)
Lemma frow_cached_container n tl ds k h :
  structure_ok c pre r post n tl -> store_ok c tl ds ->
  fmap ds !! k = Some (Some h) -> cnt (idD c) tl = 1.
Proof.
  intros S St F. pose proof S as [_ _ _ _ _ Sf1 _ _ _ _ _ _ _ _ _].
  destruct (cnt (idD c) tl) as [|m] eqn:E; [|lia].
  destruct (st_f_none _ _ _ St E) as (_ & _ & H & _). now destruct (H k h).
Qed.

Lemma describeElement_fallback_ok st tl k inner :
  inv c pre r post st tl ->
  dummyDOM st = Some (node r) ->
  descs st = Some (the_descs st) ->
  exists res st' tl',
    describeElement_fallback c k inner (the_descs st) st = (res, st') /\
    inv c pre r post st' tl' /\
    dummyDOM st' = Some (node r) /\ descs st' = Some (the_descs st') /\
    labels c tl' = labels c tl /\
    label (the_descs st') = label (the_descs st) /\
    labelElements (the_descs st') = labelElements (the_descs st) /\
    fallback (the_descs st') = fallback (the_descs st) /\
    (is_prototype_key k = false -> cnt (idD c) tl' = 1) /\
    (safe_key k = true ->
       res = Normal tt /\
       exists h, fmap (the_descs st') !! k = Some (Some h) /\
         hasP (eidb (idR c k)) h tl' = true /\ shows tl' h inner /\
         cnt (idR c k) tl' = 1 /\
         (forall h0, fmap (the_descs st) !! k = Some (Some h0) ->
            h0 = h /\ tl' = set_html h inner tl)).
Proof.
  intros I Hdd Hds. pose proof I as [Hd S St _].
  pose proof S as [Sfr Snx Scv Sdp Sout Sf1 Sf0 Sfo Sfs Sfw Sl1 Sl0 Slo Sls Slw].
  unfold describeElement_fallback. cbv zeta.
  change (default ∅ (fallbackElements (the_descs st))) with (fmap (the_descs st)).
  unfold obj_get. destruct (fmap (the_descs st) !! k) as [[h|]|] eqn:F.
  - (* the row is cached *)
    pose proof (st_f_nodes _ _ _ St k h F) as Hh.
    assert (Ht : hasP (fun _ => true) h tl = true).
    { eapply hasP_weaken; [|exact Hh]. auto. }
    destruct (refresh_ok c pre r post st tl h inner I Ht) as (st' & E & I' & E1 & E2 & E3 & E4).
    exists (Normal tt), st', (set_html h inner tl). split; [assumption|].
    assert (Edesc : the_descs st' = the_descs st) by (unfold the_descs; now rewrite E2).
    rewrite Edesc. conj; auto; try congruence.
    + apply labels_set_html; [|assumption]. eapply framed_nodup; eauto.
    + intros _. rewrite cnt_set_html. eapply frow_cached_container; eauto.
    + intros Hs. split; [reflexivity|]. exists h.
      pose proof (st_frow _ _ _ St k h Hs F) as Hr. conj; auto.
      * rewrite hasP_set_html by apply structural_eidb. assumption.
      * now apply shows_set_html.
      * rewrite cnt_set_html. specialize (Sfw k Hs). pose proof (hasP_cnt _ _ _ Hr). lia.
      * intros h0 [= <-]. auto.
  - (* a null reference is cached *)
    assert (Hp : is_prototype_key k = false).
    { destruct (is_prototype_key k) eqn:P; [|reflexivity].
      destruct (st_proto _ _ _ St k P). congruence. }
    assert (Hmiss : forall h, fmap (the_descs st) !! k <> Some (Some h)) by (rewrite F; discriminate).
    destruct (fallback_row_create st tl k inner I Hdd Hds Hp Hmiss)
      as (res & st' & tl' & E & I' & E1 & E2 & E3 & E4 & E5 & E6 & E7 & E8).
    exists res, st', tl'. conj; auto.
    intros Hs. destruct (E8 Hs) as (-> & h & F1 & F2 & F3 & F4).
    split; [reflexivity|]. exists h. conj; auto. discriminate.
  - destruct (is_prototype_key k) eqn:P.
    + (* a member of the prototype *)
      exists (Normal tt), st, tl. conj; auto; try discriminate.
      intros Hs. rewrite (safe_key_not_proto k Hs) in P. discriminate.
    + assert (Hmiss : forall h, fmap (the_descs st) !! k <> Some (Some h))
        by (rewrite F; discriminate).
      destruct (fallback_row_create st tl k inner I Hdd Hds P Hmiss)
        as (res & st' & tl' & E & I' & E1 & E2 & E3 & E4 & E5 & E6 & E7 & E8).
      exists res, st', tl'. conj; auto.
      intros Hs. destruct (E8 Hs) as (-> & h & F1 & F2 & F3 & F4).
      split; [reflexivity|]. exists h. conj; auto. discriminate.
Qed.

End RowParts.

(** ** Rows of the label table *)

Lemma extends_trans tl1 tl2 tl3 : extends tl1 tl2 -> extends tl2 tl3 -> extends tl1 tl3.
Proof. intros H1 H2 q h H. apply H2, H1, H. Qed.

(** The node of an element that a list was extended with is not a node of
    the list. *)
Lemma hasP_insert_fresh q l1 l2 e :
  NoDup (List.map node (l1 ++ [e] ++ l2)) -> hasP q (node e) (l1 ++ l2) = false.
Proof.
  intros Hnd. destruct (hasP q (node e) (l1 ++ l2)) eqn:E; [exfalso|reflexivity].
  apply hasP_handle in E. rewrite !map_app in Hnd. simpl in Hnd.
  apply NoDup_app in Hnd as (_ & H1 & Hnd). apply NoDup_cons in Hnd as [H2 _].
  rewrite map_app in E. apply in_app_or in E as [E | E].
  - apply (H1 (node e)); [now apply list_elem_of_In | left].
  - apply H2. now apply list_elem_of_In.
Qed.

(** The store after a new row of the label table is cached under its key,
    or a null reference is. *)
Lemma store_ok_lrow_update c l1 l2 n d k ds v :
  let row := Elem n d "tr" (idLR c k) [] "" in
  store_ok c (l1 ++ l2) ds ->
  cnt (idD c) (l1 ++ l2) = 1 ->
  cnt (idLC c) (l1 ++ l2) = 1 ->
  is_prototype_key k = false ->
  (safe_key k = true -> v = Some n) ->
  (forall h, v = Some h -> hasP (fun _ => true) h (l1 ++ [row] ++ l2) = true) ->
  store_ok c (l1 ++ [row] ++ l2) (set_labelElements (Some (<[k := v]> (lmap ds))) ds).
Proof.
  intros row St D1 LC1 Hp Hs Hv.
  destruct (census_counts _ _ _ _ _ _ _ _ _ _ _ (census_lrow c k n d "tr" [] ""))
    as (C0 & CD & CP & CT & CLC & CLP & CLT & CA & CAL). fold row in C0, CD, CP, CT, CLC, CLP, CLT.
  pose proof St as [Sf0 Sl0 Sfb Sfb' Slb Slb' Sfr Sfr' Slr Slr' Spr Sfn Sln].
  apply (store_ok_step c (l1 ++ l2) _ ds); try assumption.
  - apply keeps_insert.
  - intros h Hh. left. exact Hh.
  - intros h Hh. left. exact Hh.
  - intros k' h. store_views. now left.
  - intros k' h. store_views. destruct (decide (k = k')) as [<- | Hne].
    + rewrite lookup_insert_eq. intros [= ->]. right. split; [now apply Hv|].
      intros Hsafe. specialize (Hs Hsafe). injection Hs as <-.
      apply hasP_insert_new; [reflexivity|]. unfold row. now rewrite eidb_row_l, String.eqb_refl.
    + rewrite lookup_insert_ne by assumption. now left.
  - intros k' Hk'. store_views. destruct (Spr k' Hk') as [F L]. split; [assumption|].
    rewrite lookup_insert_ne; [assumption|]. intros ->. congruence.
  - store_views. rewrite !cnt_app, CP. intros H. apply Sfb'. rewrite cnt_app. lia.
  - store_views. rewrite !cnt_app, CLP. intros H. apply Slb'. rewrite cnt_app. lia.
  - intros k' Hk'. store_views. rewrite !cnt_app, cnt_single.
    replace (eidb (idR c k') row) with false.
    + intros H. apply Sfr'; [assumption|]. rewrite cnt_app. lia.
    + unfold row. symmetry. now ids.
  - intros k' Hk'. store_views. rewrite !cnt_app, cnt_single. unfold row.
    rewrite eidb_row_l. destruct (String.eqb k k') eqn:E.
    + apply String.eqb_eq in E. subst k'. intros _. exists n.
      rewrite lookup_insert_eq. now rewrite (Hs Hk').
    + intros H. apply String.eqb_neq in E. rewrite lookup_insert_ne by assumption.
      apply Slr'; [assumption|]. rewrite cnt_app. lia.
  - rewrite !cnt_app, CD. rewrite cnt_app in D1. lia.
  - rewrite !cnt_app, CLC. rewrite cnt_app in LC1. lia.
Qed.

Lemma store_ok_lrow_keep c l1 l2 n d k ds :
  let row := Elem n d "tr" (idLR c k) [] "" in
  store_ok c (l1 ++ l2) ds ->
  cnt (idD c) (l1 ++ l2) = 1 ->
  cnt (idLC c) (l1 ++ l2) = 1 ->
  safe_key k = false ->
  store_ok c (l1 ++ [row] ++ l2) ds.
Proof.
  intros row St D1 LC1 Hs.
  destruct (census_counts _ _ _ _ _ _ _ _ _ _ _ (census_lrow c k n d "tr" [] ""))
    as (C0 & CD & CP & CT & CLC & CLP & CLT & CA & CAL). fold row in C0, CD, CP, CT, CLC, CLP, CLT.
  pose proof St as [Sf0 Sl0 Sfb Sfb' Slb Slb' Sfr Sfr' Slr Slr' Spr Sfn Sln].
  apply (store_ok_step c (l1 ++ l2) _ ds); try assumption.
  - apply keeps_insert.
  - intros h Hh. left. exact Hh.
  - intros h Hh. left. exact Hh.
  - intros k' h. now left.
  - intros k' h. now left.
  - rewrite !cnt_app, CP. intros H. apply Sfb'. rewrite cnt_app. lia.
  - rewrite !cnt_app, CLP. intros H. apply Slb'. rewrite cnt_app. lia.
  - intros k' Hk'. rewrite !cnt_app, cnt_single.
    replace (eidb (idR c k') row) with false.
    + intros H. apply Sfr'; [assumption|]. rewrite cnt_app. lia.
    + unfold row. symmetry. now ids.
  - intros k' Hk'. rewrite !cnt_app, cnt_single. unfold row.
    rewrite eidb_row_l. destruct (String.eqb k k') eqn:E.
    + apply String.eqb_eq in E. subst k'. congruence.
    + intros H. apply Slr'; [assumption|]. rewrite cnt_app. lia.
  - rewrite !cnt_app, CD. rewrite cnt_app in D1. lia.
  - rewrite !cnt_app, CLC. rewrite cnt_app in LC1. lia.
Qed.

Section LabelRows.

Variable c : string.
Variables (pre : list elem) (r : elem) (post : list elem).
Hypothesis Hframe : frame_ok c pre r post.

(** The outcome of the scaffold for a row of the label table. *)
Lemma descElementLabelHTML_ok st tl k :
  dom st = pre ++ r :: tl ++ post ->
  structure_ok c pre r post (next st) tl ->
  store_ok c tl (the_descs st) ->
  cnt (idD c) tl = 1 ->
  (safe_key k = true -> cnt (idLR c k) tl = 0) ->
  exists st2 l1 l2 n res,
    let row := Elem n (depth r + 3) "tr" (idLR c k) [] "" in
    _descElementLabelHTML (Some (node r)) c k st = (res, st2) /\
    dom st2 = pre ++ r :: (l1 ++ [row] ++ l2) ++ post /\
    descs st2 = descs st /\ dummyDOM st2 = dummyDOM st /\
    structure_ok c pre r post (next st2) (l1 ++ [row] ++ l2) /\
    store_ok c (l1 ++ l2) (the_descs st) /\
    cnt (idD c) (l1 ++ l2) = 1 /\
    cnt (idLC c) (l1 ++ l2) = 1 /\
    extends tl (l1 ++ l2) /\
    ((exists x, res = Throw x) \/
     res = Normal (Some (None, Some (node r))) \/
     (exists e, res = Normal (Some (Some (node e), Some (node r))) /\
        In e (l1 ++ [row] ++ l2))) /\
    (safe_key k = true -> res = Normal (Some (Some n, Some (node r)))).
Proof.
  intros Hd S St D0 Hk.
  destruct (label_table_block_ok c pre r post (frame_id c pre r post Hframe) st tl Hd S D0)
    as (st1 & tl1 & dLC & dLT & E & Hd1 & Hds1 & Hdd1 & S1 & G & C1 & T1 & X1).
  pose proof S1 as [Sfr1 _ _ Sdp1 _ _ _ _ _ _ _ _ _ _ _].
  set (k2 := (r0 <- qs (Some (node r)) ("#" +:+ (c +:+ labelTableElId +:+ k)) ;;
              ret (Some (option_map node r0, Some (node r)))) : M results).
  destruct (append_row pre r post st1 tl1 (idLT c) (idLR c k) k2 Hd1 Sfr1
              (ident_suffix c (frame_id c pre r post Hframe) labelTableId eq_refl)) as (t & l1 & l2 & Et & -> & R);
    [lia|].
  destruct (find_fixed c pre r post _ _ _ _ S1 Et) as (_ & _ & _ & Ht & _ & Dt).
  apply depth_ok_spec in Dt as (_ & _ & _ & _ & _ & _ & _ & Dt & _).
  assert (Ht' : eidb (idLT c) t = true) by now apply eidb_eq.
  specialize (Dt Ht'). replace (Datatypes.S (depth t)) with (depth r + 3) in R by lia.
  set (row := Elem (next st1) (depth r + 3) "tr" (idLR c k) [] "") in *.
  set (st2 := set_dom (pre ++ r :: (l1 ++ [row] ++ l2) ++ post)
                (set_next (Datatypes.S (next st1)) st1)) in *.
  assert (D1 : cnt (idD c) (l1 ++ l2) = 1).
  { destruct G as [_ HD _ _ _ _ _ _ _]. lia. }
  assert (Hk1 : safe_key k = true -> cnt (idLR c k) (l1 ++ l2) = 0).
  { intros Hs. destruct G as [_ _ _ _ _ _ _ _ HR]. rewrite HR. auto. }
  assert (S2 : structure_ok c pre r post (next st2) (l1 ++ [row] ++ l2)).
  { unfold st2. cbn [next set_dom set_next].
    replace (Datatypes.S (next st1)) with (next st1 + 1) by lia.
    now apply structure_ok_lrow. }
  pose proof S2 as [Sfr2 _ _ Sdp2 _ _ _ _ _ _ _ _ _ _ _].
  assert (Run : _descElementLabelHTML (Some (node r)) c k st = k2 st2).
  { rewrite descElementLabelHTML_block. rewrite (bind_normal _ _ _ _ _ E). exact R. }
  assert (Hd2 : dom st2 = pre ++ r :: (l1 ++ [row] ++ l2) ++ post) by reflexivity.
  assert (Q : k2 st2 =
              (match querySelector (dom st2) (node r) ("#" +:+ idLR c k) with
               | Normal r0 => Normal (Some (option_map node r0, Some (node r)))
               | Throw x => Throw x
               end, st2)).
  { unfold k2, bind, qs, ret.
    destruct (querySelector (dom st2) (node r) ("#" +:+ idLR c k)); reflexivity. }
  exists st2, l1, l2, (next st1),
    (match querySelector (dom st2) (node r) ("#" +:+ idLR c k) with
     | Normal r0 => Normal (Some (option_map node r0, Some (node r)))
     | Throw x => Throw x
     end).
  cbv zeta. fold row. split; [now rewrite Run|]. conj; auto.
  - apply (grows_store c _ tl _ 0 0 dLC dLT); assumption.
  - destruct (querySelector (dom st2) (node r) ("#" +:+ idLR c k)) as [[e|]|x] eqn:QE.
    + right. right. exists e. split; [reflexivity|]. rewrite Hd2 in QE.
      eapply querySelector_in; eauto.
    + right. now left.
    + left. eauto.
  - intros Hs. rewrite Hd2, (querySelector_framed _ pre r _ post Sfr2 (ident_lrow c (frame_id c pre r post Hframe) k Hs)).
    assert (F : find_id (idLR c k) (l1 ++ [row] ++ l2) = Some row).
    { specialize (Hk1 Hs). rewrite cnt_app in Hk1.
      rewrite find_id_app. replace (find_id (idLR c k) l1) with (@None elem).
      - simpl. unfold eidb, row. simpl. now rewrite String.eqb_refl.
      - symmetry. apply find_id_none. lia. }
    now rewrite F.
Qed.

(** A row of the label table is created for a key that the store does not
    hold a node for. *)
Lemma label_row_create st tl k inner :
  inv c pre r post st tl ->
  dummyDOM st = Some (node r) ->
  descs st = Some (the_descs st) ->
  cnt (idD c) tl = 1 ->
  is_prototype_key k = false ->
  (forall h, lmap (the_descs st) !! k <> Some (Some h)) ->
  exists res st' tl',
    (dd <- gets dummyDOM ;;
     results <- _descElementLabelHTML dd c k ;;
     n <- result_node results ;;
     update_descs (set_labelElements (Some (<[k := n]> (lmap (the_descs st))))) ;;;
     dd' <- result_dummyDOM results ;;
     modify (set_dummyDOM dd') ;;;
     write_ref n inner) st = (res, st') /\
    inv c pre r post st' tl' /\
    dummyDOM st' = Some (node r) /\ descs st' = Some (the_descs st') /\
    fallback (the_descs st') = fallback (the_descs st) /\
    label (the_descs st') = label (the_descs st) /\
    fallbackElements (the_descs st') = fallbackElements (the_descs st) /\
    (safe_key k = true ->
       res = Normal tt /\
       exists h, lmap (the_descs st') !! k = Some (Some h) /\
         hasP (eidb (idLR c k)) h tl' = true /\ shows tl' h inner /\
         cnt (idLR c k) tl' = 1 /\ extends_but h tl tl' /\
         hasP (fun _ => true) h tl = false).
Proof.
  intros I Hdd Hds D0 Hp Hmiss. pose proof I as [Hd S St _].
  assert (Hk : safe_key k = true -> cnt (idLR c k) tl = 0).
  { intros Hs. destruct (cnt (idLR c k) tl) eqn:E; [reflexivity|]. exfalso.
    destruct (st_lrow' _ _ _ St k Hs) as [h Hh]; [lia|]. exact (Hmiss h Hh). }
  destruct (descElementLabelHTML_ok st tl k Hd S St D0 Hk)
    as (st2 & l1 & l2 & n & res & H).
  cbv zeta in H.
  destruct H as (R & Hd2 & Hds2 & Hdd2 & S2 & St1 & D1 & C1 & X1 & Hres & Hsafe).
  set (row := Elem n (depth r + 3) "tr" (idLR c k) [] "") in *.
  set (tl2 := l1 ++ [row] ++ l2) in *.
  pose proof S2 as [Sfr2 _ _ _ _ _ _ _ _ _ _ _ _ _ Slw2].
  assert (Edesc : the_descs st2 = the_descs st) by (unfold the_descs; now rewrite Hds2).
  rewrite bind_gets, Hdd.
  assert (U : forall v, update_descs (set_labelElements (Some (<[k := v]> (lmap (the_descs st))))) st2
              = (Normal tt,
                 set_descs (Some (set_labelElements (Some (<[k := v]> (lmap (the_descs st))))
                                    (the_descs st))) st2)).
  { intros v. unfold update_descs. now rewrite Hds2, Hds. }
  assert (St2 : forall v, (safe_key k = true -> v = Some n) ->
              (forall h, v = Some h -> hasP (fun _ => true) h tl2 = true) ->
              store_ok c tl2 (set_labelElements (Some (<[k := v]> (lmap (the_descs st))))
                                (the_descs st))).
  { intros v H1 H2. now apply store_ok_lrow_update. }
  destruct Hres as [[x ->] | [-> | (e & -> & He)]].
  - (* the query for the row is refused *)
    assert (Hs : safe_key k = false).
    { destruct (safe_key k); [|reflexivity]. now specialize (Hsafe eq_refl). }
    rewrite (bind_throw _ _ _ _ _ R).
    exists (Throw x), st2, tl2. split; [reflexivity|]. rewrite Edesc. conj; auto; try congruence.
    constructor; auto.
    + rewrite Edesc. now apply store_ok_lrow_keep.
    + right. congruence.
  - (* the query finds no node *)
    assert (Hs : safe_key k = false).
    { destruct (safe_key k); [|reflexivity]. now specialize (Hsafe eq_refl). }
    rewrite (bind_normal _ _ _ _ _ R). simpl result_node. rewrite bind_ret.
    rewrite (bind_normal _ _ _ _ _ (U None)). simpl result_dummyDOM.
    rewrite bind_ret, bind_modify. simpl write_ref. unfold throw.
    eexists (Throw TypeError), _, tl2. split; [reflexivity|]. sketch_simpl.
    conj; auto; try congruence.
    constructor; sketch_simpl; auto.
    apply St2; [congruence | discriminate].
  - (* the query finds a node *)
    rewrite (bind_normal _ _ _ _ _ R). simpl result_node. rewrite bind_ret.
    rewrite (bind_normal _ _ _ _ _ (U (Some (node e)))). simpl result_dummyDOM.
    rewrite bind_ret, bind_modify. simpl write_ref. unfold write_html, modify.
    assert (Ht : hasP (fun _ => true) (node e) tl2 = true) by now apply hasP_in.
    assert (Hset : set_html (node e) inner (dom st2)
                   = pre ++ r :: set_html (node e) inner tl2 ++ post).
    { rewrite Hd2. now apply set_html_framed. }
    eexists (Normal tt), _, (set_html (node e) inner tl2). split; [reflexivity|]. sketch_simpl.
    conj; auto.
    + constructor; sketch_simpl; auto.
      * now apply structure_ok_set_html.
      * apply store_ok_set_html. apply St2.
        -- intros Hs. specialize (Hsafe Hs). congruence.
        -- intros h [= <-]. exact Ht.
    + intros Hs. split; [reflexivity|]. specialize (Hsafe Hs).
      assert (En : node e = n) by congruence.
      exists n. store_views. rewrite En, lookup_insert_eq. conj; auto.
      * rewrite hasP_set_html by apply structural_eidb.
        apply hasP_insert_new; [reflexivity|]. unfold row. now rewrite eidb_row_l, String.eqb_refl.
      * rewrite <- En. apply shows_set_html. assumption.
      * rewrite cnt_set_html. specialize (Slw2 k Hs).
        assert (1 <= cnt (idLR c k) tl2); [|lia].
        unfold tl2. rewrite !cnt_app, cnt_single. unfold row.
        rewrite eidb_row_l, String.eqb_refl. lia.
      * eapply extends_extends_but; [|apply extends_but_set_html].
        eapply extends_trans; [exact X1 | apply extends_insert].
      * destruct (hasP (fun _ => true) n tl) eqn:Hn; [|reflexivity].
        apply X1 in Hn. pose proof (framed_nodup _ _ _ _ Sfr2) as Hnd2.
        pose proof (hasP_insert_fresh (fun _ => true) l1 l2 row Hnd2) as Hf.
        simpl node in Hf. congruence.
Qed.

Lemma lrow_is_label k e : eidb (idLR c k) e = true -> is_label_elem c e = true.
Proof.
  intros H. unfold is_label_elem. now rewrite (row_is_lrow _ _ _ H), !orb_true_r.
Qed.

Lemma describeElement_label_ok st tl k inner :
  inv c pre r post st tl ->
  dummyDOM st = Some (node r) ->
  descs st = Some (the_descs st) ->
  (is_prototype_key k = false -> cnt (idD c) tl = 1) ->
  exists res st' tl',
    describeElement_label c k inner (the_descs st) st = (res, st') /\
    inv c pre r post st' tl' /\
    dummyDOM st' = Some (node r) /\ descs st' = Some (the_descs st') /\
    fallback (the_descs st') = fallback (the_descs st) /\
    label (the_descs st') = label (the_descs st) /\
    fallbackElements (the_descs st') = fallbackElements (the_descs st) /\
    (safe_key k = true ->
       res = Normal tt /\
       exists h, lmap (the_descs st') !! k = Some (Some h) /\
         hasP (eidb (idLR c k)) h tl' = true /\ shows tl' h inner /\
         cnt (idLR c k) tl' = 1 /\ extends_but h tl tl' /\
         (hasP (fun _ => true) h tl = true -> hasP (is_label_elem c) h tl = true) /\
         (forall h0, lmap (the_descs st) !! k = Some (Some h0) ->
            h0 = h /\ tl' = set_html h inner tl)).
Proof.
  intros I Hdd Hds HD. pose proof I as [Hd S St _].
  pose proof S as [Sfr Snx Scv Sdp Sout Sf1 Sf0 Sfo Sfs Sfw Sl1 Sl0 Slo Sls Slw].
  unfold describeElement_label. cbv zeta.
  change (default ∅ (labelElements (the_descs st))) with (lmap (the_descs st)).
  assert (Create : is_prototype_key k = false ->
            (forall h, lmap (the_descs st) !! k <> Some (Some h)) ->
            exists res st' tl',
              (dd <- gets dummyDOM ;;
               results <- _descElementLabelHTML dd c k ;;
               n <- result_node results ;;
               update_descs (set_labelElements (Some (<[k := n]> (lmap (the_descs st))))) ;;;
               dd' <- result_dummyDOM results ;;
               modify (set_dummyDOM dd') ;;;
               write_ref n inner) st = (res, st') /\
              inv c pre r post st' tl' /\
              dummyDOM st' = Some (node r) /\ descs st' = Some (the_descs st') /\
              fallback (the_descs st') = fallback (the_descs st) /\
              label (the_descs st') = label (the_descs st) /\
              fallbackElements (the_descs st') = fallbackElements (the_descs st) /\
              (safe_key k = true ->
                 res = Normal tt /\
                 exists h, lmap (the_descs st') !! k = Some (Some h) /\
                   hasP (eidb (idLR c k)) h tl' = true /\ shows tl' h inner /\
                   cnt (idLR c k) tl' = 1 /\ extends_but h tl tl' /\
                   (hasP (fun _ => true) h tl = true ->
                    hasP (is_label_elem c) h tl = true) /\
                   (forall h0, lmap (the_descs st) !! k = Some (Some h0) ->
                      h0 = h /\ tl' = set_html h inner tl))).
  { intros Hp Hmiss.
    destruct (label_row_create st tl k inner I Hdd Hds (HD Hp) Hp Hmiss)
      as (res & st' & tl' & E & I' & E1 & E2 & E3 & E4 & E5 & E6).
    exists res, st', tl'. conj; auto.
    intros Hs. destruct (E6 Hs) as (-> & h & F1 & F2 & F3 & F4 & F5 & F6).
    split; [reflexivity|]. exists h. conj; auto.
    - congruence.
    - intros h0 Hh0. now destruct (Hmiss h0). }
  unfold obj_get. destruct (lmap (the_descs st) !! k) as [[h|]|] eqn:F.
  - (* the row is cached *)
    pose proof (st_l_nodes _ _ _ St k h F) as Ht.
    destruct (refresh_ok c pre r post st tl h inner I Ht)
      as (st' & E & I' & E1 & E2 & E3 & E4).
    exists (Normal tt), st', (set_html h inner tl). split; [assumption|].
    assert (Edesc : the_descs st' = the_descs st) by (unfold the_descs; now rewrite E2).
    rewrite Edesc. conj; auto; try congruence.
    intros Hs. split; [reflexivity|]. exists h.
    pose proof (st_lrow _ _ _ St k h Hs F) as Hr. conj; auto.
    + rewrite hasP_set_html by apply structural_eidb. assumption.
    + now apply shows_set_html.
    + rewrite cnt_set_html. specialize (Slw k Hs). pose proof (hasP_cnt _ _ _ Hr). lia.
    + apply extends_but_set_html.
    + intros _. eapply hasP_weaken; [|exact Hr]. apply lrow_is_label.
    + intros h0 [= <-]. auto.
  - (* a null reference is cached *)
    apply Create; [|discriminate].
    destruct (is_prototype_key k) eqn:P; [|reflexivity].
    destruct (st_proto _ _ _ St k P). congruence.
  - destruct (is_prototype_key k) eqn:P.
    + (* a member of the prototype *)
      exists (Normal tt), st, tl. conj; auto; try discriminate.
      intros Hs. rewrite (safe_key_not_proto k Hs) in P. discriminate.
    + apply Create; [reflexivity | discriminate].
Qed.

End LabelRows.

(** ** The two operations on a page that satisfies the invariant *)

Section Calls.

Variable c : string.
Variable L : jsval.
Variables (pre : list elem) (r : elem) (post : list elem).
Hypothesis Hframe : frame_ok c pre r post.

Lemma inv_nodup st tl : inv c pre r post st tl -> NoDup (List.map node tl).
Proof. intros [_ [Sfr _ _ _ _ _ _ _ _ _ _ _ _ _ _] _ _]. eapply framed_nodup; eauto. Qed.

(** A node of the fallback region is not the node that the label part of
    a call writes. *)
Lemma fallback_node_apart tl hf hl (p : elem -> bool) :
  NoDup (List.map node tl) ->
  (forall e, p e = true -> is_label_elem c e = false) ->
  hasP p hf tl = true ->
  (hasP (fun _ => true) hl tl = true -> hasP (is_label_elem c) hl tl = true) ->
  hf <> hl.
Proof.
  intros Hnd Hp Hf Hl ->.
  assert (Ht : hasP (fun _ => true) hl tl = true).
  { eapply hasP_weaken; [|exact Hf]. auto. }
  destruct (hasP_both _ _ _ _ Hnd Hf (Hl Ht)) as (e & _ & _ & A & B).
  rewrite (Hp e A) in B. discriminate.
Qed.

(** [describe] with a text that is not reserved. *)
Lemma describe_ok st tl t t' display :
  inv c pre r post st tl ->
  _descriptionText t = Normal t' ->
  exists st' tl' hf,
    describe c L (VString t) display st = (Normal tt, st') /\
    inv c pre r post st' tl' /\
    fallback (the_descs st') = Some hf /\
    hasP (eidb (idP c)) hf tl' = true /\ shows tl' hf t' /\
    cnt (idP c) tl' = 1 /\
    cnt (idT c) tl' = cnt (idT c) tl /\
    (strict_eq display L = false ->
       labels c tl' = labels c tl /\
       label (the_descs st') = label (the_descs st) /\
       labelElements (the_descs st') = labelElements (the_descs st)) /\
    (strict_eq display L = true ->
       exists hl, label (the_descs st') = Some hl /\
         hasP (eidb (idLP c)) hl tl' = true /\ shows tl' hl t' /\
         cnt (idLP c) tl' = 1).
Proof.
  intros I Ht. rewrite describe_parts, Ht, bind_lift_normal.
  destruct (locate_ok c pre r post Hframe st tl I) as (st1 & E1 & I1 & Hdd1 & Hd1 & Hds1 & Hn1).
  rewrite (bind_normal _ _ _ _ _ E1).
  destruct (init_descriptions_ok c pre r post st1 tl I1)
    as (st2 & E2 & I2 & Hdd2 & Hd2 & Hn2 & Hdesc2 & Hds2).
  rewrite (bind_normal _ _ _ _ _ E2), bind_gets.
  assert (Edesc1 : the_descs st1 = the_descs st) by (unfold the_descs; now rewrite Hds1).
  rewrite <- Hdesc2 in Hds2. rewrite Hdd1 in Hdd2.
  destruct (describe_fallback_ok c pre r post Hframe st2 tl t' I2 Hdd2 Hds2)
    as (st3 & tl3 & hf & E3 & I3 & Hdd3 & Hds3 & F3 & Sh3 & D3 & L3 & Lb3 & LE3 & T3).
  rewrite (bind_normal _ _ _ _ _ E3).
  pose proof (st_fallback _ _ _ (inv_store _ _ _ _ _ _ I3) hf F3) as HP3.
  assert (C3 : cnt (idP c) tl3 = 1).
  { pose proof (inv_structure _ _ _ _ _ _ I3) as [_ _ _ _ _ (_ & Sp & _) _ _ _ _ _ _ _ _ _].
    pose proof (hasP_cnt _ _ _ HP3). lia. }
  destruct (strict_eq display L).
  - rewrite bind_gets.
    destruct (describe_label_ok c pre r post Hframe st3 tl3 t' I3 Hdd3 Hds3 D3)
      as (st4 & tl4 & hl & E4 & I4 & Hdd4 & Hds4 & F4 & HP4 & Sh4 & D4 & X4 & Fr4 & Fb4 & Fm4 & T4).
    assert (Hne : hf <> hl).
    { apply (fallback_node_apart tl3 hf hl (eidb (idP c))); auto.
      - eapply inv_nodup; eauto.
      - intros e He. apply negb_true_iff. now apply (P_not_label c). }
    exists st4, tl4, hf. split; [assumption|]. conj; auto; try congruence.
    + apply (X4 _ hf Hne Sh3).
    + pose proof (inv_structure _ _ _ _ _ _ I4) as [_ _ _ _ _ (_ & Sp & _) _ _ _ _ _ _ _ _ _].
      pose proof (hasP_cnt _ _ _ (X4 _ hf Hne HP3)). lia.
    + intros _. exists hl. conj; auto.
      pose proof (inv_structure _ _ _ _ _ _ I4) as [_ _ _ _ _ _ _ _ _ _ (_ & Sp & _) _ _ _ _].
      pose proof (hasP_cnt _ _ _ HP4). lia.
  - exists st3, tl3, hf. split; [reflexivity|]. conj; auto; try discriminate.
    intros _. rewrite Lb3, LE3, Hdesc2, Edesc1. auto.
Qed.

(** [describeElement] with a name and a text that are not reserved. *)
Lemma describeElement_run st tl n t n' t' display :
  inv c pre r post st tl ->
  _descriptionText t = Normal t' ->
  _elementName n = Normal n' ->
  exists res st' tl',
    describeElement c L (VString n) (VString t) display st = (res, st') /\
    inv c pre r post st' tl' /\
    (strict_eq display L = false ->
       labels c tl' = labels c tl /\
       label (the_descs st') = label (the_descs st) /\
       labelElements (the_descs st') = labelElements (the_descs st)) /\
    (safe_key (sanitize n) = true ->
       res = Normal tt /\
       exists hf, fmap (the_descs st') !! sanitize n = Some (Some hf) /\
         hasP (eidb (idR c (sanitize n))) hf tl' = true /\
         shows tl' hf (row_inner n' t') /\
         cnt (idR c (sanitize n)) tl' = 1 /\
         (forall h0, fmap (the_descs st) !! sanitize n = Some (Some h0) ->
            h0 = hf /\
            (strict_eq display L = false -> tl' = set_html hf (row_inner n' t') tl)) /\
         (strict_eq display L = true ->
            exists hl, lmap (the_descs st') !! sanitize n = Some (Some hl) /\
              hasP (eidb (idLR c (sanitize n))) hl tl' = true /\
              shows tl' hl (row_inner n' t') /\
              cnt (idLR c (sanitize n)) tl' = 1 /\
              (forall h0, lmap (the_descs st) !! sanitize n = Some (Some h0) -> h0 = hl))).
Proof.
  intros I Ht Hn. rewrite describeElement_parts, Ht, bind_lift_normal, Hn, bind_lift_normal.
  set (k := sanitize n). set (inner := row_inner n' t').
  destruct (locate_ok c pre r post Hframe st tl I) as (st1 & E1 & I1 & Hdd1 & Hd1 & Hds1 & Hn1).
  rewrite (bind_normal _ _ _ _ _ E1).
  assert (Edesc1 : the_descs st1 = the_descs st) by (unfold the_descs; now rewrite Hds1).
  destruct (init_fallbackElements_ok c pre r post st1 tl I1)
    as (st2 & E2 & I2 & Hdd2 & Hd2 & Hn2 & Fb2 & Lb2 & Fm2 & Lm2 & LE2 & Hds2).
  rewrite (bind_normal _ _ _ _ _ E2), bind_gets. rewrite Hdd1 in Hdd2.
  destruct (describeElement_fallback_ok c pre r post Hframe st2 tl k inner I2 Hdd2 Hds2)
    as (res & st3 & tl3 & E3 & I3 & Hdd3 & Hds3 & L3 & Lb3 & LE3 & Fb3 & HD3 & Hsafe3).
  assert (Lm3 : lmap (the_descs st3) = lmap (the_descs st)).
  { unfold lmap at 1. rewrite LE3. fold (lmap (the_descs st2)). now rewrite Lm2, Edesc1. }
  rewrite Edesc1 in *.
  destruct res as [[] | x].
  - rewrite (bind_normal _ _ _ _ _ E3). destruct (strict_eq display L) eqn:SE.
    + destruct (init_labelElements_ok c pre r post st3 tl3 I3 Hds3)
        as (st4 & E4 & I4 & Hdd4 & Hd4 & Hn4 & Fb4 & Lb4 & Fm4 & Lm4 & Hds4).
      rewrite (bind_normal _ _ _ _ _ E4), bind_gets. rewrite Hdd3 in Hdd4.
      assert (HD4 : is_prototype_key k = false -> cnt (idD c) tl3 = 1) by exact HD3.
      destruct (describeElement_label_ok c pre r post Hframe st4 tl3 k inner I4 Hdd4 Hds4 HD4)
        as (res5 & st5 & tl5 & E5 & I5 & Hdd5 & Hds5 & Fb5 & Lb5 & FE5 & Hsafe5).
      exists res5, st5, tl5. split; [assumption|]. split; [assumption|].
      split; [discriminate|].
      intros Hs. destruct (Hsafe3 Hs) as (_ & hf & F1 & F2 & F3 & F4 & F5).
      destruct (Hsafe5 Hs) as (-> & hl & G1 & G2 & G3 & G4 & G5 & G6 & G7).
      assert (Hne : hf <> hl).
      { apply (fallback_node_apart tl3 hf hl (eidb (idR c k))); auto.
        - eapply inv_nodup; eauto.
        - intros e He. apply negb_true_iff. now apply (row_not_label c k). }
      split; [reflexivity|]. exists hf. conj.
      * unfold fmap. rewrite FE5. fold (fmap (the_descs st4)). now rewrite Fm4.
      * apply (G5 _ hf Hne F2).
      * apply (G5 _ hf Hne F3).
      * pose proof (inv_structure _ _ _ _ _ _ I5) as [_ _ _ _ _ _ _ _ _ Sw _ _ _ _ _].
        specialize (Sw k Hs). pose proof (hasP_cnt _ _ _ (G5 _ hf Hne F2)). lia.
      * intros h0 Hh0. rewrite <- Fm2 in Hh0. destruct (F5 h0 Hh0) as [-> _].
        split; [reflexivity | discriminate].
      * intros _. exists hl. conj; auto.
        intros h0 Hh0. rewrite <- Lm3, <- Lm4 in Hh0. now destruct (G7 h0 Hh0).
    + exists (Normal tt), st3, tl3. split; [reflexivity|]. split; [assumption|].
      split.
      * intros _. rewrite L3, Lb3, LE3, Lb2, LE2. auto.
      * intros Hs. destruct (Hsafe3 Hs) as (_ & hf & F1 & F2 & F3 & F4 & F5).
        split; [reflexivity|]. exists hf. conj; auto; try discriminate.
        intros h0 Hh0. rewrite <- Fm2 in Hh0. destruct (F5 h0 Hh0) as [-> ->]. auto.
  - rewrite (bind_throw _ _ _ _ _ E3).
    exists (Throw x), st3, tl3. split; [reflexivity|]. split; [assumption|]. split.
    + intros _. rewrite L3, Lb3, LE3, Lb2, LE2. auto.
    + intros Hs. now destruct (Hsafe3 Hs).
Qed.

(** Every call keeps the invariant, and a call whose display argument is
    not the label constant leaves the label region and the label entries
    of the store as they are. *)
Lemma describe_step st tl text display :
  inv c pre r post st tl ->
  exists tl',
    inv c pre r post (snd (describe c L text display st)) tl' /\
    (strict_eq display L = false ->
       labels c tl' = labels c tl /\
       label (the_descs (snd (describe c L text display st))) = label (the_descs st) /\
       labelElements (the_descs (snd (describe c L text display st)))
       = labelElements (the_descs st)).
Proof.
  intros I. destruct text as [| | | |t]; try (exists tl; split; [exact I | auto]).
  destruct (descriptionText_result t) as [[_ [msg E]] | [_ [t' E]]].
  - rewrite describe_parts, E. exists tl. split; [exact I | auto].
  - destruct (describe_ok st tl t t' display I E)
      as (st' & tl' & hf & R & I' & _ & _ & _ & _ & _ & H & _).
    rewrite R. exists tl'. split; [exact I' | exact H].
Qed.

Lemma describeElement_step st tl name text display :
  inv c pre r post st tl ->
  exists tl',
    inv c pre r post (snd (describeElement c L name text display st)) tl' /\
    (strict_eq display L = false ->
       labels c tl' = labels c tl /\
       label (the_descs (snd (describeElement c L name text display st)))
       = label (the_descs st) /\
       labelElements (the_descs (snd (describeElement c L name text display st)))
       = labelElements (the_descs st)).
Proof.
  intros I.
  destruct text as [| | | |t]; try (exists tl; split; [exact I | auto]).
  destruct name as [| | | |n]; try (exists tl; split; [exact I | auto]).
  destruct (descriptionText_result t) as [[_ [msg E]] | [_ [t' E]]].
  - rewrite describeElement_parts, E. exists tl. split; [exact I | auto].
  - destruct (elementName_result n) as [[_ [msg En]] | [_ [n' En]]].
    + rewrite describeElement_parts, E, bind_lift_normal, En. exists tl. split; [exact I | auto].
    + destruct (describeElement_run st tl n t n' t' display I E En)
        as (res & st' & tl' & R & I' & H & _).
      rewrite R. exists tl'. split; [exact I' | exact H].
Qed.

Lemma exec_inv cl st tl :
  inv c pre r post st tl -> exists tl', inv c pre r post (snd (exec c L cl st)) tl'.
Proof.
  intros I. destruct cl as [text display | name text display]; simpl.
  - destruct (describe_step st tl text display I) as (tl' & I' & _). eauto.
  - destruct (describeElement_step st tl name text display I) as (tl' & I' & _). eauto.
Qed.

Lemma run_inv cs st tl :
  inv c pre r post st tl -> exists tl', inv c pre r post (run c L cs st) tl'.
Proof.
  revert st tl. induction cs as [|cl cs IH]; intros st tl I; simpl.
  - eauto.
  - destruct (exec_inv cl st tl I) as (tl1 & I1). exact (IH _ _ I1).
Qed.

(** The label region of the page lies below the parent of the canvas. *)
Lemma labels_dom st tl : inv c pre r post st tl -> labels c (dom st) = labels c tl.
Proof.
  intros [Hd _ _ _]. rewrite Hd. pose proof Hframe as [_ Hh].
  assert (Hn : forall l, Forall (fun e => host_elem c e = true) l -> labels c l = []).
  { induction l as [|e l IH]; intros H; [reflexivity|].
    apply Forall_cons in H as [He Hl]. unfold labels in *. simpl.
    unfold host_elem, is_module_elem in He.
    destruct (is_label_elem c e); [|auto].
    rewrite orb_true_r in He. discriminate. }
  apply Forall_app in Hh as [H1 H2]. apply Forall_cons in H2 as [H2 H3].
  assert (Hr : labels c [r] = []) by (apply Hn; repeat constructor; assumption).
  change (r :: tl ++ post) with ([r] ++ tl ++ post).
  unfold labels in *. rewrite !List.filter_app.
  rewrite (Hn pre H1), (Hn post H3), Hr. simpl. now rewrite app_nil_r.
Qed.

End Calls.

(** ** From the subtree of the parent of the canvas to the page *)

Lemma module_fallback c e : is_fallback_elem c e = true -> is_module_elem c e = true.
Proof. intros H. unfold is_module_elem. now rewrite H. Qed.

Lemma module_label c e : is_label_elem c e = true -> is_module_elem c e = true.
Proof. intros H. unfold is_module_elem. now rewrite H, orb_true_r. Qed.

Lemma module_P c e : eidb (idP c) e = true -> is_module_elem c e = true.
Proof. intros H. apply module_fallback. now apply P_is_fallback. Qed.

Lemma module_T c e : eidb (idT c) e = true -> is_module_elem c e = true.
Proof. intros H. apply module_fallback. unfold is_fallback_elem. now rewrite H, !orb_true_r. Qed.

Lemma module_R c k e : eidb (idR c k) e = true -> is_module_elem c e = true.
Proof. intros H. apply module_fallback. now apply (row_is_fallback c k). Qed.

Lemma module_LP c e : eidb (idLP c) e = true -> is_module_elem c e = true.
Proof. intros H. apply module_label. unfold is_label_elem. now rewrite H, !orb_true_r. Qed.

Lemma module_LT c e : eidb (idLT c) e = true -> is_module_elem c e = true.
Proof. intros H. apply module_label. unfold is_label_elem. now rewrite H, !orb_true_r. Qed.

Lemma module_LR c k e : eidb (idLR c k) e = true -> is_module_elem c e = true.
Proof. intros H. apply module_label. now apply (lrow_is_label c k). Qed.

Section Page.

Variable c : string.
Variables (pre : list elem) (r : elem) (post : list elem).
Hypothesis Hframe : frame_ok c pre r post.

Lemma host_counts x l :
  (forall e, eidb x e = true -> is_module_elem c e = true) ->
  Forall (fun e => host_elem c e = true) l -> cnt x l = 0.
Proof.
  intros Hx Hl. apply (cnt_avoid (is_module_elem c)); [assumption|].
  eapply Forall_impl; [exact Hl|]. intros e He. unfold host_elem in He.
  apply andb_true_iff in He as [He _]. now apply negb_true_iff in He.
Qed.

Lemma cnt_dom st tl x :
  inv c pre r post st tl ->
  (forall e, eidb x e = true -> is_module_elem c e = true) ->
  cnt x (dom st) = cnt x tl.
Proof.
  intros [Hd _ _ _] Hx. rewrite Hd. pose proof Hframe as [_ Hh].
  apply Forall_app in Hh as [H1 H2]. apply Forall_cons in H2 as [H2 H3].
  change (r :: tl ++ post) with ([r] ++ tl ++ post). rewrite !cnt_app.
  rewrite (host_counts x pre Hx H1), (host_counts x post Hx H3).
  rewrite (host_counts x [r] Hx) by (repeat constructor; assumption). lia.
Qed.

Lemma hasP_dom st tl q h :
  inv c pre r post st tl -> hasP q h tl = true -> hasP q h (dom st) = true.
Proof.
  intros [Hd _ _ _] H. rewrite Hd.
  change (r :: tl ++ post) with ([r] ++ tl ++ post).
  rewrite !hasP_app, H. now rewrite !orb_true_r.
Qed.

Lemma shows_dom st tl h s :
  inv c pre r post st tl -> shows tl h s -> shows (dom st) h s.
Proof. intros I H. unfold shows in *. eapply hasP_dom; eauto. Qed.

Lemma ordered_dom st tl x y :
  inv c pre r post st tl ->
  (forall e, eidb x e = true -> is_module_elem c e = true) ->
  (forall e, eidb y e = true -> is_module_elem c e = true) ->
  ordered x y tl -> ordered x y (dom st).
Proof.
  intros [Hd _ _ _] Hx Hy Ho. rewrite Hd. pose proof Hframe as [_ Hh].
  apply Forall_app in Hh as [H1 H2]. apply Forall_cons in H2 as [H2 H3].
  assert (Hr : Forall (fun e => host_elem c e = true) [r]) by (repeat constructor; assumption).
  change (r :: tl ++ post) with ([r] ++ tl ++ post).
  apply ordered_app. split; [apply ordered_none_x; now apply host_counts|].
  split; [|left; now apply host_counts].
  apply ordered_app. split; [apply ordered_none_x; now apply host_counts|].
  split; [|left; now apply host_counts].
  apply ordered_app. split; [assumption|].
  split; [apply ordered_none_x; now apply host_counts|].
  right. now apply host_counts.
Qed.

Lemma set_html_dom st tl h s :
  inv c pre r post st tl -> hasP (fun _ => true) h tl = true ->
  set_html h s (dom st) = pre ++ r :: set_html h s tl ++ post.
Proof.
  intros [Hd [Sfr _ _ _ _ _ _ _ _ _ _ _ _ _ _] _ _] H. rewrite Hd. now apply set_html_framed.
Qed.

End Page.

(** * The page after any sequence of calls *)

(** The example page is a page before the first call. *)
Lemma fresh_sketch0 :
  fresh "c" [Elem 0 0 "body" "" [] ""] (Elem 1 1 "main" "" [] "") []
    [Elem 2 2 "canvas" "c" [] ""] sketch0.
Proof.
  constructor.
  - constructor; [reflexivity | repeat constructor].
  - reflexivity.
  - unfold framed. split; [|split].
    + apply (bool_decide_unpack _). reflexivity.
    + repeat constructor.
    + exact I.
  - repeat constructor.
  - reflexivity.
  - repeat constructor.
  - repeat constructor.
  - reflexivity.
  - reflexivity.
Defined.

Lemma fixed_ids_differ c x y : x <> y -> c +:+ x <> c +:+ y.
Proof.
  intros H E. apply H. induction c as [|a s IH]; [exact E|].
  injection E as E. auto.
Qed.




(** * The display argument *)

Lemma slot_node m k h : m !! k = Some (Some h) -> obj_get m k = PNode h.
Proof. intros H. unfold obj_get. now rewrite H. Qed.




(** * Names with the same key *)




(** * Further properties *)

(** ** Keys and normalised texts *)

Lemma filter_chars_all f s : all_chars f (filter_chars f s) = true.
Proof.
  induction s as [|a s IH]; simpl; [reflexivity|].
  destruct (f a) eqn:E; simpl; [now rewrite E|assumption].
Qed.

Lemma filter_chars_fixed f s : filter_chars f s = s <-> all_chars f s = true.
Proof.
  split.
  - intros H. rewrite <- H. apply filter_chars_all.
  - induction s as [|a s IH]; simpl; [reflexivity|].
    intros H. apply andb_true_iff in H as [Ha Hs]. now rewrite Ha, (IH Hs).
Qed.

Lemma filter_chars_length f s : String.length (filter_chars f s) <= String.length s.
Proof.
  induction s as [|a s IH]; simpl; [lia|]. destruct (f a); simpl; lia.
Qed.

Lemma filter_chars_app f s1 s2 :
  filter_chars f (s1 +:+ s2) = filter_chars f s1 +:+ filter_chars f s2.
Proof.
  induction s1 as [|a s1 IH]; [now rewrite !append_nil_l|].
  change (String a s1 +:+ s2) with (String a (s1 +:+ s2)). simpl.
  destruct (f a); rewrite IH; reflexivity.
Qed.

(** X1: the key of a name holds only letters, digits and spaces; a name
    of such characters is its own key, and no other name is; taking the
    key of a key changes nothing; the key is no longer than the name and
    the key of a concatenation is the concatenation of the keys. *)
Theorem sanitize_spec (n m : string) :
  all_chars key_char (sanitize n) = true /\
  (sanitize n = n <-> all_chars key_char n = true) /\
  sanitize (sanitize n) = sanitize n /\
  String.length (sanitize n) <= String.length n /\
  sanitize (n +:+ m) = sanitize n +:+ sanitize m.
Proof.
  unfold sanitize. conj.
  - apply filter_chars_all.
  - apply filter_chars_fixed.
  - apply filter_chars_fixed, filter_chars_all.
  - apply filter_chars_length.
  - apply filter_chars_app.
Qed.

Lemma sanitize_spec_witness :
  all_chars key_char (sanitize "my Sun?") = true /\
  (sanitize "my Sun?" = "my Sun?" <-> all_chars key_char "my Sun?" = true) /\
  sanitize (sanitize "my Sun?") = sanitize "my Sun?" /\
  String.length (sanitize "my Sun?") <= String.length "my Sun?" /\
  sanitize ("my Sun?" +:+ "!") = sanitize "my Sun?" +:+ sanitize "!".
Proof. exact (sanitize_spec "my Sun?" "!"). Defined.

(** X2: a description that [_descriptionText] returns ends with one of
    [. ; , ? !], and an element name that [_elementName] returns ends with
    a colon. *)
Theorem normalizers_end_with_stop :
  (forall t t', _descriptionText t = Normal t' ->
     exists a, In a description_stops /\ ends_with t' a) /\
  (forall n n', _elementName n = Normal n' -> ends_with n' ":").
Proof.
  split.
  - intros t t'. unfold _descriptionText. destruct (reserved t); [discriminate|].
    destruct (negb (endsWith t ".") && negb (endsWith t ";") && negb (endsWith t ",") &&
              negb (endsWith t "?") && negb (endsWith t "!")) eqn:E; intros [= <-].
    + exists "."%char. split; [now left | now exists t].
    + apply existsb_endsWith. simpl.
      destruct (endsWith t "."), (endsWith t ";"), (endsWith t ","),
        (endsWith t "?"), (endsWith t "!"); try reflexivity; discriminate.
  - intros n n' H. destruct (elementName_ends_colon n n' H) as [p ->]. now exists p.
Qed.

Lemma normalizers_end_with_stop_witness :
  (exists a, In a description_stops /\ ends_with "Blue square." a) /\
  ends_with "Circle:" ":".
Proof.
  split.
  - exact (proj1 normalizers_end_with_stop "Blue square" "Blue square." eq_refl).
  - exact (proj2 normalizers_end_with_stop "Circle," "Circle:" eq_refl).
Defined.

(** ** The scaffold helpers and the store *)

Lemma bind_snd {A B} (m : M A) (k : A -> M B) st :
  snd (bind m k st) =
  match fst (m st) with
  | Normal a => snd (k a (snd (m st)))
  | Throw _ => snd (m st)
  end.
Proof. unfold bind. destruct (m st) as [[a|x] st']; reflexivity. Qed.

Lemma bind_fst_normal {A B} (m : M A) (k : A -> M B) st b :
  fst (bind m k st) = Normal b ->
  exists a, fst (m st) = Normal a /\ fst (k a (snd (m st))) = Normal b.
Proof. unfold bind. destruct (m st) as [[a|x] st']; simpl; [eauto | discriminate]. Qed.

Lemma dom_only_ret {A} (a : A) : dom_only (ret a).
Proof. intros st. split; reflexivity. Qed.

Lemma dom_only_throw {A} x : dom_only (@throw A x).
Proof. intros st. split; reflexivity. Qed.

Lemma dom_only_bind {A B} (m : M A) (k : A -> M B) :
  dom_only m -> (forall a, dom_only (k a)) -> dom_only (bind m k).
Proof.
  intros Hm Hk st. rewrite bind_snd. destruct (Hm st) as [H1 H2].
  destruct (fst (m st)) as [a|x]; [|auto].
  destruct (Hk a (snd (m st))) as [H3 H4]. split; congruence.
Qed.

Lemma dom_only_qs ctx sel : dom_only (qs ctx sel).
Proof. intros st. destruct ctx; split; reflexivity. Qed.

Lemma dom_only_insertAdjacentHTML h pos frag : dom_only (insertAdjacentHTML h pos frag).
Proof.
  intros st. unfold insertAdjacentHTML.
  destruct (insert_adjacent _ _ _ _ _); split; reflexivity.
Qed.

Lemma dom_only_set_innerHTML_markup h frag : dom_only (set_innerHTML_markup h frag).
Proof. intros st. split; reflexivity. Qed.

Lemma dom_only_createElement t : dom_only (createElement t).
Proof. intros st. split; reflexivity. Qed.

Lemma dom_only_appendChild h e : dom_only (appendChild h e).
Proof. intros st. split; reflexivity. Qed.

Lemma dom_only_on_node {A} (r : option elem) (k : handle -> M A) :
  (forall h, dom_only (k h)) -> dom_only (on_node r k).
Proof. intros H. destruct r; simpl; [apply H | apply dom_only_throw]. Qed.

Ltac dom_only_step :=
  match goal with
  | |- dom_only (bind _ _) => apply dom_only_bind; [|intros ?]
  | |- dom_only (on_node _ _) => apply dom_only_on_node; intros ?
  | |- dom_only (match ?x with _ => _ end) => destruct x
  | |- dom_only (let _ := _ in _) => cbv zeta
  | |- dom_only _ =>
      solve [ apply dom_only_ret | apply dom_only_throw | apply dom_only_qs
            | apply dom_only_insertAdjacentHTML | apply dom_only_set_innerHTML_markup
            | apply dom_only_createElement | apply dom_only_appendChild ]
  end.

Lemma gives_root_bind {A} dd (m : M A) (k : A -> M results) :
  (forall a, gives_root dd (k a)) -> gives_root dd (bind m k).
Proof.
  intros Hk st res H. apply bind_fst_normal in H as (a & _ & H). exact (Hk a _ _ H).
Qed.

Lemma gives_root_ret_pair dd n : gives_root dd (ret (Some (n, dd))).
Proof. intros st res [= <-]. right. eauto. Qed.

Lemma gives_root_ret_none dd : gives_root dd (ret None).
Proof. intros st res [= <-]. now left. Qed.

Ltac gives_root_step :=
  match goal with
  | |- gives_root _ (bind _ _) => apply gives_root_bind; intros ?
  | |- gives_root _ (match ?x with _ => _ end) => destruct x
  | |- gives_root _ (let _ := _ in _) => cbv zeta
  | |- gives_root _ _ => solve [ apply gives_root_ret_pair | apply gives_root_ret_none ]
  end.

(** The next unused node identity never goes down. *)
Lemma next_bind {A B} (m : M A) (k : A -> M B) :
  (forall st, next st <= next (snd (m st))) ->
  (forall a st, next st <= next (snd (k a st))) ->
  forall st, next st <= next (snd (bind m k st)).
Proof.
  intros Hm Hk st. rewrite bind_snd. specialize (Hm st).
  destruct (fst (m st)) as [a|x]; [|assumption].
  specialize (Hk a (snd (m st))). lia.
Qed.

(** X3: the four scaffold helpers change nothing but the page: they leave
    [this.descriptions] and [this.dummyDOM] as they are whatever their
    outcome, they never raise the reserved-value error, and a pair that
    they return holds the root they were given as its second component. *)
Theorem scaffold_helpers_dom_only dd c name :
  Forall (fun m : M results => dom_only m /\ quiet m /\ gives_root dd m)
    [ _describeFallbackHTML dd c; _describeLabelHTML dd c;
      _descElementFallbackHTML dd c name; _descElementLabelHTML dd c name ].
Proof.
  repeat (apply Forall_cons; split; [split; [|split]|]); try apply List.Forall_nil;
    auto using quiet_describeFallbackHTML, quiet_describeLabelHTML,
      quiet_descElementFallbackHTML, quiet_descElementLabelHTML.
  - unfold _describeFallbackHTML. repeat dom_only_step.
  - unfold _describeFallbackHTML. repeat gives_root_step.
  - unfold _describeLabelHTML. repeat dom_only_step.
  - unfold _describeLabelHTML. repeat gives_root_step.
  - unfold _descElementFallbackHTML. repeat dom_only_step.
  - unfold _descElementFallbackHTML. repeat gives_root_step.
  - unfold _descElementLabelHTML. repeat dom_only_step.
  - unfold _descElementLabelHTML. repeat gives_root_step.
Qed.

(** *** References that the store holds *)

Lemma refs_kept_refl ds : refs_kept ds ds.
Proof. repeat split; auto. Qed.

Lemma refs_kept_trans ds1 ds2 ds3 : refs_kept ds1 ds2 -> refs_kept ds2 ds3 -> refs_kept ds1 ds3.
Proof.
  intros (A1 & A2 & A3 & A4) (B1 & B2 & B3 & B4). repeat split; auto.
Qed.

Lemma refs_kept_eq ds ds' : ds' = ds -> refs_kept ds ds'.
Proof. intros ->. apply refs_kept_refl. Qed.

Lemma same_descs st st' : descs st' = descs st -> the_descs st' = the_descs st.
Proof. intros H. unfold the_descs. now rewrite H. Qed.

Lemma keeps_refs_dom_only {A} (m : M A) : dom_only m -> keeps_refs m.
Proof. intros H st. apply refs_kept_eq, same_descs, H. Qed.

Lemma keeps_refs_bind_at {A B} (m : M A) (k : A -> M B) st :
  refs_kept (the_descs st) (the_descs (snd (m st))) ->
  (forall a, keeps_refs (k a)) ->
  refs_kept (the_descs st) (the_descs (snd (bind m k st))).
Proof.
  intros Hm Hk. rewrite bind_snd. destruct (fst (m st)) as [a|x]; [|assumption].
  eapply refs_kept_trans; [exact Hm | apply Hk].
Qed.

Lemma keeps_refs_bind {A B} (m : M A) (k : A -> M B) :
  keeps_refs m -> (forall a, keeps_refs (k a)) -> keeps_refs (bind m k).
Proof. intros Hm Hk st. apply keeps_refs_bind_at; auto. Qed.

Lemma keeps_refs_ret {A} (a : A) : keeps_refs (ret a).
Proof. intros st. apply refs_kept_refl. Qed.

Lemma keeps_refs_lift {A} (r : completion A) : keeps_refs (lift r).
Proof. intros st. apply refs_kept_refl. Qed.

Lemma keeps_refs_locate c : keeps_refs (locate_dummyDOM c).
Proof.
  intros st. apply refs_kept_eq, same_descs. unfold locate_dummyDOM.
  destruct (dummyDOM st); [reflexivity|]. destruct (getElementById _ _); reflexivity.
Qed.

Lemma keeps_refs_init_descriptions : keeps_refs init_descriptions.
Proof.
  intros st. apply refs_kept_eq. unfold init_descriptions, modify, the_descs. simpl.
  destruct (descs st) eqn:E; simpl; now rewrite ?E.
Qed.

Lemma keeps_refs_init_fallbackElements : keeps_refs init_fallbackElements.
Proof.
  intros st. unfold init_fallbackElements, modify, the_descs. simpl.
  destruct (descs st) as [ds|] eqn:E; simpl.
  - destruct (fallbackElements ds) eqn:F; simpl; rewrite ?E; simpl;
      [apply refs_kept_refl|].
    repeat split; auto. intros k h. unfold fmap. simpl. rewrite F. simpl.
    now rewrite lookup_empty.
  - repeat split; try discriminate; intros k h; unfold fmap, lmap; simpl;
      now rewrite lookup_empty.
Qed.

Lemma keeps_refs_init_labelElements : keeps_refs init_labelElements.
Proof.
  intros st. unfold init_labelElements, modify. simpl.
  destruct (labelElements (the_descs st)) eqn:F; [apply refs_kept_refl|].
  cbn [snd the_descs descs set_descs default from_option].
  repeat split; auto. intros k h. unfold lmap. rewrite F. simpl. now rewrite lookup_empty.
Qed.

Lemma refresh_descs h s st : the_descs (snd (refresh h s st)) = the_descs st.
Proof. unfold refresh. destruct (bool_decide _); reflexivity. Qed.

(** The creating branch of the four parts: the helper runs, the store is
    updated by [f] and the content is written. *)
Lemma create_refs (helper : M results) (f : option handle -> descriptions -> descriptions)
    inner st :
  dom_only helper ->
  (forall n, refs_kept (the_descs st) (f n (the_descs st))) ->
  refs_kept (the_descs st)
    (the_descs (snd ((results <- helper ;;
                      n <- result_node results ;;
                      update_descs (f n) ;;;
                      dd' <- result_dummyDOM results ;;
                      modify (set_dummyDOM dd') ;;;
                      write_ref n inner) st))).
Proof.
  intros Hh Hf. destruct (Hh st) as [Hd _]. unfold bind at 1.
  destruct (helper st) as [[res|x] st1]; simpl in Hd;
    [|apply refs_kept_eq, same_descs; exact Hd].
  destruct res as [[n dd']|]; simpl;
    [|apply refs_kept_eq, same_descs; exact Hd].
  unfold bind, ret, update_descs. simpl.
  destruct (descs st1) as [ds|] eqn:E; simpl;
    [|apply refs_kept_eq, same_descs; simpl; congruence].
  assert (Eds : the_descs st = ds) by (unfold the_descs; now rewrite <- Hd).
  specialize (Hf n). rewrite Eds in *.
  destruct n as [h|]; exact Hf.
Qed.

Lemma helper_dom_only dd c name :
  dom_only (_describeFallbackHTML dd c) /\ dom_only (_describeLabelHTML dd c) /\
  dom_only (_descElementFallbackHTML dd c name) /\ dom_only (_descElementLabelHTML dd c name).
Proof.
  conj.
  - unfold _describeFallbackHTML. repeat dom_only_step.
  - unfold _describeLabelHTML. repeat dom_only_step.
  - unfold _descElementFallbackHTML. repeat dom_only_step.
  - unfold _descElementLabelHTML. repeat dom_only_step.
Qed.

Lemma describe_fallback_refs c text st :
  refs_kept (the_descs st) (the_descs (snd (describe_fallback c text (the_descs st) st))).
Proof.
  unfold describe_fallback. destruct (fallback (the_descs st)) as [h|] eqn:F.
  - apply refs_kept_eq, refresh_descs.
  - rewrite bind_gets. apply (create_refs _ set_fallback).
    + apply (helper_dom_only _ c "").
    + intros n. repeat split; auto. simpl. congruence.
Qed.

Lemma describe_label_refs c text st :
  refs_kept (the_descs st) (the_descs (snd (describe_label c text (the_descs st) st))).
Proof.
  unfold describe_label. destruct (label (the_descs st)) as [h|] eqn:F.
  - apply refs_kept_eq, refresh_descs.
  - rewrite bind_gets. apply (create_refs _ set_label).
    + apply (helper_dom_only _ c "").
    + intros n. repeat split; auto. simpl. congruence.
Qed.

Lemma describeElement_fallback_refs c k inner st :
  refs_kept (the_descs st)
    (the_descs (snd (describeElement_fallback c k inner (the_descs st) st))).
Proof.
  unfold describeElement_fallback. cbv zeta.
  change (default ∅ (fallbackElements (the_descs st))) with (fmap (the_descs st)).
  assert (Create : (forall h, fmap (the_descs st) !! k <> Some (Some h)) ->
            refs_kept (the_descs st)
              (the_descs (snd ((dd <- gets dummyDOM ;;
                 results <- _descElementFallbackHTML dd c k ;;
                 n <- result_node results ;;
                 update_descs (set_fallbackElements (Some (<[k := n]> (fmap (the_descs st))))) ;;;
                 dd' <- result_dummyDOM results ;;
                 modify (set_dummyDOM dd') ;;;
                 write_ref n inner) st)))).
  { intros Hmiss. rewrite bind_gets.
    apply (create_refs _ (fun n => set_fallbackElements (Some (<[k := n]> (fmap (the_descs st)))))).
    - apply (helper_dom_only _ c k).
    - intros n. repeat split; auto. intros k' h. store_views.
      destruct (decide (k = k')) as [<- | Hne].
      + intros H. now destruct (Hmiss h).
      + now rewrite lookup_insert_ne. }
  unfold obj_get. destruct (fmap (the_descs st) !! k) as [[h|]|] eqn:F.
  - apply refs_kept_eq, refresh_descs.
  - apply Create. discriminate.
  - destruct (is_prototype_key k); [apply refs_kept_refl|]. apply Create. discriminate.
Qed.

Lemma describeElement_label_refs c k inner st :
  refs_kept (the_descs st)
    (the_descs (snd (describeElement_label c k inner (the_descs st) st))).
Proof.
  unfold describeElement_label. cbv zeta.
  change (default ∅ (labelElements (the_descs st))) with (lmap (the_descs st)).
  assert (Create : (forall h, lmap (the_descs st) !! k <> Some (Some h)) ->
            refs_kept (the_descs st)
              (the_descs (snd ((dd <- gets dummyDOM ;;
                 results <- _descElementLabelHTML dd c k ;;
                 n <- result_node results ;;
                 update_descs (set_labelElements (Some (<[k := n]> (lmap (the_descs st))))) ;;;
                 dd' <- result_dummyDOM results ;;
                 modify (set_dummyDOM dd') ;;;
                 write_ref n inner) st)))).
  { intros Hmiss. rewrite bind_gets.
    apply (create_refs _ (fun n => set_labelElements (Some (<[k := n]> (lmap (the_descs st)))))).
    - apply (helper_dom_only _ c k).
    - intros n. repeat split; auto. intros k' h. store_views.
      destruct (decide (k = k')) as [<- | Hne].
      + intros H. now destruct (Hmiss h).
      + now rewrite lookup_insert_ne. }
  unfold obj_get. destruct (lmap (the_descs st) !! k) as [[h|]|] eqn:F.
  - apply refs_kept_eq, refresh_descs.
  - apply Create. discriminate.
  - destruct (is_prototype_key k); [apply refs_kept_refl|]. apply Create. discriminate.
Qed.

Lemma keeps_refs_gets_bind {B} (k : descriptions -> M B) :
  (forall st, refs_kept (the_descs st) (the_descs (snd (k (the_descs st) st)))) ->
  keeps_refs (bind (gets the_descs) k).
Proof. intros H st. rewrite bind_gets. apply H. Qed.

Lemma keeps_refs_describe c L text display : keeps_refs (describe c L text display).
Proof.
  destruct text as [| | | |t]; try apply keeps_refs_ret.
  rewrite describe_parts.
  apply keeps_refs_bind; [apply keeps_refs_lift | intros t'].
  apply keeps_refs_bind; [apply keeps_refs_locate | intros _].
  apply keeps_refs_bind; [apply keeps_refs_init_descriptions | intros _].
  apply keeps_refs_gets_bind. intros st.
  apply keeps_refs_bind_at; [apply describe_fallback_refs | intros _].
  destruct (strict_eq display L); [|apply keeps_refs_ret].
  apply keeps_refs_gets_bind. intros st'. apply describe_label_refs.
Qed.

Lemma keeps_refs_describeElement c L name text display :
  keeps_refs (describeElement c L name text display).
Proof.
  destruct text as [| | | |t]; try apply keeps_refs_ret.
  destruct name as [| | | |n]; try apply keeps_refs_ret.
  rewrite describeElement_parts.
  apply keeps_refs_bind; [apply keeps_refs_lift | intros t'].
  apply keeps_refs_bind; [apply keeps_refs_lift | intros n'].
  apply keeps_refs_bind; [apply keeps_refs_locate | intros _].
  apply keeps_refs_bind; [apply keeps_refs_init_fallbackElements | intros _].
  apply keeps_refs_gets_bind. intros st.
  apply keeps_refs_bind_at; [apply describeElement_fallback_refs | intros _].
  destruct (strict_eq display L); [|apply keeps_refs_ret].
  apply keeps_refs_bind; [apply keeps_refs_init_labelElements | intros _].
  apply keeps_refs_gets_bind. intros st'. apply describeElement_label_refs.
Qed.

(** X4: whatever the state and the arguments, and whether the calls return
    or raise, a sequence of calls never replaces or drops a reference to a
    node that the store holds: the fallback and the label reference, and
    the references of the two element tables under each key, are the same
    afterwards. *)
Theorem store_refs_persist c L cs st :
  refs_kept (the_descs st) (the_descs (run c L cs st)).
Proof.
  revert st. induction cs as [|cl cs IH]; intros st; simpl; [apply refs_kept_refl|].
  eapply refs_kept_trans; [|apply IH].
  destruct cl as [text display | name text display]; simpl.
  - apply keeps_refs_describe.
  - apply keeps_refs_describeElement.
Qed.

Lemma store_refs_persist_witness :
  let st := run "c" label_const [Describe (VString "Red circle") label_const] sketch0 in
  let st' := run "c" label_const
               [DescribeElement (VString "my sun") (VString "a star") label_const;
                Describe (VString "Blue square") label_const;
                Describe (VString "label") VUndefined] st in
  fallback (the_descs st) = Some 4 /\ fallback (the_descs st') = Some 4 /\
  label (the_descs st) = Some 6 /\ label (the_descs st') = Some 6.
Proof.
  destruct (store_refs_persist "c" label_const
              [DescribeElement (VString "my sun") (VString "a star") label_const;
               Describe (VString "Blue square") label_const;
               Describe (VString "label") VUndefined]
              (run "c" label_const [Describe (VString "Red circle") label_const] sketch0))
    as (H1 & H2 & _).
  split; [reflexivity|]. split; [exact (H1 4 eq_refl)|].
  split; [reflexivity|]. exact (H2 6 eq_refl).
Defined.

(** ** The page and the store after any sequence of calls *)

Lemma slot_node_inv m k h : obj_get m k = PNode h -> m !! k = Some (Some h).
Proof.
  unfold obj_get. destruct (m !! k) as [[h'|]|]; try discriminate.
  - now intros [= ->].
  - destruct (is_prototype_key k); discriminate.
Qed.

Lemma module_D c e : eidb (idD c) e = true -> is_module_elem c e = true.
Proof. intros H. apply module_fallback. unfold is_fallback_elem. now rewrite H. Qed.

Lemma module_LC c e : eidb (idLC c) e = true -> is_module_elem c e = true.
Proof. intros H. apply module_label. unfold is_label_elem. now rewrite H. Qed.







Lemma inv_nodup_dom c pre r post st tl :
  inv c pre r post st tl -> NoDup (List.map node (dom st)).
Proof. intros [Hd [(Hnd & _) _ _ _ _ _ _ _ _ _ _ _ _ _ _] _ _]. now rewrite Hd. Qed.



(** ** A call made twice *)

Lemma refresh_same h s st : get_html (dom st) h = Some s -> refresh h s st = (Normal tt, st).
Proof. intros H. unfold refresh. now rewrite bool_decide_eq_true_2. Qed.

Lemma locate_set c st x : dummyDOM st = Some x -> locate_dummyDOM c st = (Normal tt, st).
Proof. intros H. unfold locate_dummyDOM. now rewrite H. Qed.

(** [describe] on a sketch whose store refers to paragraphs that show the
    text already. *)
Lemma describe_settled c L st t t' display x ds hf :
  _descriptionText t = Normal t' ->
  dummyDOM st = Some x ->
  descs st = Some ds ->
  fallback ds = Some hf ->
  get_html (dom st) hf = Some t' ->
  (strict_eq display L = true ->
   exists hl, label ds = Some hl /\ get_html (dom st) hl = Some t') ->
  describe c L (VString t) display st = (Normal tt, st).
Proof.
  intros Ht Hdd Hds F G HL. rewrite describe_parts, Ht, bind_lift_normal.
  rewrite (bind_normal _ _ _ _ _ (locate_set c st x Hdd)).
  assert (E : init_descriptions st = (Normal tt, st)).
  { unfold init_descriptions, modify. now rewrite Hds. }
  rewrite (bind_normal _ _ _ _ _ E), bind_gets.
  assert (Ed : the_descs st = ds) by (unfold the_descs; now rewrite Hds).
  rewrite Ed. unfold describe_fallback at 1. rewrite F.
  rewrite (bind_normal _ _ _ _ _ (refresh_same hf t' st G)).
  destruct (strict_eq display L); [|reflexivity].
  destruct (HL eq_refl) as (hl & Fl & Gl).
  rewrite bind_gets, Ed. unfold describe_label. rewrite Fl.
  now apply refresh_same.
Qed.

Section Repeat.

Variable c : string.
Variable L : jsval.
Variables (pre : list elem) (r : elem) (post : list elem).
Hypothesis Hframe : frame_ok c pre r post.

(** The state after [describe] with a text that is not reserved. *)
Lemma describe_full st tl t t' display :
  inv c pre r post st tl ->
  _descriptionText t = Normal t' ->
  exists st' tl' hf,
    describe c L (VString t) display st = (Normal tt, st') /\
    inv c pre r post st' tl' /\
    dummyDOM st' = Some (node r) /\ descs st' = Some (the_descs st') /\
    fallback (the_descs st') = Some hf /\ shows tl' hf t' /\
    (strict_eq display L = true ->
       exists hl, label (the_descs st') = Some hl /\ shows tl' hl t').
Proof.
  intros I Ht. rewrite describe_parts, Ht, bind_lift_normal.
  destruct (locate_ok c pre r post Hframe st tl I) as (st1 & E1 & I1 & Hdd1 & Hd1 & Hds1 & Hn1).
  rewrite (bind_normal _ _ _ _ _ E1).
  destruct (init_descriptions_ok c pre r post st1 tl I1)
    as (st2 & E2 & I2 & Hdd2 & Hd2 & Hn2 & Hdesc2 & Hds2).
  rewrite (bind_normal _ _ _ _ _ E2), bind_gets.
  rewrite <- Hdesc2 in Hds2. rewrite Hdd1 in Hdd2.
  destruct (describe_fallback_ok c pre r post Hframe st2 tl t' I2 Hdd2 Hds2)
    as (st3 & tl3 & hf & E3 & I3 & Hdd3 & Hds3 & F3 & Sh3 & D3 & L3 & Lb3 & LE3 & T3).
  rewrite (bind_normal _ _ _ _ _ E3).
  pose proof (st_fallback _ _ _ (inv_store _ _ _ _ _ _ I3) hf F3) as HP3.
  destruct (strict_eq display L).
  - rewrite bind_gets.
    destruct (describe_label_ok c pre r post Hframe st3 tl3 t' I3 Hdd3 Hds3 D3)
      as (st4 & tl4 & hl & E4 & I4 & Hdd4 & Hds4 & F4 & HP4 & Sh4 & D4 & X4 & Fr4 & Fb4 & Fm4 & T4).
    assert (Hne : hf <> hl).
    { apply (fallback_node_apart c tl3 hf hl (eidb (idP c))); auto.
      - eapply inv_nodup; eauto.
      - intros e He. apply negb_true_iff. now apply (P_not_label c). }
    exists st4, tl4, hf. split; [assumption|]. conj; auto; try congruence.
    + apply (X4 _ hf Hne Sh3).
    + intros _. exists hl. auto.
  - exists st3, tl3, hf. split; [reflexivity|]. conj; auto. discriminate.
Qed.

End Repeat.



Lemma lookup_some_table (o : option (gmap string (option handle))) k v :
  default ∅ o !! k = Some v -> exists m, o = Some m.
Proof. destruct o as [m|]; simpl; [eauto|]. rewrite lookup_empty. discriminate. Qed.

(** [describeElement] on a sketch whose store refers, under the key of the
    name, to rows that show the content already. *)
Lemma describeElement_settled c L st n t n' t' display x ds hf :
  _descriptionText t = Normal t' ->
  _elementName n = Normal n' ->
  dummyDOM st = Some x ->
  descs st = Some ds ->
  fmap ds !! sanitize n = Some (Some hf) ->
  get_html (dom st) hf = Some (row_inner n' t') ->
  (strict_eq display L = true ->
   exists hl, lmap ds !! sanitize n = Some (Some hl) /\
     get_html (dom st) hl = Some (row_inner n' t')) ->
  describeElement c L (VString n) (VString t) display st = (Normal tt, st).
Proof.
  intros Ht Hn Hdd Hds F G HL.
  rewrite describeElement_parts, Ht, bind_lift_normal, Hn, bind_lift_normal.
  rewrite (bind_normal _ _ _ _ _ (locate_set c st x Hdd)).
  assert (Ed : the_descs st = ds) by (unfold the_descs; now rewrite Hds).
  assert (E : init_fallbackElements st = (Normal tt, st)).
  { unfold init_fallbackElements, modify. rewrite Hds.
    destruct (lookup_some_table _ _ _ F) as [m ->]. reflexivity. }
  rewrite (bind_normal _ _ _ _ _ E), bind_gets, Ed.
  unfold describeElement_fallback at 1. cbv zeta.
  change (default ∅ (fallbackElements ds)) with (fmap ds).
  rewrite (slot_node _ _ _ F).
  rewrite (bind_normal _ _ _ _ _ (refresh_same hf _ st G)).
  destruct (strict_eq display L); [|reflexivity].
  destruct (HL eq_refl) as (hl & Fl & Gl).
  assert (E' : init_labelElements st = (Normal tt, st)).
  { unfold init_labelElements, modify. rewrite Ed.
    destruct (lookup_some_table _ _ _ Fl) as [m ->]. reflexivity. }
  rewrite (bind_normal _ _ _ _ _ E'), bind_gets, Ed.
  unfold describeElement_label. cbv zeta.
  change (default ∅ (labelElements ds)) with (lmap ds).
  rewrite (slot_node _ _ _ Fl). now apply refresh_same.
Qed.

Section RepeatElement.

Variable c : string.
Variable L : jsval.
Variables (pre : list elem) (r : elem) (post : list elem).
Hypothesis Hframe : frame_ok c pre r post.

(** The state after [describeElement] with a name and a text that are not
    reserved and a key of letters and digits. *)
Lemma describeElement_full st tl n t n' t' display :
  inv c pre r post st tl ->
  _descriptionText t = Normal t' ->
  _elementName n = Normal n' ->
  safe_key (sanitize n) = true ->
  exists st' tl' hf,
    describeElement c L (VString n) (VString t) display st = (Normal tt, st') /\
    inv c pre r post st' tl' /\
    dummyDOM st' = Some (node r) /\ descs st' = Some (the_descs st') /\
    fmap (the_descs st') !! sanitize n = Some (Some hf) /\
    shows tl' hf (row_inner n' t') /\
    (strict_eq display L = true ->
       exists hl, lmap (the_descs st') !! sanitize n = Some (Some hl) /\
         shows tl' hl (row_inner n' t')).
Proof.
  intros I Ht Hn Hs.
  rewrite describeElement_parts, Ht, bind_lift_normal, Hn, bind_lift_normal.
  set (k := sanitize n) in *. set (inner := row_inner n' t').
  destruct (locate_ok c pre r post Hframe st tl I) as (st1 & E1 & I1 & Hdd1 & Hd1 & Hds1 & Hn1).
  rewrite (bind_normal _ _ _ _ _ E1).
  destruct (init_fallbackElements_ok c pre r post st1 tl I1)
    as (st2 & E2 & I2 & Hdd2 & Hd2 & Hn2 & Fb2 & Lb2 & Fm2 & Lm2 & LE2 & Hds2).
  rewrite (bind_normal _ _ _ _ _ E2), bind_gets. rewrite Hdd1 in Hdd2.
  destruct (describeElement_fallback_ok c pre r post Hframe st2 tl k inner I2 Hdd2 Hds2)
    as (res & st3 & tl3 & E3 & I3 & Hdd3 & Hds3 & L3 & Lb3 & LE3 & Fb3 & HD3 & Hsafe3).
  destruct (Hsafe3 Hs) as (-> & hf & F1 & F2 & F3 & F4 & F5).
  rewrite (bind_normal _ _ _ _ _ E3). destruct (strict_eq display L) eqn:SE.
  - destruct (init_labelElements_ok c pre r post st3 tl3 I3 Hds3)
      as (st4 & E4 & I4 & Hdd4 & Hd4 & Hn4 & Fb4 & Lb4 & Fm4 & Lm4 & Hds4).
    rewrite (bind_normal _ _ _ _ _ E4), bind_gets. rewrite Hdd3 in Hdd4.
    destruct (describeElement_label_ok c pre r post Hframe st4 tl3 k inner I4 Hdd4 Hds4 HD3)
      as (res5 & st5 & tl5 & E5 & I5 & Hdd5 & Hds5 & Fb5 & Lb5 & FE5 & Hsafe5).
    destruct (Hsafe5 Hs) as (-> & hl & G1 & G2 & G3 & G4 & G5 & G6 & G7).
    assert (Hne : hf <> hl).
    { apply (fallback_node_apart c tl3 hf hl (eidb (idR c k))); auto.
      - eapply inv_nodup; eauto.
      - intros e He. apply negb_true_iff. now apply (row_not_label c k). }
    exists st5, tl5, hf. split; [assumption|]. conj; auto.
    + unfold fmap. rewrite FE5. fold (fmap (the_descs st4)). now rewrite Fm4.
    + apply (G5 _ hf Hne F3).
    + intros _. exists hl. auto.
  - exists st3, tl3, hf. split; [reflexivity|]. conj; auto. discriminate.
Qed.

End RepeatElement.



(** ** Names of members of the object prototype *)

Lemma slot_inherited m k :
  m !! k = None -> is_prototype_key k = true -> obj_get m k = PInherited.
Proof. intros H P. unfold obj_get. now rewrite H, P. Qed.



(** ** Calls in fallback mode only *)



(** ** What each operation leaves alone *)

Lemma keeps_field_same {A X} (g : descriptions -> X) (m : M A) :
  (forall st, descs (snd (m st)) = descs st) -> keeps_field g m.
Proof. intros H st. f_equal. apply same_descs, H. Qed.

Lemma keeps_field_bind {A B X} (g : descriptions -> X) (m : M A) (k : A -> M B) :
  keeps_field g m -> (forall a, keeps_field g (k a)) -> keeps_field g (bind m k).
Proof.
  intros Hm Hk st. rewrite bind_snd. specialize (Hm st).
  destruct (fst (m st)) as [a|x]; [|assumption]. now rewrite Hk.
Qed.

Lemma keeps_field_dom_only {A X} (g : descriptions -> X) (m : M A) :
  dom_only m -> keeps_field g m.
Proof. intros H. apply keeps_field_same. intros st. apply H. Qed.

Lemma keeps_field_update {X} (g : descriptions -> X) f :
  (forall ds, g (f ds) = g ds) -> keeps_field g (update_descs f).
Proof.
  intros H st. unfold update_descs, the_descs.
  destruct (descs st) as [ds|] eqn:E; simpl; [apply H | now rewrite E].
Qed.

Lemma keeps_field_refresh {X} (g : descriptions -> X) h s : keeps_field g (refresh h s).
Proof. intros st. now rewrite refresh_descs. Qed.

Lemma keeps_field_write_ref {X} (g : descriptions -> X) n s : keeps_field g (write_ref n s).
Proof. apply keeps_field_same. intros st. destruct n; reflexivity. Qed.

Lemma keeps_field_result_node {X} (g : descriptions -> X) res :
  keeps_field g (result_node res).
Proof. apply keeps_field_same. intros st. destruct res as [[n dd]|]; reflexivity. Qed.

Lemma keeps_field_result_dummyDOM {X} (g : descriptions -> X) res :
  keeps_field g (result_dummyDOM res).
Proof. apply keeps_field_same. intros st. destruct res as [[n dd]|]; reflexivity. Qed.

Lemma keeps_field_locate {X} (g : descriptions -> X) c : keeps_field g (locate_dummyDOM c).
Proof.
  apply keeps_field_same. intros st. unfold locate_dummyDOM.
  destruct (dummyDOM st); [reflexivity|]. destruct (getElementById _ _); reflexivity.
Qed.

Lemma keeps_field_plain {A X} (g : descriptions -> X) (m : M A) :
  (forall st, snd (m st) = st) -> keeps_field g m.
Proof. intros H st. now rewrite H. Qed.

(** The creating branch of a part, whose update of the store is [f]. *)
Lemma keeps_field_create {X} (g : descriptions -> X) (helper : option handle -> M results)
    (f : option handle -> descriptions -> descriptions) inner :
  (forall dd, dom_only (helper dd)) ->
  (forall n ds, g (f n ds) = g ds) ->
  keeps_field g
    (dd <- gets dummyDOM ;;
     results <- helper dd ;;
     n <- result_node results ;;
     update_descs (f n) ;;;
     dd' <- result_dummyDOM results ;;
     modify (set_dummyDOM dd') ;;;
     write_ref n inner).
Proof.
  intros Hh Hf.
  apply keeps_field_bind; [now apply keeps_field_plain | intros dd].
  apply keeps_field_bind; [now apply keeps_field_dom_only | intros res].
  apply keeps_field_bind; [apply keeps_field_result_node | intros n].
  apply keeps_field_bind; [now apply keeps_field_update | intros _].
  apply keeps_field_bind; [apply keeps_field_result_dummyDOM | intros dd'].
  apply keeps_field_bind; [now apply keeps_field_same | intros _].
  apply keeps_field_write_ref.
Qed.

Lemma keeps_tables_describe c L text display :
  keeps_field fallbackElements (describe c L text display) /\
  keeps_field labelElements (describe c L text display).
Proof.
  assert (H : forall X (g : descriptions -> X),
            (forall n ds, g (set_fallback n ds) = g ds) ->
            (forall n ds, g (set_label n ds) = g ds) ->
            keeps_field g (describe c L text display)).
  { intros X g H1 H2. destruct text as [| | | |t]; try now apply keeps_field_plain.
    rewrite describe_parts.
    apply keeps_field_bind; [now apply keeps_field_plain | intros t'].
    apply keeps_field_bind; [apply keeps_field_locate | intros _].
    apply keeps_field_bind.
    { intros st. f_equal. unfold init_descriptions, modify, the_descs. simpl.
      destruct (descs st) eqn:E; simpl; now rewrite ?E. }
    intros _. apply keeps_field_bind; [now apply keeps_field_plain | intros ds].
    apply keeps_field_bind.
    { unfold describe_fallback. destruct (fallback ds); [apply keeps_field_refresh|].
      apply (keeps_field_create g (fun dd => _describeFallbackHTML dd c) set_fallback); auto.
      intros dd. apply (helper_dom_only dd c ""). }
    intros _. destruct (strict_eq display L); [|now apply keeps_field_plain].
    apply keeps_field_bind; [now apply keeps_field_plain | intros ds'].
    unfold describe_label. destruct (label ds'); [apply keeps_field_refresh|].
    apply (keeps_field_create g (fun dd => _describeLabelHTML dd c) set_label); auto.
    intros dd. apply (helper_dom_only dd c ""). }
  split; apply H; reflexivity.
Qed.

Lemma keeps_paragraphs_describeElement c L name text display :
  keeps_field fallback (describeElement c L name text display) /\
  keeps_field label (describeElement c L name text display).
Proof.
  assert (H : forall X (g : descriptions -> X),
            (forall m ds, g (set_fallbackElements m ds) = g ds) ->
            (forall m ds, g (set_labelElements m ds) = g ds) ->
            keeps_field g (describeElement c L name text display)).
  { intros X g H1 H2. destruct text as [| | | |t]; try now apply keeps_field_plain.
    destruct name as [| | | |n]; try now apply keeps_field_plain.
    rewrite describeElement_parts.
    apply keeps_field_bind; [now apply keeps_field_plain | intros t'].
    apply keeps_field_bind; [now apply keeps_field_plain | intros n'].
    apply keeps_field_bind; [apply keeps_field_locate | intros _].
    apply keeps_field_bind.
    { intros st. unfold init_fallbackElements, modify, the_descs. simpl.
      destruct (descs st) as [ds|] eqn:E; simpl.
      - destruct (fallbackElements ds); simpl; rewrite ?E; simpl; auto.
      - apply H1. }
    intros _. apply keeps_field_bind; [now apply keeps_field_plain | intros ds].
    apply keeps_field_bind.
    { unfold describeElement_fallback. cbv zeta.
      destruct (obj_get _ _); try apply keeps_field_refresh; try now apply keeps_field_plain.
      - apply (keeps_field_create g (fun dd => _descElementFallbackHTML dd c (sanitize n))
                 (fun x => set_fallbackElements (Some (<[sanitize n := x]> _)))); auto.
        intros dd. apply (helper_dom_only dd c).
      - apply (keeps_field_create g (fun dd => _descElementFallbackHTML dd c (sanitize n))
                 (fun x => set_fallbackElements (Some (<[sanitize n := x]> _)))); auto.
        intros dd. apply (helper_dom_only dd c). }
    intros _. destruct (strict_eq display L); [|now apply keeps_field_plain].
    apply keeps_field_bind.
    { intros st. unfold init_labelElements, modify. simpl.
      destruct (labelElements (the_descs st)); [reflexivity|].
      cbn [snd the_descs descs set_descs default from_option]. apply H2. }
    intros _. apply keeps_field_bind; [now apply keeps_field_plain | intros ds'].
    unfold describeElement_label. cbv zeta.
    destruct (obj_get _ _); try apply keeps_field_refresh; try now apply keeps_field_plain.
    - apply (keeps_field_create g (fun dd => _descElementLabelHTML dd c (sanitize n))
               (fun x => set_labelElements (Some (<[sanitize n := x]> _)))); auto.
      intros dd. apply (helper_dom_only dd c).
    - apply (keeps_field_create g (fun dd => _descElementLabelHTML dd c (sanitize n))
               (fun x => set_labelElements (Some (<[sanitize n := x]> _)))); auto.
      intros dd. apply (helper_dom_only dd c). }
  split; apply H; reflexivity.
Qed.

Lemma keeps_root_same {A} (m : M A) :
  (forall st, dummyDOM (snd (m st)) = dummyDOM st) -> keeps_root m.
Proof. intros H st x Hx. now rewrite H. Qed.

Lemma keeps_root_bind {A B} (m : M A) (k : A -> M B) :
  keeps_root m -> (forall a, keeps_root (k a)) -> keeps_root (bind m k).
Proof.
  intros Hm Hk st x Hx. rewrite bind_snd. specialize (Hm st x Hx).
  destruct (fst (m st)) as [a|e]; [|assumption]. now apply Hk.
Qed.

Lemma keeps_root_locate c : keeps_root (locate_dummyDOM c).
Proof. intros st x Hx. unfold locate_dummyDOM. now rewrite Hx. Qed.

Lemma keeps_root_refresh h s : keeps_root (refresh h s).
Proof.
  apply keeps_root_same. intros st. unfold refresh. destruct (bool_decide _); reflexivity.
Qed.

(** The creating branch of a part hands the root to the helper and stores
    the root that the helper returns. *)
Lemma keeps_root_create (helper : option handle -> M results)
    (f : option handle -> descriptions -> descriptions) inner :
  (forall dd, dom_only (helper dd)) ->
  (forall dd, gives_root dd (helper dd)) ->
  keeps_root
    (dd <- gets dummyDOM ;;
     results <- helper dd ;;
     n <- result_node results ;;
     update_descs (f n) ;;;
     dd' <- result_dummyDOM results ;;
     modify (set_dummyDOM dd') ;;;
     write_ref n inner).
Proof.
  intros Hd Hg st x Hx. rewrite bind_gets, Hx.
  destruct (Hd (Some x) st) as [_ Hdd]. pose proof (Hg (Some x) st) as Hres.
  unfold bind at 1. destruct (helper (Some x) st) as [[res|e] st1]; simpl in Hdd, Hres;
    [|simpl; congruence].
  destruct (Hres res eq_refl) as [-> | [n ->]]; [simpl; congruence|].
  unfold bind, ret, update_descs. simpl.
  destruct (descs st1); simpl; [|congruence].
  destruct n; reflexivity.
Qed.

Lemma helper_gives_root dd c name :
  gives_root dd (_describeFallbackHTML dd c) /\ gives_root dd (_describeLabelHTML dd c) /\
  gives_root dd (_descElementFallbackHTML dd c name) /\
  gives_root dd (_descElementLabelHTML dd c name).
Proof.
  conj.
  - unfold _describeFallbackHTML. repeat gives_root_step.
  - unfold _describeLabelHTML. repeat gives_root_step.
  - unfold _descElementFallbackHTML. repeat gives_root_step.
  - unfold _descElementLabelHTML. repeat gives_root_step.
Qed.

Lemma keeps_root_init :
  keeps_root init_descriptions /\ keeps_root init_fallbackElements /\
  keeps_root init_labelElements.
Proof.
  conj; apply keeps_root_same; intros st.
  - unfold init_descriptions, modify. simpl. now destruct (descs st).
  - unfold init_fallbackElements, modify. simpl.
    destruct (descs st) as [ds|]; [|reflexivity]. now destruct (fallbackElements ds).
  - unfold init_labelElements, modify. simpl. now destruct (labelElements (the_descs st)).
Qed.

Lemma keeps_root_describe c L text display : keeps_root (describe c L text display).
Proof.
  destruct text as [| | | |t]; try now apply keeps_root_same.
  rewrite describe_parts.
  apply keeps_root_bind; [now apply keeps_root_same | intros t'].
  apply keeps_root_bind; [apply keeps_root_locate | intros _].
  apply keeps_root_bind; [apply keeps_root_init | intros _].
  apply keeps_root_bind; [now apply keeps_root_same | intros ds].
  apply keeps_root_bind.
  { unfold describe_fallback. destruct (fallback ds); [apply keeps_root_refresh|].
    apply (keeps_root_create (fun dd => _describeFallbackHTML dd c) set_fallback).
    - intros dd. apply (helper_dom_only dd c "").
    - intros dd. apply (helper_gives_root dd c ""). }
  intros _. destruct (strict_eq display L); [|now apply keeps_root_same].
  apply keeps_root_bind; [now apply keeps_root_same | intros ds'].
  unfold describe_label. destruct (label ds'); [apply keeps_root_refresh|].
  apply (keeps_root_create (fun dd => _describeLabelHTML dd c) set_label).
  - intros dd. apply (helper_dom_only dd c "").
  - intros dd. apply (helper_gives_root dd c "").
Qed.

Lemma keeps_root_describeElement c L name text display :
  keeps_root (describeElement c L name text display).
Proof.
  destruct text as [| | | |t]; try now apply keeps_root_same.
  destruct name as [| | | |n]; try now apply keeps_root_same.
  rewrite describeElement_parts.
  apply keeps_root_bind; [now apply keeps_root_same | intros t'].
  apply keeps_root_bind; [now apply keeps_root_same | intros n'].
  apply keeps_root_bind; [apply keeps_root_locate | intros _].
  apply keeps_root_bind; [apply keeps_root_init | intros _].
  apply keeps_root_bind; [now apply keeps_root_same | intros ds].
  apply keeps_root_bind.
  { unfold describeElement_fallback. cbv zeta.
    destruct (obj_get _ _); try apply keeps_root_refresh; try now apply keeps_root_same.
    - apply (keeps_root_create (fun dd => _descElementFallbackHTML dd c (sanitize n))
               (fun x => set_fallbackElements (Some (<[sanitize n := x]> _)))).
      + intros dd. apply (helper_dom_only dd c).
      + intros dd. apply (helper_gives_root dd c).
    - apply (keeps_root_create (fun dd => _descElementFallbackHTML dd c (sanitize n))
               (fun x => set_fallbackElements (Some (<[sanitize n := x]> _)))).
      + intros dd. apply (helper_dom_only dd c).
      + intros dd. apply (helper_gives_root dd c). }
  intros _. destruct (strict_eq display L); [|now apply keeps_root_same].
  apply keeps_root_bind; [apply keeps_root_init | intros _].
  apply keeps_root_bind; [now apply keeps_root_same | intros ds'].
  unfold describeElement_label. cbv zeta.
  destruct (obj_get _ _); try apply keeps_root_refresh; try now apply keeps_root_same.
  - apply (keeps_root_create (fun dd => _descElementLabelHTML dd c (sanitize n))
             (fun x => set_labelElements (Some (<[sanitize n := x]> _)))).
    + intros dd. apply (helper_dom_only dd c).
    + intros dd. apply (helper_gives_root dd c).
  - apply (keeps_root_create (fun dd => _descElementLabelHTML dd c (sanitize n))
             (fun x => set_labelElements (Some (<[sanitize n := x]> _)))).
    + intros dd. apply (helper_dom_only dd c).
    + intros dd. apply (helper_gives_root dd c).
Qed.

(** X13: whatever the state, the arguments and the outcome, [describe]
    leaves the two element tables of the store as they are,
    [describeElement] leaves the fallback and the label reference as they
    are, and neither changes [this.dummyDOM] once it is set. *)
Theorem untouched_fields c L st :
  (forall text display,
     fallbackElements (the_descs (snd (describe c L text display st)))
     = fallbackElements (the_descs st) /\
     labelElements (the_descs (snd (describe c L text display st)))
     = labelElements (the_descs st)) /\
  (forall name text display,
     fallback (the_descs (snd (describeElement c L name text display st)))
     = fallback (the_descs st) /\
     label (the_descs (snd (describeElement c L name text display st)))
     = label (the_descs st)) /\
  (forall cl x, dummyDOM st = Some x -> dummyDOM (snd (exec c L cl st)) = Some x).
Proof.
  conj.
  - intros text display. destruct (keeps_tables_describe c L text display) as [H1 H2].
    split; [apply H1 | apply H2].
  - intros name text display.
    destruct (keeps_paragraphs_describeElement c L name text display) as [H1 H2].
    split; [apply H1 | apply H2].
  - intros [text display | name text display] x Hx; simpl.
    + now apply keeps_root_describe.
    + now apply keeps_root_describeElement.
Qed.

Lemma untouched_fields_witness :
  let st := run "c" label_const
              [DescribeElement (VString "Sun") (VString "a star") label_const] sketch0 in
  dummyDOM st = Some 1 /\
  dummyDOM (snd (exec "c" label_const
                   (DescribeElement (VString "my sun") (VString "a star") label_const) st))
  = Some 1.
Proof.
  split; [reflexivity|].
  exact (proj2 (proj2 (untouched_fields "c" label_const
                         (run "c" label_const
                            [DescribeElement (VString "Sun") (VString "a star") label_const]
                            sketch0)))
           (DescribeElement (VString "my sun") (VString "a star") label_const) 1 eq_refl).
Defined.

(** ** Refreshing in place *)

Lemma refresh_result h s st :
  NoDup (List.map node (dom st)) ->
  exists st', refresh h s st = (Normal tt, st') /\
    dom st' = set_html h s (dom st) /\ next st' = next st /\
    descs st' = descs st /\ dummyDOM st' = dummyDOM st.
Proof.
  intros Hnd. unfold refresh. case_bool_decide as E.
  - exists st. conj; auto. symmetry. now apply set_html_same.
  - eexists. split; [reflexivity|]. conj; reflexivity.
Qed.

Lemma nodup_set_html h s l :
  NoDup (List.map node l) -> NoDup (List.map node (set_html h s l)).
Proof. intros H. rewrite map_set_html; [assumption|]. intros e x. reflexivity. Qed.



(** ** Paragraphs, tables and rows *)

Section Apart.

Variable c : string.
Variables (pre : list elem) (r : elem) (post : list elem).

Lemma frow_count_by_store st tl st' tl' k :
  inv c pre r post st tl -> inv c pre r post st' tl' ->
  fallbackElements (the_descs st') = fallbackElements (the_descs st) ->
  safe_key k = true ->
  cnt (idR c k) tl' = cnt (idR c k) tl.
Proof.
  intros I I' E Hs.
  pose proof (so_f_rows _ _ _ _ _ _ (inv_structure _ _ _ _ _ _ I) k Hs) as A.
  pose proof (so_f_rows _ _ _ _ _ _ (inv_structure _ _ _ _ _ _ I') k Hs) as A'.
  assert (Em : fmap (the_descs st') = fmap (the_descs st)) by (unfold fmap; now rewrite E).
  assert (H1 : 1 <= cnt (idR c k) tl -> 1 <= cnt (idR c k) tl').
  { intros H. destruct (st_frow' _ _ _ (inv_store _ _ _ _ _ _ I) k Hs H) as [h Hh].
    rewrite <- Em in Hh. eapply hasP_cnt. exact (st_frow _ _ _ (inv_store _ _ _ _ _ _ I') k h Hs Hh). }
  assert (H2 : 1 <= cnt (idR c k) tl' -> 1 <= cnt (idR c k) tl).
  { intros H. destruct (st_frow' _ _ _ (inv_store _ _ _ _ _ _ I') k Hs H) as [h Hh].
    rewrite Em in Hh. eapply hasP_cnt. exact (st_frow _ _ _ (inv_store _ _ _ _ _ _ I) k h Hs Hh). }
  lia.
Qed.

Lemma lrow_count_by_store st tl st' tl' k :
  inv c pre r post st tl -> inv c pre r post st' tl' ->
  labelElements (the_descs st') = labelElements (the_descs st) ->
  safe_key k = true ->
  cnt (idLR c k) tl' = cnt (idLR c k) tl.
Proof.
  intros I I' E Hs.
  pose proof (so_l_rows _ _ _ _ _ _ (inv_structure _ _ _ _ _ _ I) k Hs) as A.
  pose proof (so_l_rows _ _ _ _ _ _ (inv_structure _ _ _ _ _ _ I') k Hs) as A'.
  assert (Em : lmap (the_descs st') = lmap (the_descs st)) by (unfold lmap; now rewrite E).
  assert (H1 : 1 <= cnt (idLR c k) tl -> 1 <= cnt (idLR c k) tl').
  { intros H. destruct (st_lrow' _ _ _ (inv_store _ _ _ _ _ _ I) k Hs H) as [h Hh].
    rewrite <- Em in Hh. eapply hasP_cnt. exact (st_lrow _ _ _ (inv_store _ _ _ _ _ _ I') k h Hs Hh). }
  assert (H2 : 1 <= cnt (idLR c k) tl' -> 1 <= cnt (idLR c k) tl).
  { intros H. destruct (st_lrow' _ _ _ (inv_store _ _ _ _ _ _ I') k Hs H) as [h Hh].
    rewrite Em in Hh. eapply hasP_cnt. exact (st_lrow _ _ _ (inv_store _ _ _ _ _ _ I) k h Hs Hh). }
  lia.
Qed.

Lemma paragraph_count_by_store st tl st' tl' :
  inv c pre r post st tl -> inv c pre r post st' tl' ->
  fallback (the_descs st') = fallback (the_descs st) ->
  cnt (idP c) tl' = cnt (idP c) tl.
Proof.
  intros I I' E.
  pose proof (so_f_once _ _ _ _ _ _ (inv_structure _ _ _ _ _ _ I)) as (_ & A & _).
  pose proof (so_f_once _ _ _ _ _ _ (inv_structure _ _ _ _ _ _ I')) as (_ & A' & _).
  assert (H1 : 1 <= cnt (idP c) tl -> 1 <= cnt (idP c) tl').
  { intros H. pose proof (st_fallback' _ _ _ (inv_store _ _ _ _ _ _ I) H) as Hn.
    destruct (fallback (the_descs st)) as [h|] eqn:F; [|congruence].
    eapply hasP_cnt. exact (st_fallback _ _ _ (inv_store _ _ _ _ _ _ I') h E). }
  assert (H2 : 1 <= cnt (idP c) tl' -> 1 <= cnt (idP c) tl).
  { intros H. pose proof (st_fallback' _ _ _ (inv_store _ _ _ _ _ _ I') H) as Hn.
    destruct (fallback (the_descs st')) as [h|] eqn:F; [|congruence].
    eapply hasP_cnt. apply (st_fallback _ _ _ (inv_store _ _ _ _ _ _ I) h). congruence. }
  lia.
Qed.

Lemma label_paragraph_count_by_store st tl st' tl' :
  inv c pre r post st tl -> inv c pre r post st' tl' ->
  label (the_descs st') = label (the_descs st) ->
  cnt (idLP c) tl' = cnt (idLP c) tl.
Proof.
  intros I I' E.
  pose proof (so_l_once _ _ _ _ _ _ (inv_structure _ _ _ _ _ _ I)) as (_ & A & _).
  pose proof (so_l_once _ _ _ _ _ _ (inv_structure _ _ _ _ _ _ I')) as (_ & A' & _).
  assert (H1 : 1 <= cnt (idLP c) tl -> 1 <= cnt (idLP c) tl').
  { intros H. pose proof (st_label' _ _ _ (inv_store _ _ _ _ _ _ I) H) as Hn.
    destruct (label (the_descs st)) as [h|] eqn:F; [|congruence].
    eapply hasP_cnt. exact (st_label _ _ _ (inv_store _ _ _ _ _ _ I') h E). }
  assert (H2 : 1 <= cnt (idLP c) tl' -> 1 <= cnt (idLP c) tl).
  { intros H. pose proof (st_label' _ _ _ (inv_store _ _ _ _ _ _ I') H) as Hn.
    destruct (label (the_descs st')) as [h|] eqn:F; [|congruence].
    eapply hasP_cnt. apply (st_label _ _ _ (inv_store _ _ _ _ _ _ I) h). congruence. }
  lia.
Qed.

End Apart.



